(** * Scroll-driven image sequence player (docs/js/sequence-player.js)

    A shallow embedding of the [SequencePlayer] class and the properties its
    specification states about it.

    Conventions of the model.

    - JavaScript numbers.  Frame indices and years are integers [Z], pixel
      measures and the scroll progress are rationals [Q].  Where the code
      divides or multiplies, or adds beyond the integers that a binary64
      number holds exactly, the result is rounded as IEEE 754 prescribes
      ([b64]: to the nearest binary64 number, ties to even, with gradual
      underflow and overflow to an infinity): the quotient and the product
      of lines 300 and 301, the constants [0.05] and [0.95], the frame
      number of [getFrameSrc], the rectangle of [setupCanvas].  [NaN] and
      the infinities are kept ([jsnum], [xnum], [intnum]); the sign of zero
      is not, since no zero is divided by or printed with a sign here.
      [totalFrames], [totalFrames - 1], the window of [preloadBuffer] and
      the year of a frame are sums, differences and floored quotients of
      integers far below [2^53] in every player that can be constructed
      (at most [2^32 - 1] frames); they are taken in [Z].
    - The player object is a record [State]; the methods are computations
      in a small state monad [M].  The descriptor read once from the
      [data-*] attributes is a record [Config].
    - [async]/[await].  A call of [loadFrame] that starts a download leaves
      an entry in [pending]; the entry remembers who awaits the promise.
      The browser later settles one pending entry ([onload] or [onerror]),
      which runs the handler and then the awaiting continuation.  A promise
      that is already settled when awaited resumes in the same task, after
      the synchronous code; nothing the resumed code reads ([images]) is
      written by that synchronous code, so the model resumes at once.
    - The canvas is modelled by the list of images painted on it, the
      indicator by its year.  The rectangle that [setupCanvas] computes
      and the list of countries that [updateYearIndicator] renders next to
      the year are functions of their own ([setupCanvas_rect],
      [countriesOf]), as are the reading of the [data-*] attributes
      ([readDataset]) and the throttle of [bindScroll] ([Page]). *)

From Stdlib Require Import ZArith QArith Qround Qminmax Qpower Lqa Lia String Ascii.
From Stdlib Require Import DecimalString DecimalZ DecimalPos DecimalFacts.
From Stdlib Require Qcanon.
From stdpp Require Import base decidable countable gmap list.

Local Open Scope string_scope.
Local Open Scope Z_scope.

(** ** JavaScript values *)

(** A number that may be [NaN]. *)
Inductive jsnum (A : Type) : Type :=
  | Val (a : A)
  | NaN.
Arguments Val {A} a.
Arguments NaN {A}.

Abbreviation jsint := (jsnum Z).

#[global] Instance num_eq_dec {A} `{EqDecision A} : EqDecision (jsnum A).
Proof. solve_decision. Defined.

Definition num_to_option {A} (x : jsnum A) : option A :=
  match x with Val a => Some a | NaN => None end.

Definition num_of_option {A} (x : option A) : jsnum A :=
  match x with Some a => Val a | None => NaN end.

#[global] Instance num_countable {A} `{Countable A} : Countable (jsnum A).
Proof.
  apply (inj_countable' num_to_option num_of_option).
  intros [a|]; reflexivity.
Defined.

(** [a !== b] on numbers: [NaN] differs from everything, itself included. *)
Definition strict_neq (a b : jsint) : bool :=
  match a, b with
  | Val x, Val y => negb (x =? y)
  | _, _ => true
  end.

(** A number: finite, an infinity or [NaN]. *)
Inductive xnum : Type :=
  | Fin (q : Q)
  | PosInf
  | NegInf
  | XNaN.

(** *** Binary64 rounding *)

Definition pow2 (e : Z) : Q := (2 ^ e)%Q.

(** [floor (log2 q)] for [q > 0]. *)
Definition Qlog2 (q : Q) : Z :=
  let k := Z.log2 (Qnum q) - Z.log2 (Zpos (Qden q)) in
  if Qle_bool (pow2 k) q then k else k - 1.

(** The nearest integer, the even one of two equally near. *)
Definition round_even (x : Q) : Z :=
  let f := Qfloor x in
  match (x - inject_Z f ?= 1 # 2)%Q with
  | Lt => f
  | Gt => f + 1
  | Eq => if Z.even f then f else f + 1
  end.

(** The exponent of the last of the 53 bits of [q > 0]; the least one,
    [-1074], for the numbers below [2^-1022]. *)
Definition ulp_exp (q : Q) : Z := Z.max (-1074) (Qlog2 q - 52).

(** [q > 0] rounded to a multiple of its last place. *)
Definition round_pos (q : Q) : Q :=
  (inject_Z (round_even (q / pow2 (ulp_exp q))) * pow2 (ulp_exp q))%Q.

(** The binary64 number that an operation with the exact result [q]
    returns: the nearest one, ties to even; an infinity from [2^1024] on. *)
Definition b64 (q : Q) : xnum :=
  match (q ?= 0)%Q with
  | Eq => Fin 0
  | Gt => let r := round_pos q in
          if Qle_bool (pow2 1024) r then PosInf else Fin (Qred r)
  | Lt => let r := round_pos (- q) in
          if Qle_bool (pow2 1024) r then NegInf else Fin (Qred (- r))
  end.

(** [a / b]: a zero divisor gives an infinity of the sign of [a], or [NaN]
    for [0 / 0]. *)
Definition js_div (a b : Q) : xnum :=
  if Qeq_bool b 0 then
    match (a ?= 0)%Q with
    | Eq => XNaN
    | Lt => NegInf
    | Gt => PosInf
    end
  else b64 (a / b).

(** [Math.max(0, Math.min(1, x))]: [Math.min(1, +Infinity)] is [1],
    [Math.max(0, -Infinity)] is [0], and [NaN] goes through both. *)
Definition clamp01 (x : xnum) : jsnum Q :=
  match x with
  | Fin q => Val (Qmax 0 (Qmin 1 q))
  | PosInf => Val 1%Q
  | NegInf => Val 0%Q
  | XNaN => NaN
  end.

(** [Math.floor(p * m)] for an integer [m]: the floor of the rounded
    product.  (With a progress of at most 1 the product leaves the finite
    numbers only for [m] beyond [2^1023], far more frames than [new Array]
    accepts; it is given as [NaN].) *)
Definition floor_mul (p : jsnum Q) (m : Z) : jsint :=
  match p with
  | Val q =>
      match b64 (q * inject_Z m) with
      | Fin x => Val (Qfloor x)
      | _ => NaN
      end
  | NaN => NaN
  end.

(** Integer arithmetic through [NaN]. *)
Definition num_map {A B} (f : A -> B) (x : jsnum A) : jsnum B :=
  match x with Val a => Val (f a) | NaN => NaN end.

(** ** Strings *)

Fixpoint repeat_char (n : nat) (c : ascii) : string :=
  match n with
  | O => EmptyString
  | S k => String c (repeat_char k c)
  end.

Fixpoint string_drop (n : nat) (s : string) : string :=
  match n, s with
  | O, _ => s
  | S k, EmptyString => EmptyString
  | S k, String _ s' => string_drop k s'
  end.

Fixpoint string_take (n : nat) (s : string) : string :=
  match n, s with
  | O, _ => EmptyString
  | S k, EmptyString => EmptyString
  | S k, String ch s' => String ch (string_take k s')
  end.

(** An integer number: an integer, an infinity or [NaN]. *)
Inductive intnum : Type :=
  | IFin (z : Z)
  | IPosInf
  | INegInf
  | INaN.

(** The number that a sum with the exact result [z] returns: [z] itself up
    to [2^53], above that the nearest binary64 number, an integer again. *)
Definition of_Z (z : Z) : intnum :=
  match b64 (inject_Z z) with
  | Fin q => IFin (Qfloor q)
  | PosInf => IPosInf
  | NegInf => INegInf
  | XNaN => INaN
  end.

(** [a + b] for an integer [a]. *)
Definition js_add (a : Z) (b : jsint) : intnum :=
  match b with
  | Val z => of_Z (a + z)
  | NaN => INaN
  end.

(** All the decimal digits of an integer. *)
Definition decimal (z : Z) : string := NilZero.string_of_int (Z.to_int z).

Definition reads_as (v z : Z) : bool :=
  match of_Z v with
  | IFin z' => z' =? z
  | _ => false
  end.

(** The integer of the fewest significant digits, from [k] digits on, that
    reads as the number [z > 0] of [n] digits; of two such, the nearer one,
    and of two equally near the one whose last digit is even. *)
Fixpoint shortest_from (fuel : nat) (k n z : Z) : Z :=
  match fuel with
  | O => z
  | S fuel' =>
      let scale := 10 ^ (n - k) in
      let v1 := z / scale * scale in
      let v2 := v1 + scale in
      let ok1 := (0 <? v1) && reads_as v1 z in
      let ok2 := reads_as v2 z in
      if ok1 && ok2 then
        match z - v1 ?= v2 - z with
        | Lt => v1
        | Gt => v2
        | Eq => if Z.even (z / scale) then v1 else v2
        end
      else if ok1 then v1
      else if ok2 then v2
      else shortest_from fuel' (k + 1) n z
  end.

Definition shortest (z : Z) : Z :=
  let n := Z.of_nat (String.length (decimal z)) in
  shortest_from (Z.to_nat (Z.min n 17)) 1 n z.

Fixpoint strip_zeros (s : string) : string :=
  match s with
  | EmptyString => EmptyString
  | String ch s' =>
      match strip_zeros s' with
      | EmptyString => if Ascii.eqb ch "0" then EmptyString else String ch EmptyString
      | t => String ch t
      end
  end.

(** [d.ddde+x] for the digits [s] of an integer. *)
Definition exponent_form (s : string) : string :=
  match strip_zeros s with
  | EmptyString => "0"
  | String d EmptyString => String d ("e+" ++ decimal (Z.of_nat (String.length s) - 1))
  | String d rest =>
      String d ("." ++ rest ++ "e+" ++ decimal (Z.of_nat (String.length s) - 1))
  end.

(** The digits that [toString] gives a positive integer number: all of
    them up to [2^53]; above, the fewest that read as the same number,
    filled up with zeros, and in exponent notation from [10^21] on. *)
Definition digits (z : Z) : string :=
  if z <=? 2 ^ 53 then decimal z
  else
    let v := shortest z in
    if v <? 10 ^ 21 then decimal v else exponent_form (decimal v).

(** [n.toString()] for an integer number. *)
Definition toString (x : intnum) : string :=
  match x with
  | IFin 0 => "0"
  | IFin (Z.pos p) => digits (Z.pos p)
  | IFin (Z.neg p) => "-" ++ digits (Z.pos p)
  | IPosInf => "Infinity"
  | INegInf => "-Infinity"
  | INaN => "NaN"
  end.

(** [s.padStart(target, '0')]: fills up to [target] characters, never
    truncates. *)
Definition padStart (target : Z) (fill : ascii) (s : string) : string :=
  repeat_char (Z.to_nat target - String.length s) fill ++ s.

(** [s.replace(pat, rep)] with a string pattern: the first occurrence only.
    ([rep] is a rendered number and holds no [$], so it is inserted
    literally.) *)
Fixpoint replace (pat rep s : string) : string :=
  if String.prefix pat s then rep ++ string_drop (String.length pat) s
  else match s with
       | EmptyString => EmptyString
       | String ch s' => String ch (replace pat rep s')
       end.

(** ** The sequence descriptor *)

Record Config : Type := {
  sequenceName : string;
  startFrame : Z;
  endFrame : Z;
  pattern : string;
  padding : Z;
  framesPerYear : Z;
  startYear : Z;
  (** whether [canvas.getContext('2d')] gave a context *)
  ctx : bool;
  (** whether the section has a [.sequence-overlay] element *)
  overlay : bool;
  (** whether both [#year-value] and [#countries-list] exist *)
  yearEls : bool
}.

Definition totalFrames (c : Config) : Z := endFrame c - startFrame c + 1.
Definition hasYearIndicator (c : Config) : bool := 0 <? framesPerYear c.
Definition bufferSize : Z := 15.

(** ** Frame addressing *)

Definition frameNum (c : Config) (frameIndex : jsint) : string :=
  padStart (padding c) "0" (toString (js_add (startFrame c) frameIndex)).

Definition getFrameSrc (c : Config) (frameIndex : jsint) : string :=
  let filename := replace "{frame}" (frameNum c frameIndex) (pattern c) in
  sequenceName c ++ "/" ++ filename.

(** ** The player object, the page around it and the network *)

(** A decoded [Image] object, known by the address it was loaded from. *)
Record Image : Type := { img_src : string }.

#[global] Instance Image_eq_dec : EqDecision Image.
Proof. solve_decision. Defined.

(** What happens to the canvas: [setupCanvas] assigns its size, which
    blanks it; [drawFrame] fills it black and draws one image. *)
Inductive CanvasOp : Type :=
  | Resized
  | Painted (img : Image).

(** Who awaits the promise that [loadFrame] returned. *)
Inductive Awaiter : Type :=
  | Dropped     (* [preloadBuffer] ignores the promise *)
  | AwaitDraw   (* [drawFrame] awaits it *)
  | AwaitInit.  (* [init] awaits it *)

(** A download in progress: the closure of [img.onload]/[img.onerror]. *)
Record Fetch : Type := {
  f_index : jsint;
  f_src : string;
  f_await : Awaiter
}.

(** What [loadFrame] hands back: a promise already settled with an image
    or [null], or one that waits for the download. *)
Inductive Promise : Type :=
  | Settled (v : option Image)
  | Waiting.

Record State : Type := {
  (** [this.images]: the slots that hold an image; every other slot reads
      as [null] or [undefined] *)
  images : gmap jsint Image;
  loadingFrames : gset jsint;
  currentFrame : jsint;
  currentYear : jsint;
  initialized : bool;
  (** the page: class [in-view] of the section, class [visible] of the
      overlay, the text of [#year-value], the canvas *)
  inView : bool;
  overlayVisible : bool;
  yearText : option jsint;
  canvas : list CanvasOp;
  (** the downloads the browser has not yet settled, oldest first *)
  pending : list Fetch
}.

Definition set_images (f : gmap jsint Image -> gmap jsint Image) (st : State) : State :=
  {| images := f (images st); loadingFrames := loadingFrames st;
     currentFrame := currentFrame st; currentYear := currentYear st;
     initialized := initialized st; inView := inView st;
     overlayVisible := overlayVisible st; yearText := yearText st;
     canvas := canvas st; pending := pending st |}.

Definition set_loadingFrames (f : gset jsint -> gset jsint) (st : State) : State :=
  {| images := images st; loadingFrames := f (loadingFrames st);
     currentFrame := currentFrame st; currentYear := currentYear st;
     initialized := initialized st; inView := inView st;
     overlayVisible := overlayVisible st; yearText := yearText st;
     canvas := canvas st; pending := pending st |}.

Definition set_currentFrame (x : jsint) (st : State) : State :=
  {| images := images st; loadingFrames := loadingFrames st;
     currentFrame := x; currentYear := currentYear st;
     initialized := initialized st; inView := inView st;
     overlayVisible := overlayVisible st; yearText := yearText st;
     canvas := canvas st; pending := pending st |}.

Definition set_currentYear (x : jsint) (st : State) : State :=
  {| images := images st; loadingFrames := loadingFrames st;
     currentFrame := currentFrame st; currentYear := x;
     initialized := initialized st; inView := inView st;
     overlayVisible := overlayVisible st; yearText := yearText st;
     canvas := canvas st; pending := pending st |}.

Definition set_initialized (x : bool) (st : State) : State :=
  {| images := images st; loadingFrames := loadingFrames st;
     currentFrame := currentFrame st; currentYear := currentYear st;
     initialized := x; inView := inView st;
     overlayVisible := overlayVisible st; yearText := yearText st;
     canvas := canvas st; pending := pending st |}.

Definition set_inView (x : bool) (st : State) : State :=
  {| images := images st; loadingFrames := loadingFrames st;
     currentFrame := currentFrame st; currentYear := currentYear st;
     initialized := initialized st; inView := x;
     overlayVisible := overlayVisible st; yearText := yearText st;
     canvas := canvas st; pending := pending st |}.

Definition set_overlayVisible (x : bool) (st : State) : State :=
  {| images := images st; loadingFrames := loadingFrames st;
     currentFrame := currentFrame st; currentYear := currentYear st;
     initialized := initialized st; inView := inView st;
     overlayVisible := x; yearText := yearText st;
     canvas := canvas st; pending := pending st |}.

Definition set_yearText (x : option jsint) (st : State) : State :=
  {| images := images st; loadingFrames := loadingFrames st;
     currentFrame := currentFrame st; currentYear := currentYear st;
     initialized := initialized st; inView := inView st;
     overlayVisible := overlayVisible st; yearText := x;
     canvas := canvas st; pending := pending st |}.

Definition set_canvas (f : list CanvasOp -> list CanvasOp) (st : State) : State :=
  {| images := images st; loadingFrames := loadingFrames st;
     currentFrame := currentFrame st; currentYear := currentYear st;
     initialized := initialized st; inView := inView st;
     overlayVisible := overlayVisible st; yearText := yearText st;
     canvas := f (canvas st); pending := pending st |}.

Definition set_pending (f : list Fetch -> list Fetch) (st : State) : State :=
  {| images := images st; loadingFrames := loadingFrames st;
     currentFrame := currentFrame st; currentYear := currentYear st;
     initialized := initialized st; inView := inView st;
     overlayVisible := overlayVisible st; yearText := yearText st;
     canvas := canvas st; pending := f (pending st) |}.

(** *** The state monad of the methods *)

Definition M (A : Type) : Type := State -> A * State.

#[global] Instance M_ret : MRet M := fun A a st => (a, st).
#[global] Instance M_bind : MBind M :=
  fun A B f m st => let (a, st') := m st in f a st'.

Definition get : M State := fun st => (st, st).
Definition modify (f : State -> State) : M unit := fun st => (tt, f st).
Definition skip : M unit := mret tt.
Definition when (b : bool) (m : M unit) : M unit := if b then m else skip.
Definition exec {A} (m : M A) (st : State) : State := snd (m st).
Definition eval {A} (m : M A) (st : State) : A := fst (m st).

(** ** The methods *)

(** [frameIndex < 0 || frameIndex >= this.totalFrames]; both comparisons
    are false for [NaN]. *)
Definition out_of_range (c : Config) (frameIndex : jsint) : bool :=
  match frameIndex with
  | Val z => (z <? 0) || (totalFrames c <=? z)
  | NaN => false
  end.

(** [loadFrame(frameIndex)], called by [k], who does with the promise
    what [Awaiter] says. *)
Definition loadFrame (c : Config) (k : Awaiter) (frameIndex : jsint) : M Promise :=
  if out_of_range c frameIndex then mret (Settled None)
  else
    st ← get;
    match images st !! frameIndex with
    | Some img => mret (Settled (Some img))
    | None =>
        if decide (frameIndex ∈ loadingFrames st) then mret (Settled None)
        else
          modify (set_loadingFrames (fun l => l ∪ {[frameIndex]}));;
          let src := getFrameSrc c frameIndex in
          modify (set_pending (fun p =>
            (p ++ [{| f_index := frameIndex; f_src := src; f_await := k |}])%list));;
          mret Waiting
    end.

(** The body of the [for] loop of [preloadBuffer], [n] iterations from [i]. *)
Fixpoint preload_loop (c : Config) (n : nat) (i : Z) : M unit :=
  match n with
  | O => skip
  | S n' =>
      st ← get;
      when (negb (bool_decide (is_Some (images st !! Val i)))
            && negb (bool_decide (Val i ∈ loadingFrames st)))
        (loadFrame c Dropped (Val i);; skip);;
      preload_loop c n' (i + 1)
  end.

(** [preloadBuffer(centerFrame)].  With [NaN] both bounds are [NaN] and the
    loop condition [i <= end] is false at once. *)
Definition preloadBuffer (c : Config) (centerFrame : jsint) : M unit :=
  match centerFrame with
  | NaN => skip
  | Val center =>
      let start := Z.max 0 (center - bufferSize) in
      let end_ := Z.min (totalFrames c - 1) (center + bufferSize) in
      preload_loop c (Z.to_nat (end_ - start + 1)) start
  end.

(** [setupCanvas()]: nothing without the first image; otherwise the canvas
    takes the size of the viewport. *)
Definition setupCanvas : M unit :=
  st ← get;
  match images st !! Val 0 with
  | None => skip
  | Some _ => modify (set_canvas (fun l => Resized :: l))
  end.

(** The end of [drawFrame]: [fillRect] and one of the two [drawImage]. *)
Definition paint (img : Image) : M unit :=
  modify (set_canvas (fun l => Painted img :: l)).

(** [drawFrame] from the point where [await this.loadFrame(index)] gave [v]. *)
Definition drawResume (v : option Image) : M unit :=
  st ← get;
  let img := match v with
             | Some i => Some i
             | None => images st !! Val 0
             end in
  match img with
  | None => skip
  | Some i => paint i
  end.

(** [drawFrame(index)]. *)
Definition drawFrame (c : Config) (index : jsint) : M unit :=
  if negb (ctx c) then skip
  else
    st ← get;
    match images st !! index with
    | Some img => paint img
    | None =>
        p ← loadFrame c AwaitDraw index;
        match p with
        | Settled v => drawResume v
        | Waiting => skip
        end
    end.

(** [updateYearIndicator(year)]. *)
Definition updateYearIndicator (c : Config) (year : jsint) : M unit :=
  if negb (yearEls c) then skip
  else modify (set_yearText (Some year)).

(** [updateOverlay(show)]. *)
Definition updateOverlay (c : Config) (show : bool) : M unit :=
  when (overlay c) (modify (set_overlayVisible show)).

(** What [onScroll] reads from the page. *)
Record Layout : Type := {
  rect_top : Q;
  rect_bottom : Q;
  offsetHeight : Z;
  innerHeight : Z
}.

Definition scrollStart (g : Layout) : Q := - rect_top g.
Definition scrollRange (g : Layout) : Q := inject_Z (offsetHeight g - innerHeight g).

Definition Qltb (a b : Q) : bool := negb (Qle_bool b a).

(** [a > b]: false as soon as one side is [NaN]. *)
Definition x_gt (a b : xnum) : bool :=
  match a, b with
  | XNaN, _ | _, XNaN => false
  | Fin p, Fin q => Qltb q p
  | Fin _, NegInf => true
  | Fin _, PosInf => false
  | PosInf, PosInf => false
  | PosInf, _ => true
  | NegInf, _ => false
  end.

(** Lines 300 and 301 of the source. *)
Definition progressOf (scrollStart scrollRange : Q) : jsnum Q :=
  clamp01 (js_div scrollStart scrollRange).

Definition frameIndexOf (c : Config) (progress : jsnum Q) : jsint :=
  floor_mul progress (totalFrames c - 1).

(** Lines 309 and 310. *)
Definition yearOf (c : Config) (frameIndex : jsint) : jsint :=
  num_map (fun z => startYear c + z / framesPerYear c) frameIndex.

Definition clampYear (year : jsint) : jsint :=
  num_map (fun y => Z.min 2016 (Z.max 2000 y)) year.

(** [progress > 0.05 && progress < 0.95]: the two constants are the
    binary64 numbers nearest to 5/100 and 95/100. *)
Definition overlayShown (progress : jsnum Q) : bool :=
  match progress with
  | Val p => x_gt (Fin p) (b64 (5 # 100)) && x_gt (b64 (95 # 100)) (Fin p)
  | NaN => false
  end.

(** [rect.top < viewportHeight && rect.bottom > 0]. *)
Definition isInView (g : Layout) : bool :=
  Qltb (rect_top g) (inject_Z (innerHeight g)) && Qltb 0 (rect_bottom g).

(** Lines 304 to 315: the body of [if (frameIndex !== this.currentFrame)]. *)
Definition frameChanged (c : Config) (frameIndex : jsint) : M unit :=
  modify (set_currentFrame frameIndex);;
  drawFrame c frameIndex;;
  preloadBuffer c frameIndex;;
  when (hasYearIndicator c)
    (let year := yearOf c frameIndex in
     let clampedYear := clampYear year in
     st ← get;
     when (strict_neq clampedYear (currentYear st))
       (modify (set_currentYear clampedYear);;
        updateYearIndicator c clampedYear)).

(** [onScroll()]. *)
Definition onScroll (c : Config) (g : Layout) : M unit :=
  st ← get;
  if negb (initialized st) then skip
  else
    let scrollStart := scrollStart g in
    let scrollRange := scrollRange g in
    modify (set_inView (isInView g));;
    if Qltb scrollStart 0 then updateOverlay c false
    else if Qltb scrollRange scrollStart then
      drawFrame c (Val (totalFrames c - 1));;
      updateOverlay c false;;
      when (hasYearIndicator c) (updateYearIndicator c (Val 2016))
    else
      let progress := progressOf scrollStart scrollRange in
      let frameIndex := frameIndexOf c progress in
      when (strict_neq frameIndex (currentFrame st)) (frameChanged c frameIndex);;
      updateOverlay c (overlayShown progress).

(** The [resize] listener. *)
Definition onResize (c : Config) : M unit :=
  setupCanvas;;
  st ← get;
  drawFrame c (currentFrame st).

(** [init()] from the point where [await this.loadFrame(0)] returned.
    ([bindScroll] changes nothing in the player: it adds the listeners that
    [step] below delivers.) *)
Definition initResume (c : Config) : M unit :=
  setupCanvas;;
  drawFrame c (Val 0);;
  modify (set_initialized true);;
  preloadBuffer c (Val 0);;
  when (hasYearIndicator c) (updateYearIndicator c (Val (startYear c))).

(** [init()]. *)
Definition init (c : Config) : M unit :=
  p ← loadFrame c AwaitInit (Val 0);
  match p with
  | Settled _ => initResume c
  | Waiting => skip
  end.

(** The object that the constructor leaves before it calls [init]. *)
Definition blank (c : Config) : State :=
  {| images := ∅; loadingFrames := ∅;
     currentFrame := Val 0; currentYear := Val (startYear c);
     initialized := false; inView := false; overlayVisible := false;
     yearText := None; canvas := []; pending := [] |}.

(** [new SequencePlayer(..)] for a section and a canvas that exist.
    [new Array(totalFrames)] throws a [RangeError] for a length that is
    negative or above [2^32 - 1]. *)
Definition construct (c : Config) : option State :=
  if (totalFrames c <? 0) || (4294967295 <? totalFrames c) then None
  else Some (exec (init c) (blank c)).

(** *** The browser settles a download *)

(** The continuation that awaits the promise, resumed with its value. *)
Definition resume (c : Config) (k : Awaiter) (v : option Image) : M unit :=
  match k with
  | Dropped => skip
  | AwaitDraw => drawResume v
  | AwaitInit => initResume c
  end.

(** [img.onload] or [img.onerror] of the download [f]; the result is what
    the promise is resolved with. *)
Definition onSettled (ok : bool) (f : Fetch) : M (option Image) :=
  if ok then
    let img := {| img_src := f_src f |} in
    modify (set_images (fun m => <[f_index f := img]> m));;
    modify (set_loadingFrames (fun l => l ∖ {[f_index f]}));;
    mret (Some img)
  else
    modify (set_loadingFrames (fun l => l ∖ {[f_index f]}));;
    mret None.

(** The browser settles the download [f]: the handler, then whoever
    awaits the promise. *)
Definition settle (c : Config) (ok : bool) (f : Fetch) : M unit :=
  v ← onSettled ok f;
  resume c (f_await f) v.

(** One task of the event loop.  The two listeners exist from [bindScroll]
    on, which [init] calls in the same task in which it sets
    [initialized]. *)
Inductive step (c : Config) : State -> State -> Prop :=
  | step_scroll (g : Layout) (st : State) :
      initialized st = true ->
      step c st (exec (onScroll c g) st)
  | step_resize (st : State) :
      initialized st = true ->
      step c st (exec (onResize c) st)
  | step_settle (ok : bool) (f : Fetch) (l1 l2 : list Fetch) (st : State) :
      pending st = (l1 ++ f :: l2)%list ->
      step c st (exec (settle c ok f) (set_pending (fun _ => (l1 ++ l2)%list) st)).

(** The states a player goes through. *)
Inductive reachable (c : Config) : State -> Prop :=
  | reach_construct (st : State) :
      construct c = Some st -> reachable c st
  | reach_step (st st' : State) :
      reachable c st -> step c st st' -> reachable c st'.

(** ** Vocabulary of the statements *)

(** The number of downloads of frame [i] in progress. *)
Definition outstanding (i : jsint) (st : State) : nat :=
  length (filter (fun f => f_index f = i) (pending st)).

(** The download that [loadFrame(i)] starts, awaited as [k] says. *)
Definition mkFetch (c : Config) (k : Awaiter) (i : jsint) : Fetch :=
  {| f_index := i; f_src := getFrameSrc c i; f_await := k |}.

(** The player once the downloads of the frames [T] have been started, in
    that order, each awaited as [k] says. *)
Definition started (c : Config) (k : Awaiter) (T : list jsint) (st : State) : State :=
  set_pending (fun p => (p ++ (mkFetch c k <$> T))%list)
    (set_loadingFrames (fun l => l ∪ list_to_set T) st).

(** Frame [i] is neither cached nor in flight. *)
Definition idle (st : State) (i : jsint) : Prop :=
  images st !! i = None /\ i ∉ loadingFrames st.

#[global] Instance idle_dec (st : State) (i : jsint) : Decision (idle st i).
Proof. unfold idle. apply _. Defined.

(** The window of [preloadBuffer] around a center, as the specification
    writes it. *)
Definition window (c : Config) (center : Z) : list Z :=
  let lo := Z.max 0 (center - 15) in
  let hi := Z.min (totalFrames c - 1) (center + 15) in
  seqZ lo (hi - lo + 1).

(** The frames of the window that are neither cached nor in flight. *)
Definition prefetchTargets (c : Config) (centerFrame : jsint) (st : State) : list jsint :=
  match centerFrame with
  | NaN => []
  | Val center => Val <$> filter (fun i => idle st (Val i)) (window c center)
  end.

(** What ties the in-flight set to the downloads in progress: no two
    downloads of one frame, every download marked in flight and its slot
    empty, every mark backed by a download. *)
Record net_inv (st : State) : Prop := {
  inv_nodup : NoDup (f_index <$> pending st);
  inv_marked : forall f, f ∈ pending st ->
    f_index f ∈ loadingFrames st /\ images st !! f_index f = None;
  inv_backed : forall i, i ∈ loadingFrames st -> i ∈ (f_index <$> pending st)
}.

(** Every download was started for a frame that passed the range test of
    [loadFrame]. *)
Definition range_inv (c : Config) (st : State) : Prop :=
  forall f, f ∈ pending st -> out_of_range c (f_index f) = false.

(** A method that maintains a property of the player. *)
Definition maintains {A} (P : State -> Prop) (m : M A) : Prop :=
  forall st, P st -> P (exec m st).

(** The number a string of decimal digits denotes; [None] when some
    character is not a digit. *)
Definition decimal_value (s : string) : option Z :=
  option_map Z.of_uint (NilEmpty.uint_of_string s).

(** No opening brace in [s]. *)
Fixpoint no_brace (s : string) : bool :=
  match s with
  | EmptyString => true
  | String ch s' => negb (Ascii.eqb ch "{") && no_brace s'
  end.

(** The reading of "a zero-padded string of exactly [padding] digits". *)
Definition exactly_padded (c : Config) (i : Z) : Prop :=
  String.length (frameNum c (Val i)) = Z.to_nat (padding c).

(** [clamp(x, lo, hi)] as the specification uses it, on rationals and on
    integers. *)
Definition clamp (x lo hi : Q) : Q :=
  if Qltb x lo then lo else if Qltb hi x then hi else x.

Definition clampZ (x lo hi : Z) : Z :=
  if x <? lo then lo else if hi <? x then hi else x.

(** The year the specification shows for a frame index:
    [clamp(startYear + floor(frameIndex / framesPerYear), startYear,
    startYear + 16)]. *)
Definition specYear (c : Config) (frameIndex : Z) : Z :=
  clampZ (startYear c + frameIndex / framesPerYear c) (startYear c) (startYear c + 16).

(** The frame an invocation of the handler settles on: none while the
    section is not reached (the handler returns), the last frame once it
    is scrolled past, lines 300 and 301 in between. *)
Definition mappedFrame (c : Config) (g : Layout) : option jsint :=
  if Qltb (scrollStart g) 0 then None
  else if Qltb (scrollRange g) (scrollStart g) then Some (Val (totalFrames c - 1))
  else Some (frameIndexOf c (progressOf (scrollStart g) (scrollRange g))).

(** ** Sample descriptors, layouts and runs *)

(** A sequence of 480 frames, 30 to the year from 2000 on; one of 1200
    frames with the same padding of 3; and the first with 1990 as its
    first year. *)
Definition cfg0 : Config :=
  {| sequenceName := "assets/seq1"; startFrame := 1; endFrame := 480;
     pattern := "render{frame}.png"; padding := 3;
     framesPerYear := 30; startYear := 2000;
     ctx := true; overlay := true; yearEls := true |}.

Definition cfg_long : Config :=
  {| sequenceName := "assets/seq1"; startFrame := 1; endFrame := 1200;
     pattern := "render{frame}.png"; padding := 3;
     framesPerYear := 0; startYear := 2000;
     ctx := true; overlay := true; yearEls := true |}.


(** A section of 4800 pixels in a viewport of 800, hence a scroll range of
    4000: scrolled by 420 (frame 50 of 480), by 2000 (frame 239), by 3800
    (frame 455), by 3900 (frame 467), to its end, and past it. *)
Definition layout_50 : Layout :=
  {| rect_top := -420 # 1; rect_bottom := 4380 # 1;
     offsetHeight := 4800; innerHeight := 800 |}.

Definition layout_mid : Layout :=
  {| rect_top := -2000 # 1; rect_bottom := 2800 # 1;
     offsetHeight := 4800; innerHeight := 800 |}.

Definition layout_455 : Layout :=
  {| rect_top := -3800 # 1; rect_bottom := 1000 # 1;
     offsetHeight := 4800; innerHeight := 800 |}.

Definition layout_467 : Layout :=
  {| rect_top := -3900 # 1; rect_bottom := 900 # 1;
     offsetHeight := 4800; innerHeight := 800 |}.

Definition layout_end : Layout :=
  {| rect_top := -4000 # 1; rect_bottom := 800 # 1;
     offsetHeight := 4800; innerHeight := 800 |}.

Definition layout_past : Layout :=
  {| rect_top := -4100 # 1; rect_bottom := 700 # 1;
     offsetHeight := 4800; innerHeight := 800 |}.

(** A section of 500 pixels in a viewport of 800, its top at the top of
    the viewport. *)
Definition layout_short : Layout :=
  {| rect_top := 0; rect_bottom := 500 # 1; offsetHeight := 500; innerHeight := 800 |}.

(** The player of [cfg0] as the constructor leaves it, and once its first
    frame has arrived; the same for [cfg_1990]. *)
Definition st_loading : State := exec (init cfg0) (blank cfg0).

Definition st_ready : State :=
  exec (settle cfg0 true (mkFetch cfg0 AwaitInit (Val 0)))
    (set_pending (fun _ => []) st_loading).


(** The player of [cfg0] scrolled to the end of its section, and then
    with the last frame arrived and painted. *)
Definition st_at_end : State := exec (onScroll cfg0 layout_end) st_ready.

Definition st_last : State :=
  exec (settle cfg0 true (mkFetch cfg0 AwaitDraw (Val 479)))
    (set_pending (fun _ => (take 15 (pending st_at_end) ++ drop 16 (pending st_at_end))%list)
       st_at_end).

(** The player of [cfg0] scrolled to frame 50, whose download then fails;
    a second [drawFrame(50)]; and the second download arrived. *)
Definition st_at_50 : State := exec (onScroll cfg0 layout_50) st_ready.




(** ** More vocabulary: what a player keeps true *)

(** A frame index the handler can leave in [currentFrame]: a frame of the
    sequence, or [NaN]. *)
Definition valid_frame (c : Config) (fi : jsint) : Prop :=
  fi = NaN \/ exists z : Z, fi = Val z /\ 0 <= z <= totalFrames c - 1.

(** A year the player can hold or show: the first year, a year of
    2000..2016, or [NaN]. *)
Definition valid_year (c : Config) (y : jsint) : Prop :=
  y = NaN \/ y = Val (startYear c) \/ exists z : Z, y = Val z /\ 2000 <= z <= 2016.

(** The frame cache and the canvas hold images of this sequence only:
    every download asks for the address of its frame, every slot holds the
    image of its own frame, and what was painted is in the cache. *)
Record cache_inv (c : Config) (st : State) : Prop := {
  inv_src : forall f, f ∈ pending st -> f_src f = getFrameSrc c (f_index f);
  inv_slot : forall i img, images st !! i = Some img ->
    img = {| img_src := getFrameSrc c i |} /\ out_of_range c i = false;
  inv_painted : forall img, Painted img ∈ canvas st ->
    exists i, images st !! i = Some img
}.

(** What the player remembers and shows stays in range. *)
Record shown_inv (c : Config) (st : State) : Prop := {
  inv_frame : valid_frame c (currentFrame st);
  inv_year : valid_year c (currentYear st);
  inv_text : forall y, yearText st = Some y -> valid_year c y
}.

(** The player has only gained downloads since the cache was [m], the
    in-flight set [l] and the downloads [p]. *)
Definition grown (m : gmap jsint Image) (l : gset jsint) (p : list Fetch)
    (st : State) : Prop :=
  images st = m /\ l ⊆ loadingFrames st /\ p `prefix_of` pending st.

(** Every frame of the window around [center] is cached or in flight. *)
Definition window_covered (c : Config) (center : Z) (st : State) : Prop :=
  forall z : Z,
    Z.max 0 (center - 15) <= z <= Z.min (totalFrames c - 1) (center + 15) ->
    is_Some (images st !! Val z) \/ Val z ∈ loadingFrames st.

(** What [drawFrame] paints when the frame itself is not to be had: the
    cached frame 0, or nothing. *)
Definition fallback (st : State) : list CanvasOp :=
  match images st !! Val 0 with
  | Some img0 => Painted img0 :: canvas st
  | None => canvas st
  end.

(** ** The rectangle of [setupCanvas]

    [setupCanvas] (lines 223-247) computes where [drawFrame] puts the image
    from the size of the first image and of the viewport.  Widths and
    heights of images and of the viewport are non-negative integers (below
    [2^32], held exactly); the quotients, products and differences are
    rounded, and an image or a viewport without extent is followed through
    its infinities and [NaN].  No zero that is divided by is negative
    here. *)

Definition dim (n : N) : Q := inject_Z (Z.of_N n).

(** [a / b] for a finite [a]. *)
Definition x_div (a : Q) (b : xnum) : xnum :=
  match b with
  | Fin q => js_div a q
  | PosInf | NegInf => Fin 0
  | XNaN => XNaN
  end.

(** [a * b] for a finite [a]: [0 * Infinity] is [NaN]. *)
Definition x_mul (a : Q) (b : xnum) : xnum :=
  match b with
  | Fin q => b64 (a * q)
  | PosInf =>
      match (a ?= 0)%Q with Eq => XNaN | Lt => NegInf | Gt => PosInf end
  | NegInf =>
      match (a ?= 0)%Q with Eq => XNaN | Lt => PosInf | Gt => NegInf end
  | XNaN => XNaN
  end.

(** [a - b] for a finite [a]. *)
Definition x_sub (a : Q) (b : xnum) : xnum :=
  match b with
  | Fin q => b64 (a - q)
  | PosInf => NegInf
  | NegInf => PosInf
  | XNaN => XNaN
  end.

(** [x / 2]. *)
Definition x_half (x : xnum) : xnum :=
  match x with
  | Fin q => b64 (q / 2)
  | other => other
  end.

(** A number used as a condition: [0] and [NaN] are false. *)
Definition truthy (x : xnum) : bool :=
  match x with
  | Fin q => negb (Qeq_bool q 0)
  | PosInf | NegInf => true
  | XNaN => false
  end.

(** The four fields [drawX], [drawY], [drawWidth], [drawHeight]. *)
Record Rect : Type := {
  drawX : xnum;
  drawY : xnum;
  drawWidth : xnum;
  drawHeight : xnum
}.

(** Their values in the constructor (lines 160-163). *)
Definition rect0 : Rect :=
  {| drawX := Fin 0; drawY := Fin 0; drawWidth := Fin 0; drawHeight := Fin 0 |}.

(** The fields after [setupCanvas()], for the width and height of
    [images[0]] if it is cached and the size of the viewport. *)
Definition setupCanvas_rect (firstImage : option (N * N))
    (viewportWidth viewportHeight : N) (old : Rect) : Rect :=
  match firstImage with
  | None => old
  | Some (width, height) =>
      let imageAspect := js_div (dim width) (dim height) in
      let viewportAspect := js_div (dim viewportWidth) (dim viewportHeight) in
      if x_gt viewportAspect imageAspect then
        let drawHeight := x_div (dim viewportWidth) imageAspect in
        {| drawX := Fin 0;
           drawY := x_half (x_sub (dim viewportHeight) drawHeight);
           drawWidth := Fin (dim viewportWidth);
           drawHeight := drawHeight |}
      else
        let drawWidth := x_mul (dim viewportHeight) imageAspect in
        {| drawX := x_half (x_sub (dim viewportWidth) drawWidth);
           drawY := Fin 0;
           drawWidth := drawWidth;
           drawHeight := Fin (dim viewportHeight) |}
  end.

(** The rectangle that [drawFrame] gives to [drawImage] (lines 352-356) on
    a canvas of the given size. *)
Definition drawImage_rect (r : Rect) (canvasWidth canvasHeight : N) : Rect :=
  if truthy (drawWidth r) && truthy (drawHeight r) then r
  else {| drawX := Fin 0; drawY := Fin 0;
          drawWidth := Fin (dim canvasWidth); drawHeight := Fin (dim canvasHeight) |}.

(** ** The list of countries beside the year *)

(** [TOP_EMITTERS_BY_YEAR] (lines 6-126): name and value, in order. *)
Definition TOP_EMITTERS_BY_YEAR : list (Z * list (string * string)) :=
  [
    (2000, [("Afghanistan", "3.6M"); ("Burundi", "568K"); ("Iraq", "526K"); ("Bosnia", "505K"); ("Sudan", "494K")]);
    (2001, [("Afghanistan", "3.8M"); ("Burundi", "554K"); ("Iraq", "530K"); ("Sudan", "489K"); ("Angola", "470K")]);
    (2002, [("Afghanistan", "2.5M"); ("Burundi", "574K"); ("Sudan", "508K"); ("Angola", "435K"); ("Somalia", "432K")]);
    (2003, [("Afghanistan", "2.1M"); ("Sudan", "606K"); ("Burundi", "531K"); ("DR Congo", "453K"); ("Somalia", "402K")]);
    (2004, [("Afghanistan", "2.4M"); ("Sudan", "730K"); ("Burundi", "485K"); ("DR Congo", "462K"); ("Somalia", "389K")]);
    (2005, [("Afghanistan", "2.2M"); ("Sudan", "693K"); ("Burundi", "438K"); ("DR Congo", "430K"); ("Somalia", "395K")]);
    (2006, [("Afghanistan", "2.1M"); ("Iraq", "1.5M"); ("Sudan", "686K"); ("Somalia", "464K"); ("DR Congo", "401K")]);
    (2007, [("Afghanistan", "3.1M"); ("Iraq", "2.3M"); ("Colombia", "552K"); ("Sudan", "522K"); ("Somalia", "457K")]);
    (2008, [("Afghanistan", "2.8M"); ("Iraq", "1.9M"); ("Somalia", "561K"); ("Sudan", "419K"); ("Colombia", "373K")]);
    (2009, [("Afghanistan", "2.9M"); ("Iraq", "1.8M"); ("Somalia", "678K"); ("DR Congo", "455K"); ("Myanmar", "406K")]);
    (2010, [("Afghanistan", "3.1M"); ("Iraq", "1.7M"); ("Somalia", "769K"); ("DR Congo", "476K"); ("Myanmar", "415K")]);
    (2011, [("Afghanistan", "2.7M"); ("Iraq", "1.4M"); ("Somalia", "1.1M"); ("Sudan", "500K"); ("DR Congo", "491K")]);
    (2012, [("Afghanistan", "2.6M"); ("Somalia", "1.1M"); ("Iraq", "746K"); ("Syria", "729K"); ("Sudan", "568K")]);
    (2013, [("Afghanistan", "2.6M"); ("Syria", "2.5M"); ("Somalia", "1.1M"); ("Sudan", "648K"); ("DR Congo", "499K")]);
    (2014, [("Syria", "3.9M"); ("Afghanistan", "2.6M"); ("Somalia", "1.1M"); ("Sudan", "665K"); ("South Sudan", "616K")]);
    (2015, [("Syria", "4.9M"); ("Afghanistan", "2.7M"); ("Somalia", "1.1M"); ("South Sudan", "778K"); ("Sudan", "627K")]);
    (2016, [("Syria", "5.5M"); ("Afghanistan", "2.5M"); ("South Sudan", "1.4M"); ("Somalia", "1.0M"); ("Sudan", "650K")])
  ].

(** [TOP_EMITTERS_BY_YEAR[year] || []]: the entries that
    [updateYearIndicator(year)] renders, one list item each.  The key of a
    number is its decimal rendering, so only the years of the table (and
    not [NaN]) find an entry. *)
Definition countriesOf (year : jsint) : list (string * string) :=
  match year with
  | Val y =>
      match list_find (fun e => fst e = y) TOP_EMITTERS_BY_YEAR with
      | Some (_, (_, countries)) => countries
      | None => []
      end
  | NaN => []
  end.

(** The items of the list of countries, once [updateYearIndicator] has
    written it: it writes the year and the list together, from the same
    argument. *)
Definition countriesShown (st : State) : option (list (string * string)) :=
  countriesOf <$> yearText st.

(** ** The listeners of [bindScroll]

    [bindScroll] (lines 249-266) does not call [onScroll] from the [scroll]
    listener: the listener asks for an animation frame, once, and the
    callback of that frame calls [onScroll] and lets the next event ask
    again.  The page remembers the flag [ticking] of that closure and the
    callbacks waiting for the next frame. *)
Record Page : Type := {
  player : State;
  ticking : bool;
  frameCallbacks : nat
}.

(** The [scroll] listener. *)
Definition scrollEvent (p : Page) : Page :=
  if ticking p then p
  else {| player := player p; ticking := true;
          frameCallbacks := S (frameCallbacks p) |}.

(** The callback given to [requestAnimationFrame], run when the layout is
    [g]. *)
Definition frameCallback (c : Config) (g : Layout) (p : Page) : Page :=
  {| player := exec (onScroll c g) (player p); ticking := false;
     frameCallbacks := frameCallbacks p |}.

(** An animation frame: the browser takes the waiting callbacks and runs
    each of them. *)
Definition animationFrame (c : Config) (g : Layout) (p : Page) : Page :=
  Nat.iter (frameCallbacks p) (frameCallback c g)
    {| player := player p; ticking := ticking p; frameCallbacks := 0 |}.

(** The [resize] listener runs in the event itself. *)
Definition resizeEvent (c : Config) (p : Page) : Page :=
  {| player := exec (onResize c) (player p); ticking := ticking p;
     frameCallbacks := frameCallbacks p |}.

(** A download settles; the page has no part in it. *)
Definition settleEvent (c : Config) (ok : bool) (f : Fetch) (l1 l2 : list Fetch)
    (p : Page) : Page :=
  {| player := exec (settle c ok f) (set_pending (fun _ => (l1 ++ l2)%list) (player p));
     ticking := ticking p; frameCallbacks := frameCallbacks p |}.

(** One task of the page.  The listeners exist once [init] has called
    [bindScroll], in the task that sets [initialized]. *)
Inductive page_step (c : Config) : Page -> Page -> Prop :=
  | page_scroll (p : Page) :
      initialized (player p) = true ->
      page_step c p (scrollEvent p)
  | page_frame (g : Layout) (p : Page) :
      page_step c p (animationFrame c g p)
  | page_resize (p : Page) :
      initialized (player p) = true ->
      page_step c p (resizeEvent c p)
  | page_settle (ok : bool) (f : Fetch) (l1 l2 : list Fetch) (p : Page) :
      pending (player p) = (l1 ++ f :: l2)%list ->
      page_step c p (settleEvent c ok f l1 l2 p).

(** The pages that a player goes through. *)
Inductive page_reachable (c : Config) : Page -> Prop :=
  | page_construct (st : State) :
      construct c = Some st ->
      page_reachable c {| player := st; ticking := false; frameCallbacks := 0 |}
  | page_next (p p' : Page) :
      page_reachable c p -> page_step c p p' -> page_reachable c p'.

(** A page on which nothing waits for the next frame. *)
Definition quiet (st : State) : Page :=
  {| player := st; ticking := false; frameCallbacks := 0 |}.

(** ** Reading the descriptor

    What the constructor (lines 139-148) finds in the [data-*] attributes of
    the section: the strings as they are ([None] for a missing attribute),
    the numbers as [parseInt] gives them, an integer or [NaN]. *)
Record Dataset : Type := {
  data_sequence : option string;
  data_start : jsint;
  data_end : jsint;
  data_pattern : option string;
  data_padding : jsint;
  data_framesPerYear : jsint;
  data_startYear : jsint
}.

(** [n || d] on numbers: [0] and [NaN] are false. *)
Definition num_or (n : jsint) (d : Z) : Z :=
  match n with
  | Val 0 | NaN => d
  | Val z => z
  end.

(** [s || d] on strings: [undefined] and the empty string are false. *)
Definition string_or (s : option string) (d : string) : string :=
  match s with
  | None | Some EmptyString => d
  | Some s => s
  end.

(** The descriptor that the constructor keeps.  [sequenceName] is only
    used in the template of [getFrameSrc], where [undefined] reads
    [undefined]. *)
Definition readDataset (d : Dataset) (ctx overlay yearEls : bool) : Config :=
  {| sequenceName := default "undefined" (data_sequence d);
     startFrame := num_or (data_start d) 1;
     endFrame := num_or (data_end d) 100;
     pattern := string_or (data_pattern d) "render{frame}.png";
     padding := num_or (data_padding d) 3;
     framesPerYear := num_or (data_framesPerYear d) 0;
     startYear := num_or (data_startYear d) 2000;
     ctx := ctx; overlay := overlay; yearEls := yearEls |}.

(** A section without any [data-*] attribute. *)
Definition no_data : Dataset :=
  {| data_sequence := None; data_start := NaN; data_end := NaN;
     data_pattern := None; data_padding := NaN;
     data_framesPerYear := NaN; data_startYear := NaN |}.

(** The player of [st_at_50] scrolled on to the middle of the section while
    frame 50 is still being downloaded. *)
Definition st_moved_on : State := exec (onScroll cfg0 layout_mid) st_at_50.

(** ** Vocabulary of the numbers and the strings *)

(** The order of the numbers other than [NaN]. *)
Definition xle (a b : xnum) : Prop :=
  match a, b with
  | Fin p, Fin q => (p <= q)%Q
  | NegInf, (Fin _ | PosInf | NegInf) => True
  | (Fin _ | PosInf), PosInf => True
  | _, _ => False
  end.

(** The progress and the frame index of the specification, in exact
    arithmetic: [clamp(scrollStart / scrollRange, 0, 1)] and
    [floor(progress * (totalFrames - 1))]. *)
Definition exactProgress (s r : Q) : Q := clamp (s / r) 0 1.

Definition exactFrame (c : Config) (s r : Q) : Z :=
  Qfloor (exactProgress s r * inject_Z (totalFrames c - 1)).

(** The place of the first occurrence of [pat] in [s]. *)
Fixpoint first_index (pat s : string) : option nat :=
  if String.prefix pat s then Some 0%nat
  else match s with
       | EmptyString => None
       | String _ s' => option_map S (first_index pat s')
       end.

(** [s] with its first occurrence of [pat], if there is one, replaced by
    [rep]. *)
Definition substituted (pat rep s : string) : string :=
  match first_index pat s with
  | Some k => string_take k s ++ rep ++ string_drop (k + String.length pat) s
  | None => s
  end.

(** ** More sample descriptors and layouts *)

(** An empty sequence (its last frame number one below the first), and a
    sequence of three frames numbered from [2^53]. *)
Definition cfg_empty : Config :=
  {| sequenceName := "assets/seq1"; startFrame := 2; endFrame := 1;
     pattern := "render{frame}.png"; padding := 3;
     framesPerYear := 0; startYear := 2000;
     ctx := true; overlay := true; yearEls := true |}.

Definition cfg_2_53 : Config :=
  {| sequenceName := "assets/seq1";
     startFrame := 9007199254740992; endFrame := 9007199254740994;
     pattern := "render{frame}.png"; padding := 3;
     framesPerYear := 0; startYear := 2000;
     ctx := true; overlay := true; yearEls := true |}.

(** A section of 5590 pixels in a viewport of 800, hence a scroll range of
    4790, scrolled by 1210; and one of 5800 pixels (range 5000) scrolled by
    the binary64 number next above 250. *)
Definition layout_1210 : Layout :=
  {| rect_top := -1210 # 1; rect_bottom := 4380 # 1;
     offsetHeight := 5590; innerHeight := 800 |}.

Definition layout_250 : Layout :=
  {| rect_top := -8796093022208001 # 35184372088832;
     rect_bottom := (5800 # 1) - (8796093022208001 # 35184372088832);
     offsetHeight := 5800; innerHeight := 800 |}.

(** The empty player, which its constructor initialises. *)
Definition st_empty : State := exec (init cfg_empty) (blank cfg_empty).

(** The section of [layout_50] with its top at the top of the viewport. *)
Definition layout_top : Layout :=
  {| rect_top := 0; rect_bottom := 4800 # 1; offsetHeight := 4800; innerHeight := 800 |}.

(** A section exactly as high as the viewport, at its top: position and
    range are both zero.  The player of [cfg0] after a scroll event there,
    and after the download it started has arrived. *)
Definition layout_zero : Layout :=
  {| rect_top := 0; rect_bottom := 800 # 1; offsetHeight := 800; innerHeight := 800 |}.

Definition st_nan : State := exec (onScroll cfg0 layout_zero) st_ready.

Definition st_nan_loaded : State :=
  exec (settle cfg0 true (mkFetch cfg0 AwaitDraw NaN))
    (set_pending (fun _ => take 15 (pending st_nan)) st_nan).

(** * Properties *)

(** ** Binary64 rounding *)

Lemma pow2_pos (e : Z) : (0 < pow2 e)%Q.
Proof. apply Qpower_0_lt. reflexivity. Qed.

Lemma pow2_add (a b : Z) : (pow2 (a + b) == pow2 a * pow2 b)%Q.
Proof. apply Qpower_plus. discriminate. Qed.

Lemma pow2_le (a b : Z) : a <= b -> (pow2 a <= pow2 b)%Q.
Proof. intros H. apply Qpower_le_compat_l; [exact H | discriminate]. Qed.

Lemma pow2_lt (a b : Z) : a < b -> (pow2 a < pow2 b)%Q.
Proof. intros H. apply Qpower_lt_compat_l; [exact H | reflexivity]. Qed.

Lemma pow2_lt_inv (a b : Z) : (pow2 a < pow2 b)%Q -> a < b.
Proof. intros H. apply (Qpower_lt_compat_l_inv 2); [exact H | reflexivity]. Qed.

Lemma pow2_Z (e : Z) : 0 <= e -> (pow2 e == inject_Z (2 ^ e))%Q.
Proof. intros H. unfold pow2. now rewrite Zpower_Qpower. Qed.

Lemma Zlog2_Q (n : Z) :
  0 < n -> (pow2 (Z.log2 n) <= inject_Z n < pow2 (Z.log2 n + 1))%Q.
Proof.
  intros Hn. destruct (Z.log2_spec n Hn) as [Hlo Hhi].
  pose proof (Z.log2_nonneg n) as Hnn.
  rewrite !pow2_Z by lia. rewrite <- Zle_Qle, <- Zlt_Qlt.
  split; [exact Hlo | exact Hhi].
Qed.

Lemma Qlog2_spec (q : Q) :
  (0 < q)%Q -> (pow2 (Qlog2 q) <= q < pow2 (Qlog2 q + 1))%Q.
Proof.
  intros Hq. destruct q as [n d].
  assert (0 < n) as Hn by (unfold Qlt in Hq; cbn in Hq; lia).
  unfold Qlog2. cbn [Qnum Qden].
  set (a := Z.log2 n). set (b := Z.log2 (Z.pos d)).
  destruct (Zlog2_Q n Hn) as [Ha1 Ha2]. fold a in Ha1, Ha2.
  destruct (Zlog2_Q (Z.pos d) eq_refl) as [Hb1 Hb2]. fold b in Hb1, Hb2.
  assert (n # d == inject_Z n / inject_Z (Z.pos d))%Q as Hdiv by apply Qmake_Qdiv.
  assert (0 < inject_Z (Z.pos d))%Q as HD by reflexivity.
  set (N := inject_Z n) in *. set (D := inject_Z (Z.pos d)) in *.
  assert (n # d == N / D)%Q as E by exact Hdiv.
  assert (N == (n # d) * D)%Q as EN by (rewrite E; field; lra).
  pose proof (pow2_pos (a - b)) as P0. pose proof (pow2_pos b) as Pb.
  assert (pow2 a == pow2 (a - b) * pow2 b)%Q as Ea
    by (rewrite <- pow2_add; now replace (a - b + b) with a by lia).
  assert (pow2 (a + 1) == pow2 (a - b + 1) * pow2 b)%Q as Ea1
    by (rewrite <- pow2_add; now replace (a - b + 1 + b) with (a + 1) by lia).
  assert (pow2 a == pow2 (a - b - 1) * pow2 (b + 1))%Q as Ea2
    by (rewrite <- pow2_add; now replace (a - b - 1 + (b + 1)) with a by lia).
  pose proof (pow2_pos (a - b + 1)) as P1. pose proof (pow2_pos (a - b - 1)) as P2.
  destruct (Qle_bool (pow2 (a - b)) (n # d)) eqn:Hc.
  - apply Qle_bool_iff in Hc. split; [exact Hc|].
    set (q := (n # d)) in *. nra.
  - assert (n # d < pow2 (a - b))%Q as Hlt.
    { apply Qnot_le_lt. intros H. apply Qle_bool_iff in H. congruence. }
    replace (a - b - 1 + 1) with (a - b) by lia. split; [|exact Hlt].
    set (q := (n # d)) in *. nra.
Qed.

Lemma Qlog2_unique (q : Q) (k : Z) :
  (pow2 k <= q < pow2 (k + 1))%Q -> Qlog2 q = k.
Proof.
  intros [H1 H2].
  assert (0 < q)%Q as Hq by (pose proof (pow2_pos k); lra).
  destruct (Qlog2_spec q Hq) as [L1 L2].
  assert (Qlog2 q < k + 1) by (apply pow2_lt_inv; lra).
  assert (k < Qlog2 q + 1) by (apply pow2_lt_inv; lra).
  lia.
Qed.

Lemma Qlog2_comp (x y : Q) : (0 < x)%Q -> (x == y)%Q -> Qlog2 x = Qlog2 y.
Proof.
  intros Hx E. symmetry. apply Qlog2_unique. rewrite <- E. now apply Qlog2_spec.
Qed.

Lemma Qlog2_mono (x y : Q) : (0 < x)%Q -> (x <= y)%Q -> Qlog2 x <= Qlog2 y.
Proof.
  intros Hx Hxy.
  destruct (Qlog2_spec x Hx) as [X1 X2].
  destruct (Qlog2_spec y) as [Y1 Y2]; [lra|].
  assert (Qlog2 x < Qlog2 y + 1) by (apply pow2_lt_inv; lra). lia.
Qed.

Lemma Qfloor_bounds (x : Q) : (inject_Z (Qfloor x) <= x < inject_Z (Qfloor x) + 1)%Q.
Proof.
  split; [apply Qfloor_le|]. pose proof (Qlt_floor x) as H.
  rewrite inject_Z_plus in H. exact H.
Qed.

Lemma round_even_comp (x y : Q) : (x == y)%Q -> round_even x = round_even y.
Proof.
  intros E. unfold round_even. rewrite (Qfloor_comp x y E).
  assert ((x - inject_Z (Qfloor y) ?= 1 # 2)%Q = (y - inject_Z (Qfloor y) ?= 1 # 2)%Q) as ->
    by now rewrite E.
  reflexivity.
Qed.

Lemma round_even_err (x : Q) :
  (x - (1 # 2) <= inject_Z (round_even x) <= x + (1 # 2))%Q.
Proof.
  unfold round_even. destruct (Qfloor_bounds x) as [H1 H2].
  destruct (Qcompare_spec (x - inject_Z (Qfloor x)) (1 # 2)) as [E|E|E].
  - destruct (Z.even (Qfloor x)); rewrite ?inject_Z_plus; change (inject_Z 1) with 1%Q; lra.
  - lra.
  - rewrite inject_Z_plus. change (inject_Z 1) with 1%Q. lra.
Qed.

Lemma round_even_floor (x : Q) : Qfloor x <= round_even x <= Qfloor x + 1.
Proof.
  unfold round_even.
  destruct (x - inject_Z (Qfloor x) ?= 1 # 2)%Q; [destruct (Z.even (Qfloor x))| |]; lia.
Qed.

Lemma round_even_int (z : Z) : round_even (inject_Z z) = z.
Proof.
  unfold round_even. rewrite Qfloor_Z.
  assert ((inject_Z z - inject_Z z ?= 1 # 2)%Q = Lt) as ->; [|reflexivity].
  apply (proj1 (Qlt_alt _ _)). lra.
Qed.

Lemma round_even_mono (x y : Q) : (x <= y)%Q -> round_even x <= round_even y.
Proof.
  intros Hxy. pose proof (Qfloor_resp_le x y Hxy) as Hf.
  destruct (Z.eq_dec (Qfloor x) (Qfloor y)) as [E|NE].
  - unfold round_even. rewrite E.
    destruct (Qcompare_spec (x - inject_Z (Qfloor y)) (1 # 2)) as [Ex|Ex|Ex];
      destruct (Qcompare_spec (y - inject_Z (Qfloor y)) (1 # 2)) as [Ey|Ey|Ey];
      try destruct (Z.even (Qfloor y)); try lia; exfalso; lra.
  - pose proof (round_even_floor x). pose proof (round_even_floor y). lia.
Qed.

Lemma round_even_le (x : Q) (z : Z) : (x <= inject_Z z)%Q -> round_even x <= z.
Proof. intros H. rewrite <- (round_even_int z). now apply round_even_mono. Qed.

Lemma round_even_ge (x : Q) (z : Z) : (inject_Z z <= x)%Q -> z <= round_even x.
Proof. intros H. rewrite <- (round_even_int z). now apply round_even_mono. Qed.

Lemma ulp_exp_comp (x y : Q) : (0 < x)%Q -> (x == y)%Q -> ulp_exp x = ulp_exp y.
Proof. intros Hx E. unfold ulp_exp. now rewrite (Qlog2_comp x y Hx E). Qed.

Lemma ulp_exp_mono (x y : Q) : (0 < x)%Q -> (x <= y)%Q -> ulp_exp x <= ulp_exp y.
Proof. intros Hx H. unfold ulp_exp. pose proof (Qlog2_mono x y Hx H). lia. Qed.

(** The scaled number lies below [2^53], and from [2^52] on unless the
    exponent is the least one. *)
Lemma scaled_upper (q : Q) :
  (0 < q)%Q -> (q / pow2 (ulp_exp q) < pow2 53)%Q.
Proof.
  intros Hq. destruct (Qlog2_spec q Hq) as [_ H2].
  pose proof (pow2_pos (ulp_exp q)) as Pe.
  apply Qlt_shift_div_r; [exact Pe|]. rewrite <- pow2_add.
  eapply Qlt_le_trans; [exact H2|]. apply pow2_le. unfold ulp_exp. lia.
Qed.

Lemma scaled_lower (q : Q) :
  (0 < q)%Q -> -1074 < ulp_exp q -> (pow2 52 <= q / pow2 (ulp_exp q))%Q.
Proof.
  intros Hq He. destruct (Qlog2_spec q Hq) as [H1 _].
  pose proof (pow2_pos (ulp_exp q)) as Pe.
  apply Qle_shift_div_l; [exact Pe|]. rewrite <- pow2_add.
  eapply Qle_trans; [|exact H1]. apply pow2_le. unfold ulp_exp in *. lia.
Qed.

Lemma round_pos_comp (x y : Q) : (0 < x)%Q -> (x == y)%Q -> (round_pos x == round_pos y)%Q.
Proof.
  intros Hx E. unfold round_pos. rewrite (ulp_exp_comp x y Hx E).
  rewrite (round_even_comp (x / pow2 (ulp_exp y)) (y / pow2 (ulp_exp y))); [reflexivity|].
  now rewrite E.
Qed.

Lemma round_pos_upper (q : Q) :
  (0 < q)%Q -> (round_pos q <= pow2 (ulp_exp q + 53))%Q.
Proof.
  intros Hq. unfold round_pos. rewrite pow2_add.
  pose proof (pow2_pos (ulp_exp q)) as Pe.
  assert (round_even (q / pow2 (ulp_exp q)) <= 2 ^ 53) as Hm.
  { apply round_even_le. rewrite <- pow2_Z by lia.
    apply Qlt_le_weak. now apply scaled_upper. }
  rewrite Zle_Qle, <- pow2_Z in Hm by lia.
  rewrite (Qmult_comm (pow2 (ulp_exp q))).
  apply Qmult_le_compat_r; [exact Hm | now apply Qlt_le_weak].
Qed.

Lemma round_pos_lower (q : Q) :
  (0 < q)%Q -> -1074 < ulp_exp q -> (pow2 (ulp_exp q + 52) <= round_pos q)%Q.
Proof.
  intros Hq He. unfold round_pos. rewrite pow2_add.
  pose proof (pow2_pos (ulp_exp q)) as Pe.
  assert (2 ^ 52 <= round_even (q / pow2 (ulp_exp q))) as Hm.
  { apply round_even_ge. rewrite <- pow2_Z by lia. now apply scaled_lower. }
  rewrite Zle_Qle, <- pow2_Z in Hm by lia.
  rewrite (Qmult_comm (pow2 (ulp_exp q))).
  apply Qmult_le_compat_r; [exact Hm | now apply Qlt_le_weak].
Qed.

Lemma round_pos_nonneg (q : Q) : (0 < q)%Q -> (0 <= round_pos q)%Q.
Proof.
  intros Hq. unfold round_pos. pose proof (pow2_pos (ulp_exp q)) as Pe.
  apply Qmult_le_0_compat; [|now apply Qlt_le_weak].
  change 0%Q with (inject_Z 0). rewrite <- Zle_Qle. apply round_even_ge.
  apply Qlt_le_weak. change (inject_Z 0) with 0%Q.
  apply Qlt_shift_div_l; [exact Pe | lra].
Qed.

Lemma round_pos_mono (x y : Q) :
  (0 < x)%Q -> (x <= y)%Q -> (round_pos x <= round_pos y)%Q.
Proof.
  intros Hx Hxy. assert (0 < y)%Q as Hy by lra.
  pose proof (ulp_exp_mono x y Hx Hxy) as He.
  destruct (Z.eq_dec (ulp_exp x) (ulp_exp y)) as [E|NE].
  - unfold round_pos. rewrite E. pose proof (pow2_pos (ulp_exp y)) as Pe.
    apply Qmult_le_compat_r; [|now apply Qlt_le_weak].
    rewrite <- Zle_Qle. apply round_even_mono.
    apply Qmult_le_compat_r; [exact Hxy|]. apply Qlt_le_weak, Qinv_lt_0_compat, Pe.
  - assert (-1074 < ulp_exp y) as Hy' by (unfold ulp_exp in *; lia).
    eapply Qle_trans; [apply (round_pos_upper x Hx)|].
    eapply Qle_trans; [|apply (round_pos_lower y Hy Hy')].
    apply pow2_le. lia.
Qed.

(** The error of the rounding is half a unit in the last place. *)
Lemma round_pos_err (q : Q) :
  (0 < q)%Q ->
  (q - pow2 (ulp_exp q - 1) <= round_pos q <= q + pow2 (ulp_exp q - 1))%Q.
Proof.
  intros Hq. unfold round_pos. pose proof (pow2_pos (ulp_exp q)) as Pe.
  set (e := ulp_exp q) in *. set (t := (q / pow2 e)%Q).
  destruct (round_even_err t) as [H1 H2].
  assert (q == t * pow2 e)%Q as Eq by (unfold t; field; lra).
  assert (pow2 e == 2 * pow2 (e - 1))%Q as Ee.
  { replace e with (1 + (e - 1)) at 1 by lia. now rewrite pow2_add. }
  pose proof (pow2_pos (e - 1)) as Pe1.
  set (m := inject_Z (round_even t)) in *. split; nra.
Qed.

(** A multiple of its own last place is not changed. *)
Lemma round_pos_exact (q : Q) (m : Z) :
  (0 < q)%Q -> (q == inject_Z m * pow2 (ulp_exp q))%Q -> (round_pos q == q)%Q.
Proof.
  intros Hq E. unfold round_pos. pose proof (pow2_pos (ulp_exp q)) as Pe.
  rewrite (round_even_comp _ (inject_Z m)).
  - rewrite round_even_int. now symmetry.
  - rewrite E at 1. field. lra.
Qed.

Lemma b64_comp (x y : Q) : (x == y)%Q -> b64 x = b64 y.
Proof.
  intros E. unfold b64. rewrite <- (Qcompare_comp x y E 0%Q 0%Q (Qeq_refl 0%Q)).
  destruct (Qcompare_spec x 0%Q) as [H|H|H]; [reflexivity| |].
  - assert (round_pos (- x) == round_pos (- y))%Q as Er
      by (apply round_pos_comp; [lra | now rewrite E]).
    cbv zeta. rewrite <- (Qleb_comp _ _ (Qeq_refl (pow2 1024)) _ _ Er).
    destruct (Qle_bool _ _); [reflexivity|]. f_equal. apply Qred_complete. now rewrite Er.
  - assert (round_pos x == round_pos y)%Q as Er by (apply round_pos_comp; [lra | exact E]).
    cbv zeta. rewrite <- (Qleb_comp _ _ (Qeq_refl (pow2 1024)) _ _ Er).
    destruct (Qle_bool _ _); [reflexivity|]. f_equal. now apply Qred_complete.
Qed.

Lemma b64_0 : b64 0 = Fin 0.
Proof. reflexivity. Qed.

Lemma b64_pos_cases (x : Q) :
  (0 < x)%Q ->
  (b64 x = PosInf /\ (pow2 1024 <= round_pos x)%Q)
  \/ (b64 x = Fin (Qred (round_pos x)) /\ (round_pos x < pow2 1024)%Q).
Proof.
  intros Hx. unfold b64.
  destruct (Qcompare_spec x 0%Q) as [H|H|H]; [lra | lra |]. cbv zeta.
  destruct (Qle_bool (pow2 1024) (round_pos x)) eqn:Ho.
  - left. split; [reflexivity | now apply Qle_bool_iff].
  - right. split; [reflexivity|].
    apply Qnot_le_lt. intros C. apply Qle_bool_iff in C. congruence.
Qed.

Lemma b64_neg_cases (x : Q) :
  (x < 0)%Q ->
  (b64 x = NegInf /\ (pow2 1024 <= round_pos (- x))%Q)
  \/ (b64 x = Fin (Qred (- round_pos (- x))) /\ (round_pos (- x) < pow2 1024)%Q).
Proof.
  intros Hx. unfold b64.
  destruct (Qcompare_spec x 0%Q) as [H|H|H]; [lra | | lra]. cbv zeta.
  destruct (Qle_bool (pow2 1024) (round_pos (- x))) eqn:Ho.
  - left. split; [reflexivity | now apply Qle_bool_iff].
  - right. split; [reflexivity|].
    apply Qnot_le_lt. intros C. apply Qle_bool_iff in C. congruence.
Qed.

(** Rounding keeps the order. *)
Lemma b64_mono (x y : Q) : (x <= y)%Q -> xle (b64 x) (b64 y).
Proof.
  intros Hxy.
  destruct (Qlt_le_dec 0 x) as [Hx|Hx].
  - (* both positive *)
    assert (0 < y)%Q as Hy by lra.
    pose proof (round_pos_mono x y Hx Hxy) as Hr.
    destruct (b64_pos_cases x Hx) as [[-> Ox]|[-> Fx]];
      destruct (b64_pos_cases y Hy) as [[-> Oy]|[-> Fy]]; cbn [xle]; try exact I.
    + lra.
    + rewrite !Qred_correct. exact Hr.
  - destruct (Qeq_dec x 0) as [Ex|Nx].
    + (* x = 0 *)
      rewrite (b64_comp x 0 Ex), b64_0.
      destruct (Qeq_dec y 0) as [Ey|Ny].
      * rewrite (b64_comp y 0 Ey), b64_0. cbn [xle]. lra.
      * assert (0 < y)%Q as Hy by lra.
        destruct (b64_pos_cases y Hy) as [[-> Oy]|[-> Fy]]; cbn [xle]; [exact I|].
        rewrite Qred_correct. now apply round_pos_nonneg.
    + (* x negative *)
      assert (x < 0)%Q as Hx' by lra.
      destruct (b64_neg_cases x Hx') as [[-> Ox]|[-> Fx]].
      * destruct (Qlt_le_dec y 0) as [Hy|Hy].
        -- destruct (b64_neg_cases y Hy) as [[-> Oy]|[-> Fy]]; exact I.
        -- destruct (Qeq_dec y 0) as [Ey|Ny].
           ++ rewrite (b64_comp y 0 Ey), b64_0. exact I.
           ++ assert (0 < y)%Q as Hy' by lra.
              destruct (b64_pos_cases y Hy') as [[-> Oy]|[-> Fy]]; exact I.
      * assert (0 <= round_pos (- x))%Q as Px by (apply round_pos_nonneg; lra).
        destruct (Qlt_le_dec y 0) as [Hy|Hy].
        -- assert (round_pos (- y) <= round_pos (- x))%Q as Hr
             by (apply round_pos_mono; lra).
           destruct (b64_neg_cases y Hy) as [[-> Oy]|[-> Fy]]; cbn [xle].
           ++ lra.
           ++ rewrite !Qred_correct. lra.
        -- destruct (Qeq_dec y 0) as [Ey|Ny].
           ++ rewrite (b64_comp y 0 Ey), b64_0. cbn [xle]. rewrite Qred_correct. lra.
           ++ assert (0 < y)%Q as Hy' by lra.
              destruct (b64_pos_cases y Hy') as [[-> Oy]|[-> Fy]]; cbn [xle];
                [exact I|].
              rewrite !Qred_correct. pose proof (round_pos_nonneg y Hy'). lra.
Qed.

(** Integers up to [2^53] are binary64 numbers. *)
Lemma round_pos_int (z : Z) :
  0 < z <= 2 ^ 53 -> (round_pos (inject_Z z) == inject_Z z)%Q.
Proof.
  intros [Hz Hb].
  assert (0 < inject_Z z)%Q as Hq by (change 0%Q with (inject_Z 0); now rewrite <- Zlt_Qlt).
  destruct (Qlog2_spec _ Hq) as [L1 L2]. set (L := Qlog2 (inject_Z z)) in *.
  assert (0 <= L).
  { assert (0 < L + 1); [|lia]. apply pow2_lt_inv. eapply Qle_lt_trans; [|exact L2].
    change (pow2 0) with (inject_Z 1). rewrite <- Zle_Qle. lia. }
  assert (L <= 53).
  { assert (L < 54); [|lia]. apply pow2_lt_inv. eapply Qle_lt_trans; [exact L1|].
    rewrite (pow2_Z 54) by lia. rewrite <- Zlt_Qlt. lia. }
  assert (ulp_exp (inject_Z z) = L - 52) as He by (unfold ulp_exp; fold L; lia).
  destruct (Z.eq_dec L 53) as [E53|N53].
  - (* z = 2^53 *)
    assert (z = 2 ^ 53) as ->.
    { rewrite E53, (pow2_Z 53), <- Zle_Qle in L1 by lia. lia. }
    apply (round_pos_exact _ (2 ^ 52)); [exact Hq|].
    rewrite He, E53. reflexivity.
  - apply (round_pos_exact _ (z * 2 ^ (52 - L))); [exact Hq|].
    rewrite He, inject_Z_mult, <- (pow2_Z (52 - L)) by lia.
    rewrite <- Qmult_assoc, <- pow2_add.
    replace (52 - L + (L - 52)) with 0 by lia. change (pow2 0) with 1%Q. ring.
Qed.

Lemma Qred_inject_Z (z : Z) : Qred (inject_Z z) = inject_Z z.
Proof. apply Qcanon.Qred_identity. cbn. apply Z.gcd_1_r. Qed.

Lemma b64_int (z : Z) : Z.abs z <= 2 ^ 53 -> b64 (inject_Z z) = Fin (inject_Z z).
Proof.
  intros Hz.
  assert (pow2 53 < pow2 1024)%Q as Hbig by (apply pow2_lt; lia).
  assert (forall y : Z, 0 < y <= 2 ^ 53 -> (inject_Z y <= pow2 53)%Q) as Hfin.
  { intros y Hy. rewrite (pow2_Z 53) by lia. rewrite <- Zle_Qle. lia. }
  destruct (Z.lt_trichotomy z 0) as [Hn|[->|Hp]].
  - assert (inject_Z z < 0)%Q as Hq
      by (change 0%Q with (inject_Z 0); rewrite <- Zlt_Qlt; lia).
    assert (- inject_Z z == inject_Z (- z))%Q as En by (rewrite inject_Z_opp; reflexivity).
    assert (0 < - inject_Z z)%Q as Hpos by lra.
    pose proof (round_pos_comp _ _ Hpos En) as Er.
    pose proof (round_pos_int (- z) ltac:(lia)) as Ei.
    pose proof (Hfin (- z) ltac:(lia)) as F.
    destruct (b64_neg_cases _ Hq) as [[_ O]|[-> _]].
    + exfalso. lra.
    + f_equal. transitivity (Qred (inject_Z z)); [apply Qred_complete; lra | apply Qred_inject_Z].
  - reflexivity.
  - assert (0 < inject_Z z)%Q as Hq
      by (change 0%Q with (inject_Z 0); rewrite <- Zlt_Qlt; lia).
    pose proof (round_pos_int z ltac:(lia)) as Ei.
    pose proof (Hfin z ltac:(lia)) as F.
    destruct (b64_pos_cases _ Hq) as [[_ O]|[-> _]].
    + exfalso. lra.
    + f_equal. transitivity (Qred (inject_Z z)); [now apply Qred_complete | apply Qred_inject_Z].
Qed.

Lemma xle_Fin_bounds (a b : Q) (x : xnum) :
  xle (Fin a) x -> xle x (Fin b) -> exists p, x = Fin p /\ (a <= p <= b)%Q.
Proof. destruct x as [p| | |]; cbn; try tauto. intros. now exists p. Qed.

(** Between two integers that are binary64 numbers, the rounded number is
    finite and between them. *)
Lemma b64_between (x : Q) (a b : Z) :
  Z.abs a <= 2 ^ 53 -> Z.abs b <= 2 ^ 53 ->
  (inject_Z a <= x <= inject_Z b)%Q ->
  exists p, b64 x = Fin p /\ (inject_Z a <= p <= inject_Z b)%Q.
Proof.
  intros Ha Hb [H1 H2]. apply xle_Fin_bounds.
  - rewrite <- (b64_int a Ha). now apply b64_mono.
  - rewrite <- (b64_int b Hb). now apply b64_mono.
Qed.

(** The absolute error below [2^(k+1)], in the normal range. *)
Lemma b64_abs_err (x : Q) (k : Z) :
  -1022 <= k <= 1022 -> (0 <= x < pow2 (k + 1))%Q ->
  exists p, b64 x = Fin p /\ (x - pow2 (k - 53) <= p <= x + pow2 (k - 53))%Q.
Proof.
  intros Hk [H0 Hx]. pose proof (pow2_pos (k - 53)) as Pk.
  destruct (Qeq_dec x 0) as [E|N].
  - exists 0%Q. rewrite (b64_comp x 0 E). split; [reflexivity | lra].
  - assert (0 < x)%Q as Hpos by lra.
    destruct (Qlog2_spec x Hpos) as [L1 _].
    assert (Qlog2 x < k + 1) as HL by (apply pow2_lt_inv; lra).
    assert (ulp_exp x - 1 <= k - 53) as He by (unfold ulp_exp; lia).
    pose proof (pow2_le _ _ He) as Pe.
    destruct (round_pos_err x Hpos) as [E1 E2].
    assert (pow2 (k + 1) + pow2 (k - 53) <= pow2 1023 + pow2 1023)%Q as Hb.
    { pose proof (pow2_le (k + 1) 1023 ltac:(lia)).
      pose proof (pow2_le (k - 53) 1023 ltac:(lia)). lra. }
    assert (pow2 1024 == pow2 1023 + pow2 1023)%Q as E1024.
    { replace 1024 with (1 + 1023) by lia. rewrite pow2_add. change (pow2 1) with 2%Q. ring. }
    destruct (b64_pos_cases x Hpos) as [[_ O]|[-> F]]; [exfalso; lra|].
    eexists. split; [reflexivity|]. rewrite Qred_correct. lra.
Qed.

(** A binary64 number is not changed by rounding it again. *)
Lemma round_pos_idem (q : Q) :
  (0 < q)%Q -> (0 < round_pos q)%Q -> (round_pos (round_pos q) == round_pos q)%Q.
Proof.
  intros Hq Hr. set (e := ulp_exp q). pose proof (pow2_pos e) as Pe.
  set (m := round_even (q / pow2 e)).
  assert (round_pos q == inject_Z m * pow2 e)%Q as Er by reflexivity.
  assert (0 < m) as Hm.
  { rewrite Zlt_Qlt. change (inject_Z 0) with 0%Q.
    destruct (Qlt_le_dec 0 (inject_Z m)) as [H|H]; [exact H|]. exfalso. nra. }
  assert (m <= 2 ^ 53) as Hm53.
  { apply round_even_le. rewrite <- pow2_Z by lia.
    apply Qlt_le_weak. now apply scaled_upper. }
  destruct (Z.eq_dec m (2 ^ 53)) as [E53|N53].
  - (* the rounding carried to the next power of two *)
    assert (round_pos q == pow2 (e + 53))%Q as Ev.
    { rewrite Er, E53, pow2_add, (pow2_Z 53) by lia. ring. }
    assert (Qlog2 (round_pos q) = e + 53) as HL.
    { apply Qlog2_unique. rewrite Ev. split; [apply Qle_refl | apply pow2_lt; lia]. }
    assert (ulp_exp (round_pos q) = e + 1) as He'.
    { unfold ulp_exp. rewrite HL. unfold e, ulp_exp. lia. }
    apply (round_pos_exact _ (2 ^ 52)); [exact Hr|].
    rewrite He', Ev.
    replace (e + 53) with (52 + (e + 1)) by lia. rewrite pow2_add, (pow2_Z 52) by lia.
    reflexivity.
  - assert (ulp_exp (round_pos q) = e) as He'.
    { destruct (Z.eq_dec e (-1074)) as [Emin|Nmin].
      - (* subnormal or the least normal exponent *)
        assert (round_pos q < pow2 (e + 53))%Q as Hup.
        { rewrite Er, pow2_add, (pow2_Z 53) by lia.
          assert (inject_Z m < inject_Z (2 ^ 53))%Q by (rewrite <- Zlt_Qlt; lia). nra. }
        destruct (Qlog2_spec _ Hr) as [L1 _].
        assert (Qlog2 (round_pos q) < e + 53) by (apply pow2_lt_inv; lra).
        unfold ulp_exp. lia.
      - assert (-1074 < e) as Hgt by (unfold e, ulp_exp in *; lia).
        pose proof (round_pos_lower q Hq Hgt) as Hlo. fold e in Hlo.
        assert (round_pos q < pow2 (e + 53))%Q as Hup.
        { rewrite Er, pow2_add, (pow2_Z 53) by lia.
          assert (inject_Z m < inject_Z (2 ^ 53))%Q by (rewrite <- Zlt_Qlt; lia). nra. }
        assert (Qlog2 (round_pos q) = e + 52) as HL.
        { apply Qlog2_unique. split; [exact Hlo|]. now replace (e + 52 + 1) with (e + 53) by lia. }
        unfold ulp_exp. rewrite HL. lia. }
    apply (round_pos_exact _ m); [exact Hr|]. now rewrite He'.
Qed.

Lemma b64_idem (x p : Q) : b64 x = Fin p -> b64 p = Fin p.
Proof.
  intros H.
  destruct (Qlt_le_dec 0 x) as [Hx|Hx].
  - destruct (b64_pos_cases x Hx) as [[E _]|[E F]]; [congruence|].
    assert (p = Qred (round_pos x)) as -> by congruence. clear H.
    pose proof (round_pos_nonneg x Hx) as Hn.
    destruct (Qeq_dec (round_pos x) 0) as [Z0|NZ].
    + rewrite (Qred_complete _ _ Z0). reflexivity.
    + assert (0 < round_pos x)%Q as Hr by lra.
      assert (0 < Qred (round_pos x))%Q as Hr' by now rewrite Qred_correct.
      pose proof (round_pos_idem x Hx Hr) as Ei.
      pose proof (round_pos_comp _ _ Hr' (Qred_correct (round_pos x))) as Ec.
      destruct (b64_pos_cases _ Hr') as [[_ O]|[-> _]]; [exfalso; lra|].
      f_equal. apply Qred_complete. lra.
  - destruct (Qeq_dec x 0) as [E0|N0].
    + rewrite (b64_comp x 0 E0), b64_0 in H. assert (p = 0%Q) as -> by congruence. reflexivity.
    + assert (x < 0)%Q as Hx' by lra. assert (0 < - x)%Q as Hnx by lra.
      destruct (b64_neg_cases x Hx') as [[E _]|[E F]]; [congruence|].
      assert (p = Qred (- round_pos (- x))) as -> by congruence. clear H.
      pose proof (round_pos_nonneg (- x) Hnx) as Hn.
      destruct (Qeq_dec (round_pos (- x)) 0) as [Z0|NZ].
      * assert (- round_pos (- x) == 0)%Q as Z0' by lra.
        rewrite (Qred_complete _ _ Z0'). reflexivity.
      * assert (0 < round_pos (- x))%Q as Hr by lra.
        assert (Qred (- round_pos (- x)) < 0)%Q as Hr' by (rewrite Qred_correct; lra).
        pose proof (round_pos_idem (- x) Hnx Hr) as Ei.
        assert (- Qred (- round_pos (- x)) == round_pos (- x))%Q as Ev
          by (rewrite Qred_correct; ring).
        assert (0 < - Qred (- round_pos (- x)))%Q as Hpos by lra.
        pose proof (round_pos_comp _ _ Hpos Ev) as Ec.
        destruct (b64_neg_cases _ Hr') as [[_ O]|[-> _]]; [exfalso; lra|].
        f_equal. apply Qred_complete. lra.
Qed.

(** The number with the opposite sign. *)
Lemma b64_opp_pos (x : Q) (p : Q) :
  (0 < x)%Q -> b64 x = Fin p -> b64 (- x) = Fin (- p).
Proof.
  intros Hx H. assert (- x < 0)%Q as Hn by lra.
  assert (- - x == x)%Q as E by ring.
  assert (0 < - - x)%Q as Hnn by lra.
  pose proof (round_pos_comp _ _ Hnn E) as Er.
  destruct (b64_pos_cases x Hx) as [[O _]|[F Fx]]; [congruence|].
  assert (p = Qred (round_pos x)) as -> by congruence.
  destruct (b64_neg_cases _ Hn) as [[_ O]|[-> _]]; [exfalso; lra|].
  f_equal. rewrite <- Qred_opp. apply Qred_complete. lra.
Qed.

(** The absolute error of a rounding below [2^(k+1)] in magnitude. *)
Lemma b64_abs_err_sym (x : Q) (k : Z) :
  -1022 <= k <= 1022 -> (- pow2 (k + 1) < x < pow2 (k + 1))%Q ->
  exists p, b64 x = Fin p /\ (x - pow2 (k - 53) <= p <= x + pow2 (k - 53))%Q.
Proof.
  intros Hk [H1 H2]. destruct (Qlt_le_dec x 0) as [Hn|Hp].
  - destruct (b64_abs_err (- x) k Hk) as (p & Hb & Hlo & Hhi); [lra|].
    assert (0 < - x)%Q as Hx by lra.
    exists (- p)%Q. split; [|lra].
    rewrite (b64_comp x (- - x)) by ring. now apply b64_opp_pos.
  - apply b64_abs_err; [exact Hk | lra].
Qed.

(** Two numbers less than one apart have floors at most one apart. *)
Lemma Qfloor_near (a b : Q) :
  (b - 1 < a < b + 1)%Q -> Qfloor b - 1 <= Qfloor a <= Qfloor b + 1.
Proof.
  intros [H1 H2].
  destruct (Qfloor_bounds a) as [A1 A2]. destruct (Qfloor_bounds b) as [B1 B2].
  assert (inject_Z (Qfloor a) < inject_Z (Qfloor b + 2))%Q as Ha
    by (rewrite inject_Z_plus; change (inject_Z 2) with 2%Q; lra).
  assert (inject_Z (Qfloor b) < inject_Z (Qfloor a + 2))%Q as Hb
    by (rewrite inject_Z_plus; change (inject_Z 2) with 2%Q; lra).
  rewrite <- Zlt_Qlt in Ha, Hb. lia.
Qed.

(** ** Frame addressing *)

Example getFrameSrc_first : getFrameSrc cfg0 (Val 0) = "assets/seq1/render001.png".
Proof. vm_compute. reflexivity. Qed.

Example getFrameSrc_last : getFrameSrc cfg0 (Val 479) = "assets/seq1/render480.png".
Proof. vm_compute. reflexivity. Qed.

Example getFrameSrc_NaN : getFrameSrc cfg0 NaN = "assets/seq1/renderNaN.png".
Proof. vm_compute. reflexivity. Qed.

Lemma length_append (s t : string) :
  String.length (s ++ t) = (String.length s + String.length t)%nat.
Proof. induction s as [|ch s IH]; simpl; [reflexivity | now rewrite IH]. Qed.

Lemma length_repeat_char (n : nat) (ch : ascii) :
  String.length (repeat_char n ch) = n.
Proof. induction n as [|n IH]; simpl; [reflexivity | now rewrite IH]. Qed.

Lemma length_padStart (w : Z) (ch : ascii) (s : string) :
  String.length (padStart w ch s) = Nat.max (Z.to_nat w) (String.length s).
Proof. unfold padStart. rewrite length_append, length_repeat_char. lia. Qed.

Lemma length_string_of_uint (d : Decimal.uint) :
  String.length (NilEmpty.string_of_uint d) = Decimal.nb_digits d.
Proof. induction d; simpl; congruence. Qed.

Lemma string_of_uint_nonnil (d : Decimal.uint) :
  d <> Decimal.Nil -> NilZero.string_of_uint d = NilEmpty.string_of_uint d.
Proof. destruct d; simpl; congruence. Qed.

Lemma decimal_pos (p : positive) :
  decimal (Z.pos p) = NilEmpty.string_of_uint (Pos.to_uint p).
Proof. unfold decimal. simpl. apply string_of_uint_nonnil, Unsigned.to_uint_nonnil. Qed.

(** Up to [2^53] a sum of integers is exact and printed with all its
    digits. *)
Lemma of_Z_safe (z : Z) : Z.abs z <= 2 ^ 53 -> of_Z z = IFin z.
Proof. intros Hz. unfold of_Z. rewrite (b64_int z Hz). f_equal. apply Qfloor_Z. Qed.

Lemma toString_safe (z : Z) : Z.abs z <= 2 ^ 53 -> toString (IFin z) = decimal z.
Proof.
  intros Hz. destruct z as [|p|p]; [reflexivity | |].
  - unfold toString, digits. now rewrite (proj2 (Z.leb_le _ _)) by lia.
  - unfold toString, digits. rewrite (proj2 (Z.leb_le _ _)) by lia. reflexivity.
Qed.

Lemma frameNum_safe (c : Config) (i : Z) :
  Z.abs (startFrame c + i) <= 2 ^ 53 ->
  frameNum c (Val i) = padStart (padding c) "0" (decimal (startFrame c + i)).
Proof.
  intros H. unfold frameNum. cbn [js_add]. now rewrite of_Z_safe, toString_safe.
Qed.

(** Leading zeros do not change the value read back. *)
Lemma decimal_value_zeros (k : nat) (d : Decimal.uint) :
  decimal_value (repeat_char k "0" ++ NilEmpty.string_of_uint d) = Some (Z.of_uint d).
Proof.
  unfold decimal_value. induction k as [|k IH].
  - change (repeat_char 0 "0" ++ NilEmpty.string_of_uint d)
      with (NilEmpty.string_of_uint d).
    now rewrite NilEmpty.usu.
  - change (repeat_char (S k) "0" ++ NilEmpty.string_of_uint d)
      with (String "0" (repeat_char k "0" ++ NilEmpty.string_of_uint d)).
    cbn [NilEmpty.uint_of_string].
    destruct (NilEmpty.uint_of_string _) as [u|]; [|discriminate].
    cbn [option_map] in IH |- *. rewrite <- IH. reflexivity.
Qed.

Lemma decimal_value_padStart (w z : Z) :
  0 <= z -> decimal_value (padStart w "0" (decimal z)) = Some z.
Proof.
  intros Hz. unfold padStart. destruct z as [|p|p]; [| |lia].
  - change (decimal 0) with (NilEmpty.string_of_uint (Decimal.D0 Decimal.Nil)).
    now rewrite decimal_value_zeros.
  - rewrite decimal_pos, decimal_value_zeros. f_equal.
    unfold Z.of_uint. now rewrite Unsigned.of_to.
Qed.

(** A positive number of [k] digits is at least [10 ^ (k - 1)]. *)
Lemma to_uint_normal (p : positive) :
  Decimal.unorm (Pos.to_uint p) = Pos.to_uint p.
Proof.
  rewrite <- (Unsigned.to_of (Pos.to_uint p)), Unsigned.of_to. reflexivity.
Qed.

Lemma nzhead_not_D0 (d u : Decimal.uint) : Decimal.nzhead d <> Decimal.D0 u.
Proof. induction d; simpl; congruence. Qed.

Lemma of_uint_acc_lower (l : Decimal.uint) (acc : positive) :
  (N.pos acc * 10 ^ Unsigned.usize l <= N.pos (Pos.of_uint_acc l acc))%N.
Proof. rewrite Unsigned.of_uint_acc_rev. lia. Qed.

Lemma usize_nb_digits (d : Decimal.uint) :
  Unsigned.usize d = N.of_nat (Decimal.nb_digits d).
Proof.
  induction d; cbn [Unsigned.usize Decimal.nb_digits];
    rewrite ?IHd, ?Nat2N.inj_succ; reflexivity.
Qed.

Lemma of_uint_lower (d : Decimal.uint) :
  Decimal.unorm d = d -> d <> Decimal.D0 Decimal.Nil ->
  (10 ^ N.of_nat (Decimal.nb_digits d - 1) <= Pos.of_uint d)%N.
Proof.
  intros Hn Hz.
  destruct d as [|l|l|l|l|l|l|l|l|l|l];
    try (simpl Decimal.nb_digits; rewrite Nat.sub_succ, Nat.sub_0_r, <- usize_nb_digits;
         simpl Pos.of_uint;
         match goal with |- (_ <= N.pos (Pos.of_uint_acc _ ?a))%N =>
           pose proof (of_uint_acc_lower l a) end; nia).
  - discriminate Hn.
  - exfalso. unfold Decimal.unorm in Hn. simpl in Hn.
    destruct (Decimal.nzhead l) eqn:E; try discriminate; try congruence.
    now apply (nzhead_not_D0 l u).
Qed.

Lemma digits_lower (p : positive) :
  10 ^ Z.of_nat (Decimal.nb_digits (Pos.to_uint p) - 1) <= Z.pos p.
Proof.
  pose proof (of_uint_lower (Pos.to_uint p) (to_uint_normal p)
                (Unsigned.to_uint_nonzero p)) as H.
  rewrite Unsigned.of_to in H.
  apply N2Z.inj_le in H. rewrite N2Z.inj_pow, nat_N_Z in H. exact H.
Qed.

Lemma length_decimal_bound (z w : Z) :
  0 <= z < 10 ^ w -> 0 < w -> (String.length (decimal z) <= Z.to_nat w)%nat.
Proof.
  intros [Hz Hlt] Hw. destruct z as [|p|p]; [simpl; lia | | lia].
  rewrite decimal_pos, length_string_of_uint.
  pose proof (digits_lower p) as Hlow.
  destruct (Nat.le_gt_cases (Decimal.nb_digits (Pos.to_uint p)) (Z.to_nat w)) as [|Hgt];
    [assumption | exfalso].
  assert (10 ^ w <= 10 ^ Z.of_nat (Decimal.nb_digits (Pos.to_uint p) - 1))
    by (apply Z.pow_le_mono_r; lia).
  lia.
Qed.

(** [replace] puts the replacement where the pattern first occurs. *)
Lemma prefix_append (p s : string) : String.prefix p (p ++ s) = true.
Proof.
  induction p as [|ch p IH]; simpl; [now destruct s|].
  destruct (ascii_dec ch ch); [exact IH | congruence].
Qed.

Lemma string_drop_append (p s : string) : string_drop (String.length p) (p ++ s) = s.
Proof. induction p as [|ch p IH]; simpl; [now destruct s | exact IH]. Qed.

Lemma replace_unfold (pat rep s : string) :
  replace pat rep s =
  if String.prefix pat s then rep ++ string_drop (String.length pat) s
  else match s with
       | EmptyString => EmptyString
       | String ch s' => String ch (replace pat rep s')
       end.
Proof. destruct s; reflexivity. Qed.

Lemma first_index_unfold (pat s : string) :
  first_index pat s =
  if String.prefix pat s then Some 0%nat
  else match s with
       | EmptyString => None
       | String _ s' => option_map S (first_index pat s')
       end.
Proof. destruct s; reflexivity. Qed.

Lemma replace_substituted (pat rep s : string) :
  replace pat rep s = substituted pat rep s.
Proof.
  unfold substituted. induction s as [|ch s IH].
  - rewrite replace_unfold, first_index_unfold.
    destruct (String.prefix pat EmptyString); reflexivity.
  - rewrite replace_unfold, first_index_unfold.
    destruct (String.prefix pat (String ch s)); [reflexivity|].
    rewrite IH. destruct (first_index pat s) as [k|]; reflexivity.
Qed.

(** The first occurrence is an occurrence, and there is none before it. *)
Lemma first_index_Some (pat s : string) (k : nat) :
  first_index pat s = Some k ->
  String.prefix pat (string_drop k s) = true
  /\ s = string_take k s ++ string_drop k s
  /\ forall j : nat, (j < k)%nat -> String.prefix pat (string_drop j s) = false.
Proof.
  revert k. induction s as [|ch s IH]; intros k; rewrite first_index_unfold.
  - destruct (String.prefix pat EmptyString) eqn:E; [|discriminate].
    intros [= <-]. repeat split; [exact E | lia].
  - destruct (String.prefix pat (String ch s)) eqn:E.
    + intros [= <-]. repeat split; [exact E | lia].
    + destruct (first_index pat s) as [k'|]; [|discriminate].
      intros [= <-]. destruct (IH k' eq_refl) as (H1 & H2 & H3).
      split; [exact H1|]. split.
      { change (String ch s = String ch (string_take k' s ++ string_drop k' s)).
        now f_equal. }
      intros [|j] Hj; [exact E | apply H3; lia].
Qed.

(** C3 (as the code has it).  [getFrameSrc] takes the descriptor and the
    index and no player state.  The file name is the pattern with its
    first [{frame}], if it has one, replaced by the rendering of the number
    [startFrame + i], filled with leading zeros up to [padding] characters
    and never cut.  Up to [2^53] the sum is exact and rendered with all its
    digits: they read back as [startFrame + i], and there are exactly
    [padding] of them when [startFrame + i] is below [10 ^ padding]. *)
Theorem getFrameSrc_zero_padded (c : Config) (i : Z) :
  let n := startFrame c + i in
  let d := toString (js_add (startFrame c) (Val i)) in
  frameNum c (Val i) = repeat_char (Z.to_nat (padding c) - String.length d) "0" ++ d
  /\ String.length (frameNum c (Val i)) = Nat.max (Z.to_nat (padding c)) (String.length d)
  /\ (0 <= n <= 2 ^ 53 ->
      d = decimal n /\ decimal_value (frameNum c (Val i)) = Some n)
  /\ (0 <= n < 10 ^ padding c -> n <= 2 ^ 53 -> 0 < padding c -> exactly_padded c i)
  /\ getFrameSrc c (Val i)
     = sequenceName c ++ "/" ++ substituted "{frame}" (frameNum c (Val i)) (pattern c)
  /\ (forall k : nat,
        first_index "{frame}" (pattern c) = Some k ->
        getFrameSrc c (Val i)
        = sequenceName c ++ "/" ++ string_take k (pattern c) ++ frameNum c (Val i)
            ++ string_drop (k + 7) (pattern c))
  /\ (first_index "{frame}" (pattern c) = None ->
      getFrameSrc c (Val i) = sequenceName c ++ "/" ++ pattern c).
Proof.
  intros n d.
  assert (getFrameSrc c (Val i)
          = sequenceName c ++ "/" ++ substituted "{frame}" (frameNum c (Val i)) (pattern c))
    as Hsrc by (unfold getFrameSrc; now rewrite replace_substituted).
  split; [reflexivity|]. split; [apply length_padStart|].
  split; [|split; [|split; [exact Hsrc|split]]].
  - intros Hn.
    assert (d = decimal n) as Hd
      by (unfold d; cbn [js_add]; fold n; rewrite of_Z_safe, toString_safe by lia; reflexivity).
    split; [exact Hd|]. rewrite frameNum_safe by (fold n; lia).
    apply decimal_value_padStart. fold n. lia.
  - intros Hn Hb Hp. unfold exactly_padded. rewrite frameNum_safe by (fold n; lia).
    rewrite length_padStart. fold n.
    pose proof (length_decimal_bound n (padding c) Hn Hp) as Hlen. lia.
  - intros k Hk. rewrite Hsrc. unfold substituted. now rewrite Hk.
  - intros Hk. rewrite Hsrc. unfold substituted. now rewrite Hk.
Qed.

Lemma getFrameSrc_zero_padded_witness :
  decimal_value (frameNum cfg0 (Val 41)) = Some 42
  /\ exactly_padded cfg0 41
  /\ getFrameSrc cfg0 (Val 41) = "assets/seq1/render042.png".
Proof.
  destruct (getFrameSrc_zero_padded cfg0 41) as (_ & _ & Hv & Hx & _ & Hs & _).
  split; [apply Hv; vm_compute; split; discriminate|].
  split; [apply Hx; [vm_compute; split; [discriminate | reflexivity]
                    | vm_compute; discriminate | reflexivity]|].
  apply (Hs 6%nat). reflexivity.
Defined.

(** C3 as stated fails where the frame number has more digits than
    [padding]: frame 999 of a sequence that starts at 1, with a padding of
    3, is numbered ["1000"]. *)
Lemma getFrameSrc_not_exactly_padded :
  0 <= 999 < totalFrames cfg_long
  /\ getFrameSrc cfg_long (Val 999) = "assets/seq1/render1000.png"
  /\ ~ exactly_padded cfg_long 999.
Proof.
  split; [vm_compute; split; [discriminate | reflexivity]|].
  split; [vm_compute; reflexivity|]. vm_compute. discriminate.
Qed.

(** Above [2^53] the sum is rounded and not every digit is printed: in a
    sequence numbered from [2^53] the frames 0 and 1 have the same
    address, and [2^60] is rendered with sixteen digits and three
    zeros. *)
Example getFrameSrc_beyond_2_53 :
  getFrameSrc cfg_2_53 (Val 0) = "assets/seq1/render9007199254740992.png"
  /\ getFrameSrc cfg_2_53 (Val 1) = getFrameSrc cfg_2_53 (Val 0)
  /\ toString (of_Z (2 ^ 60)) = "1152921504606847000"
  /\ toString (of_Z (10 ^ 21)) = "1e+21".
Proof. vm_compute. repeat split. Qed.

(** ** The state monad *)

Lemma bind_run {A B} (m : M A) (f : A -> M B) (st : State) :
  (m ≫= f) st = f (m st).1 (m st).2.
Proof. unfold mbind, M_bind. now destruct (m st). Qed.

Lemma exec_bind {A B} (m : M A) (f : A -> M B) (st : State) :
  exec (m ≫= f) st = exec (f (eval m st)) (exec m st).
Proof. unfold exec, eval. now rewrite bind_run. Qed.

Lemma exec_of {A} (m : M A) (st st' : State) (a : A) : m st = (a, st') -> exec m st = st'.
Proof. unfold exec. now intros ->. Qed.

Lemma eval_of {A} (m : M A) (st st' : State) (a : A) : m st = (a, st') -> eval m st = a.
Proof. unfold eval. now intros ->. Qed.

Lemma exec_when (b : bool) (m : M unit) (st : State) :
  exec (when b m) st = if b then exec m st else st.
Proof. now destruct b. Qed.

(** What it takes to construct a player. *)
Lemma construct_Some (c : Config) (st : State) :
  construct c = Some st ->
  0 <= totalFrames c <= 4294967295 /\ st = exec (init c) (blank c).
Proof.
  unfold construct.
  destruct (Z.ltb_spec (totalFrames c) 0); [discriminate|].
  destruct (Z.ltb_spec 4294967295 (totalFrames c)); [discriminate|].
  cbn [orb]. intros [= <-]. split; [lia | reflexivity].
Qed.

Lemma construct_ok (c : Config) :
  0 <= totalFrames c <= 4294967295 -> construct c = Some (exec (init c) (blank c)).
Proof.
  intros H. unfold construct.
  destruct (Z.ltb_spec (totalFrames c) 0); [lia|].
  destruct (Z.ltb_spec 4294967295 (totalFrames c)); [lia|]. reflexivity.
Qed.

Lemma reachable_constructible (c : Config) (st : State) :
  reachable c st -> 0 <= totalFrames c <= 4294967295.
Proof.
  induction 1 as [st Hc|st st' _ IH _]; [|exact IH].
  now apply construct_Some in Hc as [H _].
Qed.

(** Runs the monad of a goal down to plain state transformers. *)
Ltac msimpl :=
  unfold exec, eval, mbind, M_bind, mret, M_ret, get, modify, skip, when; cbn.

(** ** [loadFrame] *)



Lemma started_nil (c : Config) (k : Awaiter) (st : State) : started c k [] st = st.
Proof.
  destruct st. unfold started, set_pending, set_loadingFrames. cbn.
  f_equal; [apply (right_id_L ∅ (∪)) | apply app_nil_r].
Qed.

Lemma started_cons (c : Config) (k : Awaiter) (i : jsint) (T : list jsint) (st : State) :
  started c k T (started c k [i] st) = started c k (i :: T) st.
Proof.
  destruct st. unfold started, set_pending, set_loadingFrames. cbn.
  f_equal; [set_solver | now rewrite <- app_assoc].
Qed.

(** The three ways [loadFrame] returns without a download, and the one
    way it starts one. *)
Lemma loadFrame_cached (c : Config) (k : Awaiter) (i : jsint) (img : Image) (st : State) :
  out_of_range c i = false -> images st !! i = Some img ->
  loadFrame c k i st = (Settled (Some img), st).
Proof. intros Hr Hc. unfold loadFrame. rewrite Hr, bind_run. cbn. now rewrite Hc. Qed.

Lemma loadFrame_in_flight (c : Config) (k : Awaiter) (i : jsint) (st : State) :
  out_of_range c i = false -> images st !! i = None -> i ∈ loadingFrames st ->
  loadFrame c k i st = (Settled None, st).
Proof.
  intros Hr Hc Hl. unfold loadFrame. rewrite Hr, bind_run. cbn. rewrite Hc.
  now destruct (decide (i ∈ loadingFrames st)).
Qed.

Lemma loadFrame_idle (c : Config) (k : Awaiter) (i : jsint) (st : State) :
  out_of_range c i = false -> idle st i ->
  loadFrame c k i st = (Waiting, started c k [i] st).
Proof.
  intros Hr [Hc Hl]. unfold loadFrame. rewrite Hr, bind_run. cbn. rewrite Hc.
  destruct (decide (i ∈ loadingFrames st)); [contradiction|].
  rewrite !bind_run. cbn. destruct st. unfold started, set_pending, set_loadingFrames.
  cbn. do 2 f_equal. set_solver.
Qed.

(** Whatever the case, [loadFrame] either changes nothing or starts the
    one download. *)
Lemma loadFrame_cases (c : Config) (k : Awaiter) (i : jsint) (st : State) :
  (exec (loadFrame c k i) st = st /\ eval (loadFrame c k i) st <> Waiting
   /\ (out_of_range c i = true \/ ~ idle st i))
  \/ (loadFrame c k i st = (Waiting, started c k [i] st)
      /\ out_of_range c i = false /\ idle st i).
Proof.
  destruct (out_of_range c i) eqn:Hr.
  - left. unfold loadFrame, exec, eval. rewrite Hr. cbn. auto.
  - destruct (images st !! i) as [img|] eqn:Hc.
    + left. unfold exec, eval. rewrite (loadFrame_cached c k i img st Hr Hc). cbn.
      split; [reflexivity|]. split; [discriminate|]. right. intros [? _]. congruence.
    + destruct (decide (i ∈ loadingFrames st)) as [Hl|Hl].
      * left. unfold exec, eval. rewrite (loadFrame_in_flight c k i st Hr Hc Hl). cbn.
        split; [reflexivity|]. split; [discriminate|]. right. intros [_ ?]. contradiction.
      * right. split; [|split; [reflexivity | split; assumption]].
        apply loadFrame_idle; [assumption | split; assumption].
Qed.

(** ** [preloadBuffer] *)

Lemma filter_ext_in {A} (P1 P2 : A -> Prop)
    `{!forall x, Decision (P1 x)} `{!forall x, Decision (P2 x)} (l : list A) :
  (forall x, x ∈ l -> P1 x <-> P2 x) -> filter P1 l = filter P2 l.
Proof.
  induction l as [|a l IH]; intros Hext; [reflexivity|].
  rewrite !filter_cons.
  rewrite IH by (intros x Hx; apply Hext; now right).
  pose proof (Hext a (list_elem_of_here a l)) as Ha.
  destruct (decide (P1 a)), (decide (P2 a)); tauto.
Qed.

Lemma idle_started_other (c : Config) (k : Awaiter) (i j : jsint) (st : State) :
  i <> j -> idle (started c k [i] st) j <-> idle st j.
Proof. intros Hne. unfold idle, started. cbn. set_solver. Qed.

Lemma preload_test (st : State) (i : Z) :
  negb (bool_decide (is_Some (images st !! Val i)))
  && negb (bool_decide (Val i ∈ loadingFrames st))
  = bool_decide (idle st (Val i)).
Proof.
  destruct (decide (idle st (Val i))) as [Hidle|Hbusy].
  - rewrite (bool_decide_eq_true_2 _ Hidle). destruct Hidle as [Hc Hl].
    rewrite Hc, (bool_decide_eq_false_2 _ Hl).
    now rewrite (bool_decide_eq_false_2 (is_Some None)) by (intros [? ?]; discriminate).
  - rewrite (bool_decide_eq_false_2 _ Hbusy).
    apply andb_false_iff.
    destruct (images st !! Val i) as [img|] eqn:Hc.
    + left. now rewrite bool_decide_eq_true_2 by eauto.
    + right. destruct (decide (Val i ∈ loadingFrames st)) as [Hl|Hl].
      * now rewrite (bool_decide_eq_true_2 _ Hl).
      * exfalso. apply Hbusy. split; assumption.
Qed.

Lemma in_range_Val (c : Config) (i : Z) :
  0 <= i < totalFrames c -> out_of_range c (Val i) = false.
Proof. intros H. unfold out_of_range. apply orb_false_iff. lia. Qed.

(** The loop, by induction on the number of iterations left. *)
Lemma preload_loop_spec (c : Config) (n : nat) :
  forall (i : Z) (st : State),
    0 <= i -> i + Z.of_nat n <= totalFrames c ->
    preload_loop c n i st
    = (tt, started c Dropped
             (Val <$> filter (fun j => idle st (Val j)) (seqZ i (Z.of_nat n))) st).
Proof.
  induction n as [|n IH]; intros i st Hi Hn.
  - cbn. now rewrite started_nil.
  - rewrite seqZ_cons by lia. rewrite filter_cons.
    replace (Z.pred (Z.of_nat (S n))) with (Z.of_nat n) by lia.
    cbn [preload_loop]. rewrite bind_run. cbn [get fst snd].
    rewrite bind_run, preload_test.
    destruct (decide (idle st (Val i))) as [Hidle|Hbusy].
    + rewrite (bool_decide_eq_true_2 _ Hidle). cbn [when].
      rewrite bind_run, (loadFrame_idle c Dropped (Val i) st) by
        (try apply in_range_Val; auto; lia).
      cbn [fst snd skip mret M_ret]. rewrite IH by lia.
      rewrite started_cons, fmap_cons. do 3 f_equal.
      change (Z.succ i) with (i + 1). f_equal.
      apply filter_ext_in. intros j Hj. apply elem_of_seqZ in Hj.
      apply idle_started_other. intros [=]. lia.
    + rewrite (bool_decide_eq_false_2 _ Hbusy). cbn [when skip mret M_ret fst snd].
      now rewrite IH by lia.
Qed.

Lemma preloadBuffer_run (c : Config) (centerFrame : jsint) (st : State) :
  preloadBuffer c centerFrame st
  = (tt, started c Dropped (prefetchTargets c centerFrame st) st).
Proof.
  destruct centerFrame as [center|]; cbn [preloadBuffer prefetchTargets].
  2: { now rewrite started_nil. }
  unfold bufferSize, window.
  set (lo := Z.max 0 (center - 15)). set (hi := Z.min (totalFrames c - 1) (center + 15)).
  destruct (Z.le_gt_cases lo hi) as [Hle|Hgt].
  - rewrite preload_loop_spec by lia. now rewrite Z2Nat.id by lia.
  - replace (Z.to_nat (hi - lo + 1)) with O by lia.
    rewrite (seqZ_nil lo) by lia. cbn. now rewrite started_nil.
Qed.

(** The calls of [loadFrame] one after the other on frames that are idle
    and in range start one download each. *)
Lemma loadFrame_each (c : Config) (k : Awaiter) (T : list jsint) :
  forall st : State,
    NoDup T -> (forall i, i ∈ T -> out_of_range c i = false /\ idle st i) ->
    foldl (fun s i => exec (loadFrame c k i) s) st T = started c k T st.
Proof.
  induction T as [|i T IH]; intros st Hnd HT; [now rewrite started_nil|].
  apply NoDup_cons in Hnd as [Hi Hnd]. cbn [foldl].
  destruct (HT i (list_elem_of_here i T)) as [Hr Hidle].
  unfold exec at 2. rewrite (loadFrame_idle c k i st Hr Hidle). cbn [snd].
  rewrite IH, started_cons; [reflexivity | assumption |].
  intros j Hj. destruct (HT j) as [Hrj Hidlej]; [now right|].
  split; [assumption|]. apply idle_started_other; [|assumption].
  intros ->. contradiction.
Qed.

(** C6.  [preloadBuffer(center)] calls [loadFrame] for the frames of
    [max(0, center - 15) .. min(totalFrames - 1, center + 15)] that are
    neither cached nor in flight when it is entered, once each and for no
    other frame, and each of these calls starts a download. *)
Theorem preloadBuffer_window (c : Config) (center : Z) (st : State) :
  let T := prefetchTargets c (Val center) st in
  preloadBuffer c (Val center) st
  = (tt, foldl (fun s i => exec (loadFrame c Dropped i) s) st T)
  /\ exec (preloadBuffer c (Val center)) st = started c Dropped T st
  /\ NoDup T
  /\ (forall i : jsint, i ∈ T <->
        exists z : Z, i = Val z
          /\ Z.max 0 (center - 15) <= z <= Z.min (totalFrames c - 1) (center + 15)
          /\ images st !! Val z = None /\ Val z ∉ loadingFrames st).
Proof.
  intros T.
  assert (forall i : jsint, i ∈ T <->
        exists z : Z, i = Val z
          /\ Z.max 0 (center - 15) <= z <= Z.min (totalFrames c - 1) (center + 15)
          /\ images st !! Val z = None /\ Val z ∉ loadingFrames st) as Hmem.
  { intros i. unfold T, prefetchTargets, window. rewrite list_elem_of_fmap.
    split.
    - intros (z & -> & Hz). apply list_elem_of_filter in Hz as [[Hc Hl] Hz].
      apply elem_of_seqZ in Hz. exists z. repeat split; auto; lia.
    - intros (z & -> & Hz & Hc & Hl). exists z. split; [reflexivity|].
      apply list_elem_of_filter. split; [split; assumption|].
      apply elem_of_seqZ. lia. }
  assert (NoDup T) as Hnd.
  { unfold T, prefetchTargets. apply NoDup_fmap_2; [intros x y [=]; assumption|].
    apply NoDup_filter, NoDup_seqZ. }
  split; [|split; [|split; assumption]].
  - rewrite preloadBuffer_run. f_equal. symmetry. apply loadFrame_each; [assumption|].
    intros i Hi. apply Hmem in Hi as (z & -> & Hz & Hc & Hl).
    split; [apply in_range_Val; lia | split; assumption].
  - unfold exec. now rewrite preloadBuffer_run.
Qed.

(** ** The downloads in progress *)

Lemma net_inv_same (st st' : State) :
  images st' = images st -> loadingFrames st' = loadingFrames st ->
  pending st' = pending st -> net_inv st -> net_inv st'.
Proof.
  intros Hi Hl Hp [H1 H2 H3]. split; rewrite ?Hi, ?Hl, ?Hp; assumption.
Qed.

Lemma net_inv_started (c : Config) (k : Awaiter) (i : jsint) (st : State) :
  out_of_range c i = false -> idle st i -> net_inv st -> net_inv (started c k [i] st).
Proof.
  intros _ [Hc Hl] [H1 H2 H3]. split; cbn.
  - rewrite fmap_app. cbn. apply NoDup_app. split; [assumption|].
    split; [|apply NoDup_singleton].
    intros j Hj Hji. apply list_elem_of_singleton in Hji as ->.
    apply list_elem_of_fmap in Hj as (f & -> & Hf).
    destruct (H2 f Hf) as [? _]. contradiction.
  - intros f Hf. apply elem_of_app in Hf as [Hf|Hf].
    + destruct (H2 f Hf). split; [set_solver | assumption].
    + apply list_elem_of_singleton in Hf as ->. cbn. split; [set_solver | assumption].
  - intros j Hj. rewrite fmap_app. cbn. apply elem_of_app.
    apply elem_of_union in Hj as [Hj|Hj]; [left; now apply H3|].
    right. set_solver.
Qed.

Lemma range_inv_same (c : Config) (st st' : State) :
  images st' = images st -> loadingFrames st' = loadingFrames st ->
  pending st' = pending st -> range_inv c st -> range_inv c st'.
Proof. intros _ _ Hp H. unfold range_inv. now rewrite Hp. Qed.

Lemma range_inv_started (c : Config) (k : Awaiter) (i : jsint) (st : State) :
  out_of_range c i = false -> idle st i -> range_inv c st ->
  range_inv c (started c k [i] st).
Proof.
  intros Hr _ H f Hf. cbn in Hf. apply elem_of_app in Hf as [Hf|Hf]; [now apply H|].
  apply list_elem_of_singleton in Hf as ->. exact Hr.
Qed.

(** The methods maintain every property that looks at the frame cache, the
    in-flight set and the downloads only, and that survives the start of a
    download of an idle frame in range. *)
Section Maintained.
Variable c : Config.
Variable P : State -> Prop.
Hypothesis P_same : forall st st',
  images st' = images st -> loadingFrames st' = loadingFrames st ->
  pending st' = pending st -> P st -> P st'.
Hypothesis P_started : forall k i st,
  out_of_range c i = false -> idle st i -> P st -> P (started c k [i] st).

Lemma maintains_ret {A} (a : A) : maintains P (mret a).
Proof. intros st H. exact H. Qed.

Lemma maintains_skip : maintains P skip.
Proof. apply maintains_ret. Qed.

Lemma maintains_get : maintains P get.
Proof. intros st H. exact H. Qed.

Lemma maintains_bind {A B} (m : M A) (f : A -> M B) :
  maintains P m -> (forall a, maintains P (f a)) -> maintains P (m ≫= f).
Proof. intros Hm Hf st H. rewrite exec_bind. apply Hf, Hm, H. Qed.

Lemma maintains_when (b : bool) (m : M unit) : maintains P m -> maintains P (when b m).
Proof. destruct b; [trivial | intros _; apply maintains_skip]. Qed.

Lemma maintains_modify (f : State -> State) :
  (forall st, images (f st) = images st /\ loadingFrames (f st) = loadingFrames st
              /\ pending (f st) = pending st) ->
  maintains P (modify f).
Proof.
  intros Hf st H. destruct (Hf st) as (Hi & Hl & Hp).
  now apply (P_same st (f st)).
Qed.

Lemma maintains_loadFrame (k : Awaiter) (i : jsint) : maintains P (loadFrame c k i).
Proof.
  intros st H. destruct (loadFrame_cases c k i st) as [(-> & _)|(Hrun & Hr & Hidle)].
  - exact H.
  - rewrite (exec_of _ _ _ _ Hrun). now apply P_started.
Qed.

(** Steps through a method built from the pieces above. *)
Ltac maintains_step :=
  match goal with
  | |- maintains _ (_ ≫= _) => apply maintains_bind; [|intros ?]
  | |- maintains _ (when _ _) => apply maintains_when
  | |- maintains _ (modify _) => apply maintains_modify; intros ?; cbn; auto
  | |- maintains _ (mret _) => apply maintains_ret
  | |- maintains _ skip => apply maintains_skip
  | |- maintains _ get => apply maintains_get
  | |- maintains _ (loadFrame _ _ _) => apply maintains_loadFrame
  | |- maintains _ (if ?b then _ else _) => destruct b
  | |- maintains _ (match ?x with _ => _ end) => destruct x
  | |- maintains _ (let _ := _ in _) => cbv zeta
  | |- maintains _ _ => assumption
  end.

Ltac maintains_auto := repeat maintains_step.

Lemma maintains_preload_loop (n : nat) : forall i, maintains P (preload_loop c n i).
Proof. induction n as [|n IH]; intros i; cbn [preload_loop]; maintains_auto. apply IH. Qed.

Lemma maintains_preloadBuffer (centerFrame : jsint) :
  maintains P (preloadBuffer c centerFrame).
Proof. unfold preloadBuffer. maintains_auto. apply maintains_preload_loop. Qed.

Lemma maintains_setupCanvas : maintains P setupCanvas.
Proof. unfold setupCanvas. maintains_auto. Qed.

Lemma maintains_drawResume (v : option Image) : maintains P (drawResume v).
Proof. unfold drawResume, paint. maintains_auto. Qed.

Lemma maintains_drawFrame (index : jsint) : maintains P (drawFrame c index).
Proof. unfold drawFrame, paint. maintains_auto. apply maintains_drawResume. Qed.

Lemma maintains_updateYearIndicator (year : jsint) :
  maintains P (updateYearIndicator c year).
Proof. unfold updateYearIndicator. maintains_auto. Qed.

Lemma maintains_updateOverlay (show : bool) : maintains P (updateOverlay c show).
Proof. unfold updateOverlay. maintains_auto. Qed.

Lemma maintains_frameChanged (frameIndex : jsint) :
  maintains P (frameChanged c frameIndex).
Proof.
  unfold frameChanged.
  pose proof maintains_drawFrame. pose proof maintains_preloadBuffer.
  pose proof maintains_updateYearIndicator.
  maintains_auto; auto.
Qed.

Lemma maintains_onScroll (g : Layout) : maintains P (onScroll c g).
Proof.
  unfold onScroll.
  pose proof maintains_drawFrame. pose proof maintains_frameChanged.
  pose proof maintains_updateYearIndicator. pose proof maintains_updateOverlay.
  maintains_auto; auto.
Qed.

Lemma maintains_onResize : maintains P (onResize c).
Proof.
  unfold onResize. pose proof maintains_drawFrame. pose proof maintains_setupCanvas.
  maintains_auto; auto.
Qed.

Lemma maintains_initResume : maintains P (initResume c).
Proof.
  unfold initResume.
  pose proof maintains_drawFrame. pose proof maintains_setupCanvas.
  pose proof maintains_preloadBuffer. pose proof maintains_updateYearIndicator.
  maintains_auto; auto.
Qed.

Lemma maintains_init : maintains P (init c).
Proof. unfold init. maintains_auto; apply maintains_initResume. Qed.

Lemma maintains_resume (k : Awaiter) (v : option Image) : maintains P (resume c k v).
Proof.
  unfold resume. maintains_auto.
  - apply maintains_drawResume.
  - apply maintains_initResume.
Qed.
End Maintained.

(** The handler of a download that [pending] held keeps the invariant. *)
Lemma net_inv_onSettled (ok : bool) (f : Fetch) (l1 l2 : list Fetch) (st : State) :
  net_inv st -> pending st = (l1 ++ f :: l2)%list ->
  net_inv (exec (onSettled ok f) (set_pending (fun _ => (l1 ++ l2)%list) st)).
Proof.
  intros [H1 H2 H3] Hp. rewrite Hp in H1, H2, H3.
  rewrite fmap_app, fmap_cons in H1, H3.
  apply NoDup_app in H1 as (Hn1 & Hx & Hn2). apply NoDup_cons in Hn2 as [Hf2 Hn2].
  assert (forall f', f' ∈ (l1 ++ l2)%list -> f_index f' <> f_index f) as Hne.
  { intros f' Hf' Heq. apply elem_of_app in Hf' as [Hf'|Hf'].
    - apply (Hx (f_index f')); [now apply list_elem_of_fmap_2|]. rewrite Heq. now left.
    - apply Hf2. rewrite <- Heq. now apply list_elem_of_fmap_2. }
  assert (forall f', f' ∈ (l1 ++ l2)%list -> f' ∈ (l1 ++ f :: l2)%list) as Hsub.
  { intros f' Hf'. apply elem_of_app in Hf' as [?|?]; apply elem_of_app;
      [now left | right; now right]. }
  assert (NoDup (f_index <$> (l1 ++ l2)%list)) as Hnd.
  { rewrite fmap_app. apply NoDup_app. split; [assumption|]. split; [|assumption].
    intros j Hj1 Hj2. apply (Hx j Hj1). now right. }
  assert (forall i, i ∈ loadingFrames st ∖ {[f_index f]} ->
                    i ∈ (f_index <$> (l1 ++ l2)%list)) as Hback.
  { intros i Hi. apply elem_of_difference in Hi as [Hi Hif].
    apply H3 in Hi. rewrite fmap_app. apply elem_of_app in Hi as [Hi|Hi];
      apply elem_of_app; [now left|]. right.
    apply elem_of_cons in Hi as [->|Hi]; [|assumption]. exfalso. apply Hif. set_solver. }
  destruct ok; unfold onSettled; msimpl; split; cbn; try assumption.
  - intros f' Hf'. destruct (H2 f' (Hsub f' Hf')) as [Hl Hc]. specialize (Hne f' Hf').
    split; [set_solver|]. now rewrite lookup_insert_ne.
  - intros f' Hf'. destruct (H2 f' (Hsub f' Hf')) as [Hl Hc]. specialize (Hne f' Hf').
    split; [set_solver | assumption].
Qed.

Lemma net_inv_settle (c : Config) (ok : bool) (f : Fetch) (l1 l2 : list Fetch) (st : State) :
  net_inv st -> pending st = (l1 ++ f :: l2)%list ->
  net_inv (exec (settle c ok f) (set_pending (fun _ => (l1 ++ l2)%list) st)).
Proof.
  intros H Hp. unfold settle. rewrite exec_bind.
  apply (maintains_resume c net_inv net_inv_same (net_inv_started c)).
  now apply (net_inv_onSettled ok f l1 l2 st).
Qed.

Lemma net_inv_blank (c : Config) : net_inv (blank c).
Proof.
  split; cbn.
  - apply NoDup_nil_2.
  - intros f Hf. now apply elem_of_nil in Hf.
  - intros i Hi. now apply elem_of_empty in Hi.
Qed.

Lemma net_inv_reachable (c : Config) (st : State) : reachable c st -> net_inv st.
Proof.
  induction 1 as [st Hc|st st' _ IH Hstep].
  - apply construct_Some in Hc as [_ ->].
    apply (maintains_init c net_inv net_inv_same (net_inv_started c)), net_inv_blank.
  - destruct Hstep as [g st _|st _|ok f l1 l2 st Hp].
    + now apply (maintains_onScroll c net_inv net_inv_same (net_inv_started c)).
    + now apply (maintains_onResize c net_inv net_inv_same (net_inv_started c)).
    + now apply net_inv_settle.
Qed.

Lemma outstanding_NoDup (i : jsint) (l : list Fetch) :
  NoDup (f_index <$> l) -> (length (filter (fun f => f_index f = i) l) <= 1)%nat.
Proof.
  induction l as [|f l IH]; intros Hnd; [cbn; lia|].
  rewrite fmap_cons in Hnd. apply NoDup_cons in Hnd as [Hf Hnd].
  rewrite filter_cons. destruct (decide (f_index f = i)) as [<-|Hne]; [|now apply IH].
  assert (filter (fun f' => f_index f' = f_index f) l = []) as ->; [|cbn; lia].
  destruct (filter _ l) as [|f' l'] eqn:E; [reflexivity|exfalso].
  assert (f' ∈ filter (fun f' => f_index f' = f_index f) l) as Hin by (rewrite E; now left).
  apply list_elem_of_filter in Hin as [Heq Hin]. apply Hf.
  rewrite <- Heq. now apply list_elem_of_fmap_2.
Qed.

Lemma outstanding_idle (i : jsint) (st : State) :
  net_inv st -> i ∉ loadingFrames st -> outstanding i st = O.
Proof.
  intros [_ H2 _] Hl. unfold outstanding.
  destruct (filter _ (pending st)) as [|f l] eqn:E; [reflexivity|exfalso].
  assert (f ∈ filter (fun f => f_index f = i) (pending st)) as Hin by (rewrite E; now left).
  apply list_elem_of_filter in Hin as [<- Hin]. now destruct (H2 f Hin).
Qed.

Lemma loadFrame_marked (c : Config) (k : Awaiter) (i : jsint) (st : State) :
  net_inv st -> i ∈ loadingFrames st -> loadFrame c k i st = (Settled None, st).
Proof.
  intros [H1 H2 H3] Hl. destruct (out_of_range c i) eqn:Hr.
  - unfold loadFrame. now rewrite Hr.
  - apply loadFrame_in_flight; [assumption | | assumption].
    apply H3, list_elem_of_fmap in Hl as (f & -> & Hf). now destruct (H2 f Hf).
Qed.

Lemma loadFrame_again (c : Config) (i : jsint) (st : State) (ks : list Awaiter) :
  net_inv st -> i ∈ loadingFrames st ->
  foldl (fun s k' => exec (loadFrame c k' i) s) st ks = st.
Proof.
  intros H Hl. induction ks as [|k' ks IH]; [reflexivity|].
  cbn [foldl]. unfold exec at 2. now rewrite (loadFrame_marked c k' i st H Hl).
Qed.

(** C4.  In every state a player goes through, at most one download of a
    frame is in progress.  While frame [i] is marked in flight a call of
    [loadFrame(i)] settles with [null] and changes nothing; on a cached
    frame it returns the cached image and changes nothing; on a frame that
    is neither, it starts the one download, and any number of further
    calls before that download is settled start no other. *)
Theorem one_download_per_frame (c : Config) (st : State) (i : jsint) :
  reachable c st ->
  (outstanding i st <= 1)%nat
  /\ (forall k : Awaiter,
        i ∈ loadingFrames st -> loadFrame c k i st = (Settled None, st))
  /\ (forall (k : Awaiter) (img : Image),
        images st !! i = Some img ->
        exec (loadFrame c k i) st = st
        /\ (out_of_range c i = false -> eval (loadFrame c k i) st = Settled (Some img)))
  /\ (forall (k : Awaiter) (ks : list Awaiter),
        out_of_range c i = false -> idle st i ->
        let st1 := exec (loadFrame c k i) st in
        pending st1 = (pending st ++ [mkFetch c k i])%list
        /\ outstanding i st1 = 1%nat
        /\ foldl (fun s k' => exec (loadFrame c k' i) s) st1 ks = st1).
Proof.
  intros Hreach. pose proof (net_inv_reachable c st Hreach) as Hinv.
  split; [apply outstanding_NoDup, Hinv|].
  split; [intros k Hl; now apply loadFrame_marked|].
  split.
  - intros k img Hc. split.
    + destruct (loadFrame_cases c k i st) as [(Hsame & _)|(_ & _ & Hidle & _)];
        [assumption | congruence].
    + intros Hr. unfold eval. now rewrite (loadFrame_cached c k i img st Hr Hc).
  - intros k ks Hr Hidle st1. unfold st1, exec.
    rewrite (loadFrame_idle c k i st Hr Hidle). cbn [snd].
    split; [reflexivity|]. split.
    + unfold outstanding. cbn. rewrite filter_app, length_app.
      fold (outstanding i st). rewrite (outstanding_idle i st Hinv) by apply Hidle.
      rewrite filter_cons, decide_True by reflexivity. reflexivity.
    + apply loadFrame_again; [now apply net_inv_started|].
      cbn. set_solver.
Qed.

Lemma one_download_per_frame_witness :
  (outstanding (Val 0%Z) (exec (init cfg0) (blank cfg0)) <= 1)%nat.
Proof.
  apply (one_download_per_frame cfg0 (exec (init cfg0) (blank cfg0)) (Val 0)).
  apply reach_construct. reflexivity.
Defined.

(** ** [drawFrame] *)

(** [drawFrame] leaves the player as it is, or paints one image, or
    starts the download of the frame and waits for it. *)
Lemma drawFrame_cases (c : Config) (i : jsint) (st : State) :
  exec (drawFrame c i) st = st
  \/ (exists img, exec (drawFrame c i) st = set_canvas (cons (Painted img)) st)
  \/ (exec (drawFrame c i) st = started c AwaitDraw [i] st
      /\ ctx c = true /\ out_of_range c i = false /\ idle st i).
Proof.
  unfold drawFrame. destruct (ctx c) eqn:Hctx; [|now left]. cbn [negb].
  rewrite exec_bind. change (eval get st) with st. change (exec get st) with st.
  destruct (images st !! i) as [img|] eqn:Hc; [right; left; now exists img|].
  rewrite exec_bind.
  destruct (loadFrame_cases c AwaitDraw i st) as [(Hs & Hw & _)|(Hrun & Hr & Hidle)].
  - rewrite Hs. destruct (eval (loadFrame c AwaitDraw i) st) as [v|]; [|congruence].
    unfold drawResume. rewrite exec_bind.
    change (eval get st) with st. change (exec get st) with st.
    destruct v as [img|]; [right; left; now exists img|].
    destruct (images st !! Val 0) as [img|]; [right; left; now exists img | now left].
  - rewrite (exec_of _ _ _ _ Hrun), (eval_of _ _ _ _ Hrun). right. right.
    destruct Hidle. repeat split; assumption || reflexivity.
Qed.

Lemma drawFrame_cached (c : Config) (i : jsint) (img : Image) (st : State) :
  ctx c = true -> images st !! i = Some img ->
  drawFrame c i st = (tt, set_canvas (cons (Painted img)) st).
Proof.
  intros Hctx Hc. unfold drawFrame. rewrite Hctx. cbn [negb].
  rewrite bind_run. cbn [get fst snd]. now rewrite Hc.
Qed.

(** In none of the cases does it touch what the player remembers or shows
    next to the canvas. *)
Lemma drawFrame_player (c : Config) (i : jsint) (st : State) :
  let st' := exec (drawFrame c i) st in
  images st' = images st /\ currentFrame st' = currentFrame st
  /\ currentYear st' = currentYear st /\ yearText st' = yearText st
  /\ initialized st' = initialized st.
Proof.
  intros st'. unfold st'.
  destruct (drawFrame_cases c i st) as [->|[(img & ->)|(-> & _)]]; cbn; auto.
Qed.

Lemma started_player (c : Config) (k : Awaiter) (T : list jsint) (st : State) :
  let st' := started c k T st in
  images st' = images st /\ currentFrame st' = currentFrame st
  /\ currentYear st' = currentYear st /\ yearText st' = yearText st
  /\ initialized st' = initialized st /\ canvas st' = canvas st.
Proof. cbn. auto 10. Qed.

(** ** Scroll position to frame *)

Lemma Qltb_lt (a b : Q) : Qltb a b = true <-> (a < b)%Q.
Proof.
  unfold Qltb. rewrite negb_true_iff, <- not_true_iff_false, Qle_bool_iff.
  split; [apply Qnot_le_lt | apply Qlt_not_le].
Qed.

Lemma Qltb_ge (a b : Q) : Qltb a b = false <-> (b <= a)%Q.
Proof.
  unfold Qltb. rewrite negb_false_iff, Qle_bool_iff. reflexivity.
Qed.

Lemma js_div_pos (a b : Q) : (0 < b)%Q -> js_div a b = b64 (a / b).
Proof.
  intros Hb. unfold js_div. destruct (Qeq_bool b 0) eqn:E; [|reflexivity].
  apply Qeq_bool_iff in E. rewrite E in Hb. now apply Qlt_irrefl in Hb.
Qed.

Lemma js_div_comp (a a' b b' : Q) :
  (a == a')%Q -> (b == b')%Q -> js_div a b = js_div a' b'.
Proof.
  intros Ea Eb. unfold js_div.
  rewrite (Qeqb_comp _ _ Eb _ _ (Qeq_refl 0%Q)).
  rewrite (Qcompare_comp _ _ Ea _ _ (Qeq_refl 0%Q)).
  destruct (Qeq_bool b' 0); [reflexivity|]. apply b64_comp. now rewrite Ea, Eb.
Qed.

Lemma progressOf_comp (s s' r r' : Q) :
  (s == s')%Q -> (r == r')%Q -> progressOf s r = progressOf s' r'.
Proof. intros Es Er. unfold progressOf. now rewrite (js_div_comp s s' r r' Es Er). Qed.

Lemma clamp01_clamp (x : Q) : (Qmax 0 (Qmin 1 x) == clamp x 0 1)%Q.
Proof.
  unfold clamp. destruct (Qltb x 0) eqn:E0.
  - apply Qltb_lt in E0. rewrite Q.max_l; [reflexivity|].
    rewrite Q.min_r; lra.
  - apply Qltb_ge in E0. destruct (Qltb 1 x) eqn:E1.
    + apply Qltb_lt in E1. rewrite Q.min_l by lra. apply Q.max_r. lra.
    + apply Qltb_ge in E1. rewrite Q.min_r by lra. now apply Q.max_r.
Qed.

Lemma div_in_unit (s r : Q) : (0 <= s)%Q -> (s <= r)%Q -> (0 < r)%Q ->
  (0 <= s / r)%Q /\ (s / r <= 1)%Q.
Proof.
  intros Hs Hsr Hr. split.
  - apply Qle_shift_div_l; [assumption | lra].
  - apply Qle_shift_div_r; [assumption | lra].
Qed.

(** The rounding of a number of the unit interval stays in it, within
    [2^-53] of the number. *)
Lemma b64_unit (x : Q) :
  (0 <= x)%Q -> (x <= 1)%Q ->
  exists q : Q, b64 x = Fin q /\ (0 <= q)%Q /\ (q <= 1)%Q
                /\ (x - pow2 (-53) <= q)%Q /\ (q <= x + pow2 (-53))%Q.
Proof.
  intros H0 H1.
  destruct (b64_between x 0 1) as (q & Hq & Q0 & Q1); [lia | lia | split; assumption|].
  destruct (b64_abs_err x 0) as (q' & Hq' & E1 & E2);
    [lia | split; [assumption | change (pow2 (0 + 1)) with 2%Q; lra]|].
  assert (q' = q) as -> by congruence.
  exists q. change (inject_Z 0) with 0%Q in Q0. change (inject_Z 1) with 1%Q in Q1.
  repeat split; assumption.
Qed.

(** Line 300 for a position within a positive range. *)
Lemma progressOf_in_range (s r : Q) : (0 <= s)%Q -> (s <= r)%Q -> (0 < r)%Q ->
  exists q p : Q,
    b64 (s / r) = Fin q /\ progressOf s r = Val p
    /\ (p == clamp q 0 1)%Q /\ (p == q)%Q
    /\ (0 <= p)%Q /\ (p <= 1)%Q
    /\ (s / r - pow2 (-53) <= p)%Q /\ (p <= s / r + pow2 (-53))%Q.
Proof.
  intros Hs Hsr Hr. destruct (div_in_unit s r Hs Hsr Hr) as [D0 D1].
  destruct (b64_unit (s / r) D0 D1) as (q & Hq & Q0 & Q1 & E1 & E2).
  exists q, (Qmax 0 (Qmin 1 q)). split; [exact Hq|].
  split; [unfold progressOf; rewrite js_div_pos, Hq by assumption; reflexivity|].
  split; [apply clamp01_clamp|].
  assert (Qmax 0 (Qmin 1 q) == q)%Q as E
    by (rewrite Q.min_r by assumption; now apply Q.max_r).
  split; [exact E|]. rewrite E. repeat split; assumption.
Qed.

(** Line 301 for a progress of the unit interval and the frames of a
    player that can be constructed. *)
Lemma product_rounded (p : Q) (m : Z) :
  (0 <= p)%Q -> (p <= 1)%Q -> -1 <= m <= 4294967295 ->
  exists x : Q,
    b64 (p * inject_Z m) = Fin x
    /\ (p * inject_Z m - pow2 (-21) <= x)%Q /\ (x <= p * inject_Z m + pow2 (-21))%Q
    /\ (0 <= m -> (0 <= x)%Q /\ (x <= inject_Z m)%Q).
Proof.
  intros P0 P1 Hm.
  assert (inject_Z (-1) <= inject_Z m)%Q as M1 by (rewrite <- Zle_Qle; lia).
  assert (inject_Z m <= inject_Z 4294967295)%Q as M2 by (rewrite <- Zle_Qle; lia).
  change (inject_Z (-1)) with (-1)%Q in M1.
  change (inject_Z 4294967295) with 4294967295%Q in M2.
  assert (pow2 33 == 8589934592)%Q as E33 by reflexivity.
  destruct (b64_abs_err_sym (p * inject_Z m) 32) as (x & Hx & E1 & E2); [lia | |].
  { change (32 + 1) with 33. rewrite E33. split; nra. }
  exists x. split; [exact Hx|]. change (32 - 53) with (-21) in E1, E2.
  split; [exact E1|]. split; [exact E2|].
  intros M0. assert (0 <= inject_Z m)%Q as M0' by (change 0%Q with (inject_Z 0); now rewrite <- Zle_Qle).
  destruct (b64_between (p * inject_Z m) 0 m) as (x' & Hx' & B1 & B2);
    [lia | lia | change (inject_Z 0) with 0%Q; split; nra|].
  assert (x' = x) as -> by congruence. now split.
Qed.

Lemma frameIndexOf_Val (c : Config) (p x : Q) :
  b64 (p * inject_Z (totalFrames c - 1)) = Fin x ->
  frameIndexOf c (Val p) = Val (Qfloor x).
Proof. intros H. unfold frameIndexOf, floor_mul. now rewrite H. Qed.

(** ** [onScroll] *)

(** The three ways through the handler once the player is initialised. *)
Lemma onScroll_before (c : Config) (g : Layout) (st : State) :
  initialized st = true -> (scrollStart g < 0)%Q ->
  onScroll c g st = updateOverlay c false (set_inView (isInView g) st).
Proof.
  intros Hi Hs. unfold onScroll. rewrite bind_run. cbn [get fst snd].
  rewrite Hi. cbn [negb]. rewrite bind_run. cbn [modify fst snd].
  now rewrite (proj2 (Qltb_lt _ _) Hs).
Qed.

Lemma onScroll_past (c : Config) (g : Layout) (st : State) :
  initialized st = true -> (0 <= scrollStart g)%Q -> (scrollRange g < scrollStart g)%Q ->
  onScroll c g st
  = (drawFrame c (Val (totalFrames c - 1));;
     updateOverlay c false;;
     when (hasYearIndicator c) (updateYearIndicator c (Val 2016)))
      (set_inView (isInView g) st).
Proof.
  intros Hi Hs Hr. unfold onScroll. rewrite bind_run. cbn [get fst snd].
  rewrite Hi. cbn [negb]. rewrite bind_run. cbn [modify fst snd].
  now rewrite (proj2 (Qltb_ge _ _) Hs), (proj2 (Qltb_lt _ _) Hr).
Qed.

Lemma onScroll_within (c : Config) (g : Layout) (st : State) :
  initialized st = true -> (0 <= scrollStart g)%Q -> (scrollStart g <= scrollRange g)%Q ->
  let progress := progressOf (scrollStart g) (scrollRange g) in
  let frameIndex := frameIndexOf c progress in
  onScroll c g st
  = (when (strict_neq frameIndex (currentFrame st)) (frameChanged c frameIndex);;
     updateOverlay c (overlayShown progress))
      (set_inView (isInView g) st).
Proof.
  intros Hi Hs Hr. unfold onScroll. rewrite bind_run. cbn [get fst snd].
  rewrite Hi. cbn [negb]. rewrite bind_run. cbn [modify fst snd].
  now rewrite (proj2 (Qltb_ge _ _) Hs), (proj2 (Qltb_ge _ _) Hr).
Qed.

Lemma updateOverlay_run (c : Config) (show : bool) (st : State) :
  updateOverlay c show st
  = (tt, if overlay c then set_overlayVisible show st else st).
Proof. unfold updateOverlay. now destruct (overlay c). Qed.

Lemma updateYearIndicator_run (c : Config) (year : jsint) (st : State) :
  updateYearIndicator c year st
  = (tt, if yearEls c then set_yearText (Some year) st else st).
Proof. unfold updateYearIndicator. now destruct (yearEls c). Qed.

(** What [frameChanged] leaves behind. *)
Lemma frameChanged_player (c : Config) (frameIndex : jsint) (st : State) :
  let st' := exec (frameChanged c frameIndex) st in
  let year := clampYear (yearOf c frameIndex) in
  let fresh := hasYearIndicator c && strict_neq year (currentYear st) in
  currentFrame st' = frameIndex
  /\ currentYear st' = (if fresh then year else currentYear st)
  /\ yearText st' = (if fresh && yearEls c then Some year else yearText st)
  /\ images st' = images st.
Proof.
  intros st' year fresh. unfold st', frameChanged.
  rewrite !exec_bind. cbn beta.
  change (exec (modify (set_currentFrame frameIndex)) st)
    with (set_currentFrame frameIndex st).
  set (st1 := set_currentFrame frameIndex st).
  destruct (drawFrame_player c frameIndex st1) as (Hi2 & Hf2 & Hy2 & Ht2 & _).
  set (st2 := exec (drawFrame c frameIndex) st1) in *.
  rewrite (exec_of _ _ _ _ (preloadBuffer_run c frameIndex st2)).
  destruct (started_player c Dropped (prefetchTargets c frameIndex st2) st2)
    as (Hi3 & Hf3 & Hy3 & Ht3 & _).
  set (st3 := started c Dropped (prefetchTargets c frameIndex st2) st2) in *.
  assert (currentYear st3 = currentYear st) as Hy by (rewrite Hy3, Hy2; reflexivity).
  assert (currentFrame st3 = frameIndex) as Hf by (rewrite Hf3, Hf2; reflexivity).
  assert (yearText st3 = yearText st) as Ht by (rewrite Ht3, Ht2; reflexivity).
  assert (images st3 = images st) as Him by (rewrite Hi3, Hi2; reflexivity).
  unfold fresh. destruct (hasYearIndicator c); cbn [when andb]; [|auto].
  rewrite exec_bind. change (eval get st3) with st3. change (exec get st3) with st3.
  fold year. rewrite Hy. destruct (strict_neq year (currentYear st)); cbn [when andb]; [|auto].
  rewrite exec_bind.
  change (exec (modify (set_currentYear year)) st3) with (set_currentYear year st3).
  rewrite (exec_of _ _ _ _ (updateYearIndicator_run c year _)).
  destruct (yearEls c); cbn; auto.
Qed.

Lemma strict_neq_false (a b : jsint) :
  strict_neq a b = false -> exists z, a = Val z /\ b = Val z.
Proof.
  destruct a as [x|], b as [y|]; cbn; try discriminate.
  intros H. apply negb_false_iff, Z.eqb_eq in H as ->. now exists y.
Qed.

(** After a pass through the third branch, [currentFrame] is the frame
    the scroll position maps to, whether it changed or not. *)
Lemma onScroll_within_currentFrame (c : Config) (g : Layout) (st : State) :
  initialized st = true -> (0 <= scrollStart g)%Q -> (scrollStart g <= scrollRange g)%Q ->
  currentFrame (exec (onScroll c g) st)
  = frameIndexOf c (progressOf (scrollStart g) (scrollRange g)).
Proof.
  intros Hi Hs Hr. unfold exec. rewrite onScroll_within by assumption.
  set (p := progressOf _ _). set (fi := frameIndexOf c p).
  rewrite bind_run. rewrite updateOverlay_run. cbn [snd].
  set (st0 := set_inView (isInView g) st).
  assert (currentFrame ((when (strict_neq fi (currentFrame st)) (frameChanged c fi) st0).2) = fi)
    as Hcf.
  { destruct (strict_neq fi (currentFrame st)) eqn:E; cbn [when].
    - apply (frameChanged_player c fi st0).
    - apply strict_neq_false in E as (z & -> & Hz). cbn. now rewrite Hz. }
  destruct (overlay c); [cbn; exact Hcf | exact Hcf].
Qed.

(** Lines 300 and 301 for a position within a positive range, in a player
    that can be constructed. *)
Lemma frameIndexOf_in_range (c : Config) (s r : Q) :
  0 <= totalFrames c <= 4294967295 ->
  (0 <= s)%Q -> (s <= r)%Q -> (0 < r)%Q ->
  exists q p x : Q,
    b64 (s / r) = Fin q /\ progressOf s r = Val p /\ (p == clamp q 0 1)%Q
    /\ (0 <= p)%Q /\ (p <= 1)%Q
    /\ b64 (p * inject_Z (totalFrames c - 1)) = Fin x
    /\ frameIndexOf c (progressOf s r) = Val (Qfloor x)
    /\ exactFrame c s r - 1 <= Qfloor x <= exactFrame c s r + 1.
Proof.
  intros Hn Hs Hsr Hr.
  destruct (progressOf_in_range s r Hs Hsr Hr)
    as (q & p & Hq & Hp & Hclamp & _ & P0 & P1 & E1 & E2).
  destruct (product_rounded p (totalFrames c - 1) P0 P1) as (x & Hx & X1 & X2 & _); [lia|].
  exists q, p, x. split; [exact Hq|]. split; [exact Hp|]. split; [exact Hclamp|].
  split; [exact P0|]. split; [exact P1|]. split; [exact Hx|].
  split; [rewrite Hp; now apply frameIndexOf_Val|].
  unfold exactFrame, exactProgress. apply Qfloor_near.
  destruct (div_in_unit s r Hs Hsr Hr) as [D0 D1].
  assert (clamp (s / r) 0 1 == s / r)%Q as ->.
  { rewrite <- clamp01_clamp. rewrite Q.min_r by assumption. now apply Q.max_r. }
  set (m := inject_Z (totalFrames c - 1)) in *.
  assert (-1 <= m)%Q as M1
    by (unfold m; change (-1)%Q with (inject_Z (-1)); rewrite <- Zle_Qle; lia).
  assert (m <= 4294967295)%Q as M2
    by (unfold m; change 4294967295%Q with (inject_Z 4294967295); rewrite <- Zle_Qle; lia).
  assert (pow2 (-53) == 1 # 9007199254740992)%Q as E53 by reflexivity.
  assert (pow2 (-21) == 1 # 2097152)%Q as E21 by reflexivity.
  rewrite E53 in E1, E2. rewrite E21 in X1, X2. set (d := (s / r)%Q) in *.
  split; nra.
Qed.

(** C1 (as the code has it).  In an invocation of the handler with
    [0 <= scrollStart <= scrollRange] and [scrollRange > 0], in a player
    that can be constructed, the progress is [clamp(q, 0, 1)] for the
    binary64 quotient [q] of [scrollStart / scrollRange], and the frame
    index, which the handler leaves in [currentFrame], is the floor of the
    binary64 product of progress and [totalFrames - 1].  It is the frame
    index of the exact formula or next to it; with 480 frames and a range
    of 4000, a scroll of 2000 gives progress 1/2 and frame 239. *)
Theorem onScroll_progress_and_frame (c : Config) (g : Layout) (st : State) :
  initialized st = true ->
  0 <= totalFrames c <= 4294967295 ->
  (0 <= scrollStart g)%Q -> (scrollStart g <= scrollRange g)%Q ->
  (0 < scrollRange g)%Q ->
  exists quotient progress product : Q,
    b64 (scrollStart g / scrollRange g) = Fin quotient
    /\ progressOf (scrollStart g) (scrollRange g) = Val progress
    /\ (progress == clamp quotient 0 1)%Q
    /\ b64 (progress * inject_Z (totalFrames c - 1)) = Fin product
    /\ frameIndexOf c (Val progress) = Val (Qfloor product)
    /\ currentFrame (exec (onScroll c g) st) = Val (Qfloor product)
    /\ exactFrame c (scrollStart g) (scrollRange g) - 1 <= Qfloor product
       <= exactFrame c (scrollStart g) (scrollRange g) + 1
    /\ (totalFrames c = 480 -> (scrollRange g == 4000)%Q -> (scrollStart g == 2000)%Q ->
        (progress == 1 # 2)%Q /\ Qfloor product = 239).
Proof.
  intros Hi Hn Hs Hsr Hr.
  destruct (frameIndexOf_in_range c _ _ Hn Hs Hsr Hr)
    as (q & p & x & Hq & Hp & Hclamp & P0 & P1 & Hx & Hf & Hnear).
  exists q, p, x. split; [exact Hq|]. split; [exact Hp|]. split; [exact Hclamp|].
  split; [exact Hx|]. split; [now apply frameIndexOf_Val|].
  split; [rewrite onScroll_within_currentFrame by assumption; exact Hf|].
  split; [exact Hnear|].
  intros H480 Hr4000 Hs2000.
  assert (scrollStart g / scrollRange g == 1 # 2)%Q as Ediv
    by (rewrite Hr4000, Hs2000; reflexivity).
  assert (b64 (1 # 2) = Fin (1 # 2)) as Bhalf by (vm_compute; reflexivity).
  assert (q = 1 # 2) as -> by (rewrite (b64_comp _ _ Ediv), Bhalf in Hq; congruence).
  assert (p == 1 # 2)%Q as Ep by (rewrite Hclamp; reflexivity).
  split; [exact Ep|].
  assert (p * inject_Z (totalFrames c - 1) == 479 # 2)%Q as Eprod
    by (rewrite Ep, H480; reflexivity).
  assert (b64 (479 # 2) = Fin (479 # 2)) as B479 by (vm_compute; reflexivity).
  assert (x = 479 # 2) as -> by (rewrite (b64_comp _ _ Eprod), B479 in Hx; congruence).
  reflexivity.
Qed.

Lemma onScroll_progress_and_frame_witness :
  currentFrame (exec (onScroll cfg0 layout_mid) st_ready) = Val 239.
Proof.
  destruct (onScroll_progress_and_frame cfg0 layout_mid st_ready)
    as (q & p & x & _ & _ & _ & _ & _ & Hcf & _ & Hex);
    [reflexivity | vm_compute; split; discriminate | now vm_compute | now vm_compute
     | reflexivity |].
  rewrite Hcf. f_equal. apply Hex; reflexivity.
Defined.

(** C1 as stated, in exact arithmetic, fails where a rounding crosses an
    integer: with 480 frames and a range of 4790, at a scroll of 1210 the
    exact product is 121 and the binary64 product just below it, so the
    handler leaves frame 120. *)
Lemma onScroll_frame_is_rounded :
  initialized st_ready = true
  /\ (0 <= scrollStart layout_1210)%Q
  /\ (scrollStart layout_1210 <= scrollRange layout_1210)%Q
  /\ (0 < scrollRange layout_1210)%Q
  /\ exactFrame cfg0 (scrollStart layout_1210) (scrollRange layout_1210) = 121
  /\ currentFrame (exec (onScroll cfg0 layout_1210) st_ready) = Val 120.
Proof.
  split; [reflexivity|]. split; [now vm_compute|]. split; [now vm_compute|].
  split; [reflexivity|]. split; vm_compute; reflexivity.
Qed.

(** C7 (as the code has it).  In a player of at least one frame that can
    be constructed, for scroll positions [a < b] within [0, scrollRange]
    the frame mapped from [a] is at most the frame mapped from [b], and
    these are the frames the handler leaves in [currentFrame]. *)
Theorem frameIndex_monotone (c : Config) (a b r : Q) :
  1 <= totalFrames c <= 4294967295 ->
  (0 <= a)%Q -> (a < b)%Q -> (b <= r)%Q ->
  exists fa fb : Z,
    frameIndexOf c (progressOf a r) = Val fa
    /\ frameIndexOf c (progressOf b r) = Val fb
    /\ fa <= fb
    /\ (forall (g : Layout) (st : State),
          initialized st = true -> (scrollRange g == r)%Q ->
          ((scrollStart g == a)%Q -> currentFrame (exec (onScroll c g) st) = Val fa)
          /\ ((scrollStart g == b)%Q -> currentFrame (exec (onScroll c g) st) = Val fb)).
Proof.
  intros Hn Ha Hab Hbr.
  assert (0 < r)%Q as Hr by lra.
  assert (0 <= totalFrames c <= 4294967295) as Hn' by lia.
  destruct (frameIndexOf_in_range c a r Hn') as (qa & pa & xa & Hqa & Hpa & Ca & A0 & A1 & Hxa & Hfa & _);
    [lra | lra | lra |].
  destruct (frameIndexOf_in_range c b r Hn') as (qb & pb & xb & Hqb & Hpb & Cb & B0 & B1 & Hxb & Hfb & _);
    [lra | lra | lra |].
  exists (Qfloor xa), (Qfloor xb).
  split; [exact Hfa|]. split; [exact Hfb|]. split.
  - set (m := inject_Z (totalFrames c - 1)) in *.
    assert (0 <= m)%Q as Hm
      by (unfold m; change 0%Q with (inject_Z 0); rewrite <- Zle_Qle; lia).
    assert (a / r <= b / r)%Q as Hdiv.
    { apply Qmult_le_compat_r; [lra|]. apply Qlt_le_weak, Qinv_lt_0_compat, Hr. }
    pose proof (b64_mono _ _ Hdiv) as Hq. rewrite Hqa, Hqb in Hq. cbn [xle] in Hq.
    assert (pa <= pb)%Q as Hp.
    { rewrite Ca, Cb, <- !clamp01_clamp.
      apply Q.max_le_compat_l, Q.min_le_compat_l, Hq. }
    assert (pa * m <= pb * m)%Q as Hprod by (apply Qmult_le_compat_r; assumption).
    pose proof (b64_mono _ _ Hprod) as Hx. rewrite Hxa, Hxb in Hx. cbn [xle] in Hx.
    now apply Qfloor_resp_le.
  - intros g st Hi Hgr. split; intros Hgs.
    + rewrite onScroll_within_currentFrame;
        [ rewrite (progressOf_comp _ _ _ _ Hgs Hgr); exact Hfa
        | assumption | rewrite Hgs; lra | rewrite Hgs, Hgr; lra ].
    + rewrite onScroll_within_currentFrame;
        [ rewrite (progressOf_comp _ _ _ _ Hgs Hgr); exact Hfb
        | assumption | rewrite Hgs; lra | rewrite Hgs, Hgr; lra ].
Qed.

Lemma frameIndex_monotone_witness :
  exists fa fb : Z,
    frameIndexOf cfg0 (progressOf 1000 4000) = Val fa
    /\ frameIndexOf cfg0 (progressOf 2000 4000) = Val fb
    /\ fa <= fb.
Proof.
  destruct (frameIndex_monotone cfg0 1000 2000 4000) as (fa & fb & Ha & Hb & Hle & _);
    [vm_compute; split; discriminate | now vm_compute | reflexivity | now vm_compute |].
  exists fa, fb. auto.
Defined.

(** C7 as stated fails for the empty sequence, which can be constructed
    (and is initialised at once): [totalFrames - 1] is [-1], so the frame
    index falls from 0 at the start of the section to -1 at its end. *)
Lemma frameIndex_decreases_when_empty :
  construct cfg_empty = Some st_empty
  /\ initialized st_empty = true
  /\ (0 <= scrollStart layout_top)%Q
  /\ (scrollStart layout_top < scrollStart layout_end)%Q
  /\ (scrollStart layout_end <= scrollRange layout_end)%Q
  /\ (scrollRange layout_top == scrollRange layout_end)%Q
  /\ currentFrame (exec (onScroll cfg_empty layout_top) st_empty) = Val 0
  /\ currentFrame (exec (onScroll cfg_empty layout_end) st_empty) = Val (-1).
Proof.
  split; [reflexivity|]. split; [reflexivity|]. split; [now vm_compute|].
  split; [reflexivity|]. split; [now vm_compute|]. split; [reflexivity|].
  split; vm_compute; reflexivity.
Qed.

Lemma progressOf_before (s r : Q) : (s <= 0)%Q -> (0 < r)%Q ->
  exists p : Q, progressOf s r = Val p /\ (p == 0)%Q.
Proof.
  intros Hs Hr. unfold progressOf. rewrite js_div_pos by assumption.
  assert (s / r <= 0)%Q as Hdiv by (apply Qle_shift_div_r; [assumption | lra]).
  pose proof (b64_mono _ _ Hdiv) as Hq. rewrite b64_0 in Hq.
  destruct (b64 (s / r)) as [q| | |]; cbn [xle] in Hq; try contradiction.
  - exists (Qmax 0 (Qmin 1 q)). split; [reflexivity|].
    rewrite Q.min_r by lra. apply Q.max_l. assumption.
  - exists 0%Q. split; reflexivity.
Qed.

(** C9 (as the code has it).  With [scrollStart <= 0] and a positive
    scroll range, lines 300 and 301 give progress 0 and frame 0, and at
    [scrollStart = 0] the handler leaves frame 0 in [currentFrame].  With
    [scrollStart < 0], whatever the range, the handler only hides the
    overlay (and sets the [in-view] class): [currentFrame], the frame
    cache, the downloads and the canvas stay as they were. *)
Theorem onScroll_at_or_before_start (c : Config) (g : Layout) (st : State) :
  initialized st = true ->
  (scrollStart g <= 0)%Q ->
  ((0 < scrollRange g)%Q ->
     (exists p : Q, progressOf (scrollStart g) (scrollRange g) = Val p /\ (p == 0)%Q)
     /\ frameIndexOf c (progressOf (scrollStart g) (scrollRange g)) = Val 0
     /\ ((scrollStart g == 0)%Q -> currentFrame (exec (onScroll c g) st) = Val 0))
  /\ ((scrollStart g < 0)%Q ->
      let st' := exec (onScroll c g) st in
      st' = (if overlay c then set_overlayVisible false (set_inView (isInView g) st)
             else set_inView (isInView g) st)
      /\ overlayVisible st' = (if overlay c then false else overlayVisible st)
      /\ currentFrame st' = currentFrame st
      /\ images st' = images st
      /\ loadingFrames st' = loadingFrames st
      /\ pending st' = pending st
      /\ canvas st' = canvas st).
Proof.
  intros Hi Hs. split.
  - intros Hr. destruct (progressOf_before _ _ Hs Hr) as (p & Hp & Hp0).
    assert (frameIndexOf c (progressOf (scrollStart g) (scrollRange g)) = Val 0) as Hf.
    { rewrite Hp. apply (frameIndexOf_Val c p 0).
      rewrite (b64_comp _ 0); [reflexivity|]. rewrite Hp0. ring. }
    split; [now exists p|]. split; [assumption|].
    intros Hs0. rewrite onScroll_within_currentFrame; [assumption | assumption | |].
    + rewrite Hs0. apply Qle_refl.
    + rewrite Hs0. now apply Qlt_le_weak.
  - intros Hneg st'. unfold st', exec.
    rewrite onScroll_before, updateOverlay_run by assumption. cbn [snd].
    destruct (overlay c); cbn; auto 10.
Qed.

Lemma onScroll_at_or_before_start_witness :
  frameIndexOf cfg0 (progressOf (-50) 4000) = Val 0.
Proof.
  apply (onScroll_at_or_before_start cfg0
           {| rect_top := 50; rect_bottom := 4850 # 1;
              offsetHeight := 4800; innerHeight := 800 |} st_ready);
    [reflexivity | now vm_compute | reflexivity].
Defined.

(** C9 as stated fails at [scrollStart = 0] when the section is not
    taller than the viewport: the range is negative, the handler takes the
    branch [scrollStart > scrollRange] and asks for the last frame. *)
Lemma onScroll_start_of_short_section :
  (scrollStart layout_short <= 0)%Q
  /\ mappedFrame cfg0 layout_short = Some (Val 479)
  /\ onScroll cfg0 layout_short st_ready
     = (drawFrame cfg0 (Val 479);; updateOverlay cfg0 false;;
        when (hasYearIndicator cfg0) (updateYearIndicator cfg0 (Val 2016)))
         (set_inView (isInView layout_short) st_ready)
  /\ last (pending (exec (onScroll cfg0 layout_short) st_ready))
     = Some (mkFetch cfg0 AwaitDraw (Val 479)).
Proof.
  split; [now vm_compute|]. split; [reflexivity|]. split.
  - apply (onScroll_past cfg0 layout_short st_ready); [reflexivity | now vm_compute | reflexivity].
  - vm_compute. reflexivity.
Qed.



Lemma reachable_st_ready : reachable cfg0 st_ready.
Proof.
  apply (reach_step cfg0 st_loading); [now apply reach_construct|].
  apply (step_settle cfg0 true (mkFetch cfg0 AwaitInit (Val 0)) [] [] st_loading).
  reflexivity.
Qed.

Lemma reachable_st_last : reachable cfg0 st_last.
Proof.
  apply (reach_step cfg0 st_at_end).
  - apply (reach_step cfg0 st_ready); [apply reachable_st_ready|].
    now apply step_scroll.
  - apply step_settle. vm_compute. reflexivity.
Qed.


(** ** The year indicator *)



Example year_of_frame_239 : clampYear (yearOf cfg0 (Val 239)) = Val 2007.
Proof. reflexivity. Qed.




(** The branch past the section writes 2016 without recording it: a later
    frame of the year that [currentYear] still holds leaves 2016 on the
    indicator. *)
Example year_indicator_after_past_end :
  let st1 := exec (onScroll cfg0 layout_467) st_ready in
  let st2 := exec (onScroll cfg0 layout_past) st1 in
  let st3 := exec (onScroll cfg0 layout_455) st2 in
  yearText st1 = Some (Val 2015)
  /\ yearText st2 = Some (Val 2016) /\ currentYear st2 = Val 2015
  /\ currentFrame st3 = Val 455 /\ specYear cfg0 455 = 2015
  /\ yearText st3 = Some (Val 2016).
Proof. repeat split; vm_compute; reflexivity. Qed.

(** ** A download that fails *)

Lemma drawFrame_idle (c : Config) (i : jsint) (st : State) :
  ctx c = true -> out_of_range c i = false -> idle st i ->
  exec (drawFrame c i) st = started c AwaitDraw [i] st.
Proof.
  intros Hctx Hr Hidle. unfold drawFrame. rewrite Hctx. cbn [negb].
  rewrite exec_bind. change (eval get st) with st. change (exec get st) with st.
  destruct Hidle as [Hc Hl]. rewrite Hc. rewrite exec_bind.
  now rewrite (eval_of _ _ _ _ (loadFrame_idle c AwaitDraw i st Hr (conj Hc Hl))),
    (exec_of _ _ _ _ (loadFrame_idle c AwaitDraw i st Hr (conj Hc Hl))).
Qed.

Lemma drawFrame_no_ctx (c : Config) (i : jsint) (st : State) :
  ctx c = false -> drawFrame c i st = (tt, st).
Proof. intros H. unfold drawFrame. now rewrite H. Qed.

Lemma onError_run (f : Fetch) (st : State) :
  onSettled false f st = (None, set_loadingFrames (fun l => l ∖ {[f_index f]}) st).
Proof. reflexivity. Qed.

Lemma onLoad_run (f : Fetch) (st : State) :
  onSettled true f st
  = (Some {| img_src := f_src f |},
     set_loadingFrames (fun l => l ∖ {[f_index f]})
       (set_images (fun m => <[f_index f := {| img_src := f_src f |}]> m) st)).
Proof. reflexivity. Qed.

Lemma drawResume_run (v : option Image) (st : State) :
  drawResume v st
  = (tt, match v with
         | Some img => set_canvas (cons (Painted img)) st
         | None => match images st !! Val 0 with
                   | Some img0 => set_canvas (cons (Painted img0)) st
                   | None => st
                   end
         end).
Proof.
  unfold drawResume. rewrite bind_run. cbn [get fst snd].
  destruct v as [img|]; [reflexivity|]. now destruct (images st !! Val 0).
Qed.

(** The canvas after the download [f], awaited by [drawFrame], is settled. *)
Lemma settle_draw_canvas (c : Config) (ok : bool) (f : Fetch) (st : State) :
  f_await f = AwaitDraw ->
  canvas (exec (settle c ok f) st)
  = if ok then Painted {| img_src := f_src f |} :: canvas st
    else match images st !! Val 0 with
         | Some img0 => Painted img0 :: canvas st
         | None => canvas st
         end.
Proof.
  intros Hk. unfold settle. rewrite exec_bind, Hk. cbn [resume].
  destruct ok.
  - rewrite (eval_of _ _ _ _ (onLoad_run f st)), (exec_of _ _ _ _ (onLoad_run f st)).
    now rewrite (exec_of _ _ _ _ (drawResume_run _ _)).
  - rewrite (eval_of _ _ _ _ (onError_run f st)), (exec_of _ _ _ _ (onError_run f st)).
    rewrite (exec_of _ _ _ _ (drawResume_run _ _)).
    cbn [images set_loadingFrames]. now destruct (images st !! Val 0).
Qed.

Lemma range_inv_reachable (c : Config) (st : State) : reachable c st -> range_inv c st.
Proof.
  induction 1 as [st Hc|st st' _ IH Hstep].
  - apply construct_Some in Hc as [_ ->].
    apply (maintains_init c (range_inv c) (range_inv_same c) (range_inv_started c)).
    intros f Hf. now apply elem_of_nil in Hf.
  - destruct Hstep as [g st _|st _|ok f l1 l2 st Hp].
    + now apply (maintains_onScroll c (range_inv c) (range_inv_same c) (range_inv_started c)).
    + now apply (maintains_onResize c (range_inv c) (range_inv_same c) (range_inv_started c)).
    + unfold settle. rewrite exec_bind.
      apply (maintains_resume c (range_inv c) (range_inv_same c) (range_inv_started c)).
      assert (range_inv c (set_pending (fun _ => (l1 ++ l2)%list) st)) as H0.
      { intros f' Hf'. apply IH. rewrite Hp. cbn in Hf'.
        apply elem_of_app in Hf' as [?|?]; apply elem_of_app; [now left | right; now right]. }
      destruct ok; exact H0.
Qed.



Lemma reachable_st_at_50 : reachable cfg0 st_at_50.
Proof.
  apply (reach_step cfg0 st_ready); [apply reachable_st_ready|]. now apply step_scroll.
Qed.



(** * Further properties of the player *)

(** ** The range of the mapping *)

Lemma b64_not_NaN (q : Q) : b64 q <> XNaN.
Proof.
  unfold b64. destruct (q ?= 0)%Q; cbv zeta; [discriminate| |];
    destruct (Qle_bool _ _); discriminate.
Qed.

Lemma clamp01_unit (x : xnum) (p : Q) :
  clamp01 x = Val p -> (0 <= p)%Q /\ (p <= 1)%Q.
Proof.
  destruct x as [q| | |]; cbn; intros [= <-]; try (split; lra).
  split; [apply Q.le_max_l|].
  apply Q.max_lub; [lra | apply Q.le_min_l].
Qed.

Lemma clamp01_Val (x : xnum) : x <> XNaN -> exists p : Q, clamp01 x = Val p.
Proof. destruct x; cbn; eauto. congruence. Qed.

Lemma floor_mul_unit (p : Q) (m : Z) :
  (0 <= p)%Q -> (p <= 1)%Q -> 0 <= m <= 4294967295 ->
  exists z : Z, floor_mul (Val p) m = Val z /\ 0 <= z <= m.
Proof.
  intros H0 H1 Hm.
  destruct (product_rounded p m H0 H1) as (x & Hx & _ & _ & Hb); [lia|].
  destruct Hb as [X0 X1]; [lia|].
  exists (Qfloor x). cbn [floor_mul]. rewrite Hx. split; [reflexivity|]. split.
  - change 0 with (Qfloor 0). now apply Qfloor_resp_le.
  - rewrite <- (Qfloor_Z m). now apply Qfloor_resp_le.
Qed.

Lemma frameIndexOf_cases (c : Config) (s r : Q) :
  1 <= totalFrames c <= 4294967295 ->
  valid_frame c (frameIndexOf c (progressOf s r))
  /\ (frameIndexOf c (progressOf s r) = NaN <-> (s == 0)%Q /\ (r == 0)%Q).
Proof.
  intros Hn. unfold valid_frame, frameIndexOf, progressOf.
  assert (forall x : xnum, x <> XNaN ->
            exists z : Z, floor_mul (clamp01 x) (totalFrames c - 1) = Val z
                          /\ 0 <= z <= totalFrames c - 1) as Hval.
  { intros x Hx. destruct (clamp01_Val x Hx) as (p & Hp). rewrite Hp.
    destruct (clamp01_unit x p Hp). apply floor_mul_unit; [assumption..|lia]. }
  unfold js_div. destruct (Qeq_bool r 0) eqn:Er.
  - apply Qeq_bool_iff in Er.
    destruct (Qcompare_spec s 0) as [Hs|Hs|Hs].
    + split; [now left|]. split; [intros _; now split | reflexivity].
    + destruct (Hval NegInf) as (z & -> & Hz); [discriminate|].
      split; [right; now exists z|].
      split; [discriminate|]. intros [Hs0 _]. rewrite Hs0 in Hs.
      now apply Qlt_irrefl in Hs.
    + destruct (Hval PosInf) as (z & -> & Hz); [discriminate|].
      split; [right; now exists z|].
      split; [discriminate|]. intros [Hs0 _]. rewrite Hs0 in Hs.
      now apply Qlt_irrefl in Hs.
  - apply Qeq_bool_neq in Er.
    destruct (Hval (b64 (s / r)) (b64_not_NaN _)) as (z & -> & Hz).
    split; [right; now exists z|].
    split; [discriminate|]. intros [_ Hr]. contradiction.
Qed.

(** X1.  Whatever the scroll position and the scroll range, in a player of
    at least one frame that can be constructed lines 300 and 301 give a
    frame of the sequence (an index of [0 .. totalFrames - 1]) or [NaN],
    and [NaN] only for [0 / 0], that is when both the scroll position and
    the range are zero. *)
Theorem frameIndexOf_valid (c : Config) (s r : Q) :
  1 <= totalFrames c <= 4294967295 ->
  valid_frame c (frameIndexOf c (progressOf s r))
  /\ (frameIndexOf c (progressOf s r) = NaN <-> (s == 0)%Q /\ (r == 0)%Q).
Proof. apply frameIndexOf_cases. Qed.

Lemma frameIndexOf_valid_witness :
  valid_frame cfg0 (frameIndexOf cfg0 (progressOf 7 0)).
Proof. apply (frameIndexOf_valid cfg0 7 0). vm_compute. split; discriminate. Defined.

(** ** The overlay *)

(** The two constants of line 318. *)
Lemma b64_5_100 : b64 (5 # 100) = Fin (3602879701896397 # 72057594037927936).
Proof. vm_compute. reflexivity. Qed.

Lemma b64_95_100 : b64 (95 # 100) = Fin (4278419646001971 # 4503599627370496).
Proof. vm_compute. reflexivity. Qed.

Lemma Qltb_comp (a a' b b' : Q) : (a == a')%Q -> (b == b')%Q -> Qltb a b = Qltb a' b'.
Proof. intros Ea Eb. unfold Qltb. now rewrite (Qleb_comp _ _ Eb _ _ Ea). Qed.

Lemma overlayShown_progress (s r : Q) :
  (0 <= s)%Q -> (s <= r)%Q -> (0 < r)%Q ->
  overlayShown (progressOf s r)
  = x_gt (b64 (s / r)) (b64 (5 # 100)) && x_gt (b64 (95 # 100)) (b64 (s / r)).
Proof.
  intros Hs Hsr Hr.
  destruct (progressOf_in_range s r Hs Hsr Hr) as (q & p & -> & -> & _ & Hp & _).
  cbn [overlayShown]. rewrite b64_5_100, b64_95_100. cbn [x_gt].
  now rewrite (Qltb_comp _ _ p q (Qeq_refl _) Hp), (Qltb_comp p q _ _ Hp (Qeq_refl _)).
Qed.

(** X2.  After an invocation of the handler, the overlay of a section that
    has one is visible exactly when the scroll position lies within a
    positive scroll range and the binary64 quotient of the two lies
    strictly between the binary64 numbers [0.05] and [0.95].  Hence it is
    hidden before and past the section, for an empty range, and whenever
    the position is not strictly between 5% and 95% of the range; and it
    is visible from [0.050000000000001] to [0.949999999999999] of the
    range. *)
Theorem onScroll_overlay (c : Config) (g : Layout) (st : State) :
  initialized st = true -> overlay c = true ->
  let s := scrollStart g in
  let r := scrollRange g in
  let shown := overlayVisible (exec (onScroll c g) st) in
  (shown = true
   <-> (0 <= s)%Q /\ (s <= r)%Q /\ (0 < r)%Q
       /\ x_gt (b64 (s / r)) (b64 (5 # 100)) = true
       /\ x_gt (b64 (95 # 100)) (b64 (s / r)) = true)
  /\ (shown = true ->
      (0 < r)%Q /\ ((5 # 100) * r < s)%Q /\ (s < (95 # 100) * r)%Q)
  /\ ((0 < r)%Q ->
      ((50000000000001 # 1000000000000000) * r <= s)%Q ->
      (s <= (949999999999999 # 1000000000000000) * r)%Q ->
      shown = true).
Proof.
  intros Hi Ho s r shown.
  assert (shown = true
          <-> (0 <= s)%Q /\ (s <= r)%Q /\ (0 < r)%Q
              /\ x_gt (b64 (s / r)) (b64 (5 # 100)) = true
              /\ x_gt (b64 (95 # 100)) (b64 (s / r)) = true) as Hiff.
  { unfold shown, exec. fold s r.
    destruct (Qlt_le_dec s 0) as [Hs|Hs].
    - rewrite onScroll_before, updateOverlay_run, Ho by assumption. cbn.
      split; [discriminate | intros (H & _); lra].
    - destruct (Qlt_le_dec r s) as [Hr|Hr].
      + rewrite onScroll_past by assumption. rewrite !bind_run, updateOverlay_run, Ho.
        cbn [fst snd]. destruct (hasYearIndicator c); cbn [when];
          rewrite ?updateYearIndicator_run; destruct (yearEls c); cbn;
          (split; [discriminate | intros (_ & H & _); lra]).
      + rewrite onScroll_within by assumption. rewrite bind_run, updateOverlay_run, Ho.
        cbn [snd overlayVisible set_overlayVisible]. fold s r.
        destruct (Qlt_le_dec 0 r) as [Hpos|Hzero].
        * rewrite overlayShown_progress, andb_true_iff by assumption. tauto.
        * assert (r == 0)%Q as Hr0 by lra. assert (s == 0)%Q as Hs0 by lra.
          unfold progressOf, js_div.
          rewrite (proj2 (Qeq_bool_iff r 0) Hr0), (proj1 (Qeq_alt s 0) Hs0). cbn.
          split; [discriminate | intros (_ & _ & H & _); lra]. }
  split; [exact Hiff|]. split.
  - intros Hshown. apply Hiff in Hshown as (Hs & Hsr & Hr & Hlo & Hhi).
    split; [exact Hr|].
    destruct (div_in_unit s r Hs Hsr Hr) as [D0 D1].
    destruct (b64_unit (s / r) D0 D1) as (q & Hq & _).
    rewrite Hq, b64_5_100 in Hlo. rewrite Hq, b64_95_100 in Hhi.
    cbn [x_gt] in Hlo, Hhi. apply Qltb_lt in Hlo, Hhi.
    assert (5 # 100 < s / r)%Q as Hlo'.
    { apply Qnot_le_lt. intros C. pose proof (b64_mono _ _ C) as M.
      rewrite Hq, b64_5_100 in M. cbn [xle] in M. lra. }
    assert (s / r < 95 # 100)%Q as Hhi'.
    { apply Qnot_le_lt. intros C. pose proof (b64_mono _ _ C) as M.
      rewrite Hq, b64_95_100 in M. cbn [xle] in M. lra. }
    assert (s == s / r * r)%Q as Es by (field; lra).
    set (d := (s / r)%Q) in *. split; nra.
  - intros Hr Hlo Hhi. apply Hiff.
    assert (0 <= s)%Q as Hs by nra. assert (s <= r)%Q as Hsr by nra.
    split; [exact Hs|]. split; [exact Hsr|]. split; [exact Hr|].
    destruct (div_in_unit s r Hs Hsr Hr) as [D0 D1].
    destruct (b64_unit (s / r) D0 D1) as (q & Hq & _).
    assert (50000000000001 # 1000000000000000 <= s / r)%Q as Hlo'
      by (apply Qle_shift_div_l; assumption).
    assert (s / r <= 949999999999999 # 1000000000000000)%Q as Hhi'
      by (apply Qle_shift_div_r; assumption).
    pose proof (b64_mono _ _ Hlo') as M1. pose proof (b64_mono _ _ Hhi') as M2.
    assert (b64 (50000000000001 # 1000000000000000)
            = Fin (3602879701896469 # 72057594037927936)) as B1 by (vm_compute; reflexivity).
    assert (b64 (949999999999999 # 1000000000000000)
            = Fin (8556839292003933 # 9007199254740992)) as B2 by (vm_compute; reflexivity).
    rewrite Hq, B1 in M1. rewrite Hq, B2 in M2. cbn [xle] in M1, M2.
    rewrite Hq, b64_5_100, b64_95_100. cbn [x_gt].
    split; apply Qltb_lt; lra.
Qed.

Lemma onScroll_overlay_witness :
  overlayVisible (exec (onScroll cfg0 layout_mid) st_ready) = true.
Proof.
  apply (onScroll_overlay cfg0 layout_mid st_ready);
    [reflexivity | reflexivity | reflexivity | now vm_compute | now vm_compute].
Defined.

(** Between 5% of the range and the next binary64 quotient above [0.05]
    the overlay stays hidden: at a scroll by the binary64 number next above
    250 in a range of 5000 the quotient is rounded to [0.05]. *)
Example overlay_hidden_just_above_5_percent :
  ((5 # 100) * scrollRange layout_250 < scrollStart layout_250)%Q
  /\ overlayVisible (exec (onScroll cfg0 layout_250) st_ready) = false.
Proof. split; [reflexivity | vm_compute; reflexivity]. Qed.

(** ** Addresses of distinct frames *)

Lemma append_cancel_l (p a b : string) : p ++ a = p ++ b -> a = b.
Proof. induction p as [|ch p IH]; cbn; [trivial | intros [= H]; auto]. Qed.

Lemma append_cancel_r (a b p : string) : a ++ p = b ++ p -> a = b.
Proof.
  revert b. induction a as [|x a IH]; intros [|y b] H.
  - reflexivity.
  - exfalso. apply (f_equal String.length) in H.
    change ("" ++ p) with p in H. rewrite length_append in H. cbn [String.length] in H. lia.
  - exfalso. apply (f_equal String.length) in H.
    change ("" ++ p) with p in H. rewrite length_append in H. cbn [String.length] in H. lia.
  - cbn in H. injection H as -> H. f_equal. now apply IH.
Qed.

Lemma getFrameSrc_substituted (c : Config) (i : jsint) :
  getFrameSrc c i
  = sequenceName c ++ "/" ++ substituted "{frame}" (frameNum c i) (pattern c).
Proof. unfold getFrameSrc. now rewrite replace_substituted. Qed.

(** X3.  With a pattern that holds the placeholder, two different frames
    whose numbers [startFrame + i] lie in [0 .. 2^53] have different
    addresses: no two slots of the cache are loaded from one file. *)
Theorem getFrameSrc_injective (c : Config) (k : nat) (i j : Z) :
  first_index "{frame}" (pattern c) = Some k ->
  0 <= startFrame c + i <= 2 ^ 53 -> 0 <= startFrame c + j <= 2 ^ 53 ->
  i <> j -> getFrameSrc c (Val i) <> getFrameSrc c (Val j).
Proof.
  intros Hk Hi Hj Hne Heq. rewrite !getFrameSrc_substituted in Heq.
  unfold substituted in Heq. rewrite Hk in Heq.
  apply append_cancel_l in Heq. apply (append_cancel_l "/") in Heq.
  apply append_cancel_l, append_cancel_r in Heq.
  rewrite !frameNum_safe in Heq by lia.
  pose proof (decimal_value_padStart (padding c) (startFrame c + i) ltac:(lia)) as Hvi.
  pose proof (decimal_value_padStart (padding c) (startFrame c + j) ltac:(lia)) as Hvj.
  rewrite Heq, Hvj in Hvi. injection Hvi as Hvi. lia.
Qed.

Lemma getFrameSrc_injective_witness :
  getFrameSrc cfg0 (Val 41) <> getFrameSrc cfg0 (Val 42).
Proof.
  apply (getFrameSrc_injective cfg0 6%nat 41 42);
    [reflexivity | vm_compute; split; discriminate | vm_compute; split; discriminate
     | discriminate].
Defined.

(** X4.  With a pattern in which [{frame}] does not occur, [replace] finds
    nothing to replace and every frame, [NaN] included, is loaded from the
    one address [sequenceName/pattern]. *)
Theorem getFrameSrc_without_placeholder (c : Config) (i : jsint) :
  first_index "{frame}" (pattern c) = None ->
  getFrameSrc c i = sequenceName c ++ "/" ++ pattern c.
Proof.
  intros Hk. rewrite getFrameSrc_substituted. unfold substituted. now rewrite Hk.
Qed.

Lemma getFrameSrc_without_placeholder_witness :
  getFrameSrc
    {| sequenceName := "seq"; startFrame := 1; endFrame := 9; pattern := "still{b}.png";
       padding := 3; framesPerYear := 0; startYear := 2000;
       ctx := true; overlay := true; yearEls := true |} (Val 7)
  = "seq/still{b}.png".
Proof. now apply getFrameSrc_without_placeholder. Defined.

(** ** More on [preloadBuffer] *)

Lemma started_marks (c : Config) (k : Awaiter) (T : list jsint) (st : State) (i : jsint) :
  i ∈ loadingFrames (started c k T st) <-> i ∈ loadingFrames st \/ i ∈ T.
Proof. unfold started. cbn. set_solver. Qed.

Lemma prefetchTargets_elem (c : Config) (center z : Z) (st : State) :
  Val z ∈ prefetchTargets c (Val center) st
  <-> Z.max 0 (center - 15) <= z <= Z.min (totalFrames c - 1) (center + 15)
      /\ idle st (Val z).
Proof.
  unfold prefetchTargets, window. rewrite list_elem_of_fmap. split.
  - intros (y & [= <-] & Hy). apply list_elem_of_filter in Hy as [Hidle Hy].
    apply elem_of_seqZ in Hy. split; [lia | assumption].
  - intros [Hz Hidle]. exists z. split; [reflexivity|].
    apply list_elem_of_filter. split; [assumption|]. apply elem_of_seqZ. lia.
Qed.

(** X5.  After [preloadBuffer(center)] every frame of the window around
    [center] is cached or in flight, and a second call right after starts
    nothing: it leaves the player as the first call left it. *)
Theorem preloadBuffer_covers (c : Config) (center : Z) (st : State) :
  let st' := exec (preloadBuffer c (Val center)) st in
  window_covered c center st'
  /\ prefetchTargets c (Val center) st' = []
  /\ exec (preloadBuffer c (Val center)) st' = st'.
Proof.
  intros st'.
  assert (st' = started c Dropped (prefetchTargets c (Val center) st) st) as Hst'
    by (unfold st'; apply (exec_of _ _ _ _ (preloadBuffer_run c (Val center) st))).
  assert (window_covered c center st') as Hcov.
  { intros z Hz. destruct (decide (idle st (Val z))) as [Hidle|Hbusy].
    - right. rewrite Hst'. apply started_marks. right.
      apply prefetchTargets_elem. split; assumption.
    - rewrite Hst'. unfold idle in Hbusy.
      destruct (images st !! Val z) as [img|] eqn:Hc; [left; cbn; rewrite Hc; eauto|].
      right. apply started_marks. left.
      destruct (decide (Val z ∈ loadingFrames st)); [assumption | tauto]. }
  assert (prefetchTargets c (Val center) st' = []) as Hnone.
  { destruct (prefetchTargets c (Val center) st') as [|i T] eqn:E; [reflexivity|exfalso].
    assert (i ∈ prefetchTargets c (Val center) st') as Hi by (rewrite E; now left).
    assert (exists z, i = Val z) as [z ->].
    { unfold prefetchTargets in Hi. apply list_elem_of_fmap in Hi as (z & -> & _). eauto. }
    apply prefetchTargets_elem in Hi as [Hz [Hc Hl]].
    destruct (Hcov z Hz) as [[img Himg]|Hin]; [congruence | contradiction]. }
  split; [assumption|]. split; [assumption|].
  rewrite (exec_of _ _ _ _ (preloadBuffer_run c (Val center) st')), Hnone.
  apply started_nil.
Qed.

(** X6.  One call of [preloadBuffer] starts at most [2 * 15 + 1 = 31]
    downloads, all of frames in range, and removes none. *)
Theorem preloadBuffer_at_most_31 (c : Config) (centerFrame : jsint) (st : State) :
  let st' := exec (preloadBuffer c centerFrame) st in
  exists new : list Fetch,
    pending st' = (pending st ++ new)%list
    /\ (length new <= 31)%nat
    /\ forall f, f ∈ new -> out_of_range c (f_index f) = false /\ f_await f = Dropped.
Proof.
  intros st'. unfold st'.
  rewrite (exec_of _ _ _ _ (preloadBuffer_run c centerFrame st)).
  exists (mkFetch c Dropped <$> prefetchTargets c centerFrame st).
  split; [reflexivity|]. split.
  - rewrite length_fmap. destruct centerFrame as [center|]; cbn [prefetchTargets];
      [|cbn; lia].
    rewrite length_fmap. etransitivity; [apply length_filter|].
    unfold window. rewrite length_seqZ. lia.
  - intros f Hf. apply list_elem_of_fmap in Hf as (i & -> & Hi). split; [|reflexivity].
    destruct centerFrame as [center|]; cbn [prefetchTargets] in Hi;
      [|now apply elem_of_nil in Hi].
    apply list_elem_of_fmap in Hi as (z & -> & Hz).
    apply list_elem_of_filter in Hz as [_ Hz]. apply elem_of_seqZ in Hz.
    apply in_range_Val. lia.
Qed.

(** ** [drawFrame] while the frame is on its way *)

(** X7.  [drawFrame(i)] for a frame that is not cached but in flight (a
    prefetch, say) does not wait for it: [loadFrame] answers [null], and
    the cached frame 0 is painted at once (nothing when frame 0 is not
    cached), without a new download.  When the prefetch is settled later,
    nobody awaits it and the canvas is not repainted. *)
Theorem drawFrame_in_flight (c : Config) (i : jsint) (st : State) :
  ctx c = true -> images st !! i = None -> i ∈ loadingFrames st ->
  let st' := exec (drawFrame c i) st in
  canvas st' = fallback st
  /\ pending st' = pending st /\ loadingFrames st' = loadingFrames st
  /\ images st' = images st
  /\ forall (ok : bool) (f : Fetch) (st2 : State),
       f_await f = Dropped -> canvas (exec (settle c ok f) st2) = canvas st2.
Proof.
  intros Hctx Hc Hl st'.
  assert (loadFrame c AwaitDraw i st = (Settled None, st)) as Hload.
  { destruct (out_of_range c i) eqn:Hr; [unfold loadFrame; now rewrite Hr|].
    now apply loadFrame_in_flight. }
  assert (st' = exec (drawResume None) st) as ->.
  { unfold st', drawFrame. rewrite Hctx. cbn [negb]. rewrite exec_bind.
    change (eval get st) with st. change (exec get st) with st. rewrite Hc.
    now rewrite exec_bind, (eval_of _ _ _ _ Hload), (exec_of _ _ _ _ Hload). }
  rewrite (exec_of _ _ _ _ (drawResume_run None st)). unfold fallback.
  split; [now destruct (images st !! Val 0)|].
  split; [now destruct (images st !! Val 0)|].
  split; [now destruct (images st !! Val 0)|].
  split; [now destruct (images st !! Val 0)|].
  intros ok f st2 Hk. unfold settle. rewrite exec_bind, Hk. cbn [resume].
  destruct ok; reflexivity.
Qed.

Lemma drawFrame_in_flight_witness :
  canvas (exec (drawFrame cfg0 (Val 7)) st_ready)
  = Painted {| img_src := getFrameSrc cfg0 (Val 0) |} :: canvas st_ready.
Proof.
  apply (drawFrame_in_flight cfg0 (Val 7) st_ready);
    [reflexivity | reflexivity | vm_compute; reflexivity].
Defined.

(** ** What every task of the event loop maintains *)

Lemma loadFrame_settled (c : Config) (k : Awaiter) (i : jsint) (img : Image) (st : State) :
  eval (loadFrame c k i) st = Settled (Some img) -> images st !! i = Some img.
Proof.
  destruct (out_of_range c i) eqn:Hr.
  - unfold eval, loadFrame. rewrite Hr. cbn. discriminate.
  - destruct (images st !! i) as [img'|] eqn:Hc.
    + rewrite (eval_of _ _ _ _ (loadFrame_cached c k i img' st Hr Hc)). congruence.
    + destruct (decide (i ∈ loadingFrames st)) as [Hl|Hl].
      * rewrite (eval_of _ _ _ _ (loadFrame_in_flight c k i st Hr Hc Hl)). discriminate.
      * rewrite (eval_of _ _ _ _ (loadFrame_idle c k i st Hr (conj Hc Hl))). discriminate.
Qed.

(** A property of the player holds in every state the player goes through
    as soon as the constructor establishes it and each elementary update
    keeps it: the setters with the values the handlers compute ([Qf] for
    frames, [Qy] for years), the start of a download of an idle frame in
    range, the painting of a cached image, and the two handlers of a
    settled download. *)
Section Invariant.
Variable c : Config.
Variable P : State -> Prop.
Variables Qf Qy : jsint -> Prop.
Hypothesis P_inView : forall b st, P st -> P (set_inView b st).
Hypothesis P_overlay : forall b st, P st -> P (set_overlayVisible b st).
Hypothesis P_yearText : forall y st, Qy y -> P st -> P (set_yearText (Some y) st).
Hypothesis P_currentYear : forall y st, Qy y -> P st -> P (set_currentYear y st).
Hypothesis P_currentFrame : forall fi st, Qf fi -> P st -> P (set_currentFrame fi st).
Hypothesis P_initialized : forall st, P st -> P (set_initialized true st).
Hypothesis P_started : forall k i st,
  out_of_range c i = false -> idle st i -> P st -> P (started c k [i] st).
Hypothesis P_paint : forall j img st,
  images st !! j = Some img -> P st -> P (set_canvas (cons (Painted img)) st).
Hypothesis P_resized : forall st, P st -> P (set_canvas (cons Resized) st).
Hypothesis Qf_mapped : forall s r, Qf (frameIndexOf c (progressOf s r)).
Hypothesis Qy_clamped : forall fi, Qy (clampYear (yearOf c fi)).
Hypothesis Qy_2016 : Qy (Val 2016).
Hypothesis Qy_start : Qy (Val (startYear c)).

Lemma kept_loadFrame (k : Awaiter) (i : jsint) : maintains P (loadFrame c k i).
Proof.
  intros st H. destruct (loadFrame_cases c k i st) as [(-> & _)|(Hrun & Hr & Hidle)].
  - exact H.
  - rewrite (exec_of _ _ _ _ Hrun). now apply P_started.
Qed.

Lemma kept_preload_loop (n : nat) : forall i, maintains P (preload_loop c n i).
Proof.
  induction n as [|n IH]; intros i; cbn [preload_loop]; [apply maintains_skip|].
  apply maintains_bind; [apply maintains_get | intros st0].
  apply maintains_bind; [|intros _; apply IH].
  apply maintains_when, maintains_bind; [apply kept_loadFrame | intros _; apply maintains_skip].
Qed.

Lemma kept_preloadBuffer (centerFrame : jsint) : maintains P (preloadBuffer c centerFrame).
Proof.
  destruct centerFrame; cbn [preloadBuffer]; [apply kept_preload_loop | apply maintains_skip].
Qed.

Lemma kept_setupCanvas : maintains P setupCanvas.
Proof.
  intros st H. unfold setupCanvas. rewrite exec_bind.
  change (eval get st) with st. change (exec get st) with st.
  destruct (images st !! Val 0); [now apply P_resized | exact H].
Qed.

Lemma kept_drawResume (v : option Image) (st : State) :
  (forall img, v = Some img -> exists j, images st !! j = Some img) ->
  P st -> P (exec (drawResume v) st).
Proof.
  intros Hv H. rewrite (exec_of _ _ _ _ (drawResume_run v st)).
  destruct v as [img|].
  - destruct (Hv img eq_refl) as [j Hj]. now apply (P_paint j).
  - destruct (images st !! Val 0) as [img0|] eqn:H0; [now apply (P_paint (Val 0)) | exact H].
Qed.

Lemma kept_drawFrame (index : jsint) : maintains P (drawFrame c index).
Proof.
  intros st H. unfold drawFrame. destruct (ctx c); [|exact H]. cbn [negb].
  rewrite exec_bind. change (eval get st) with st. change (exec get st) with st.
  destruct (images st !! index) as [img|] eqn:Hc; [now apply (P_paint index)|].
  rewrite exec_bind.
  destruct (loadFrame_cases c AwaitDraw index st) as [(Hs & Hw & _)|(Hrun & Hr & Hidle)].
  - rewrite Hs. destruct (eval (loadFrame c AwaitDraw index) st) as [v|] eqn:Hv; [|congruence].
    apply kept_drawResume; [|exact H].
    intros img ->. exists index. now apply (loadFrame_settled c AwaitDraw).
  - rewrite (exec_of _ _ _ _ Hrun), (eval_of _ _ _ _ Hrun). now apply P_started.
Qed.

Lemma kept_updateYearIndicator (year : jsint) :
  Qy year -> maintains P (updateYearIndicator c year).
Proof.
  intros Hy st H. rewrite (exec_of _ _ _ _ (updateYearIndicator_run c year st)).
  destruct (yearEls c); [now apply P_yearText | exact H].
Qed.

Lemma kept_updateOverlay (show : bool) : maintains P (updateOverlay c show).
Proof.
  intros st H. rewrite (exec_of _ _ _ _ (updateOverlay_run c show st)).
  destruct (overlay c); [now apply P_overlay | exact H].
Qed.

Lemma kept_frameChanged (frameIndex : jsint) :
  Qf frameIndex -> maintains P (frameChanged c frameIndex).
Proof.
  intros Hf. unfold frameChanged.
  apply maintains_bind; [intros st H; now apply P_currentFrame | intros _].
  apply maintains_bind; [apply kept_drawFrame | intros _].
  apply maintains_bind; [apply kept_preloadBuffer | intros _].
  apply maintains_when. cbv zeta.
  apply maintains_bind; [apply maintains_get | intros st0].
  apply maintains_when, maintains_bind.
  - intros st H. now apply P_currentYear.
  - intros _. now apply kept_updateYearIndicator.
Qed.

Lemma kept_onScroll (g : Layout) : maintains P (onScroll c g).
Proof.
  unfold onScroll. apply maintains_bind; [apply maintains_get | intros st0].
  destruct (negb (initialized st0)); [apply maintains_skip|]. cbv zeta.
  apply maintains_bind; [intros st H; now apply P_inView | intros _].
  destruct (Qltb (scrollStart g) 0); [apply kept_updateOverlay|].
  destruct (Qltb (scrollRange g) (scrollStart g)).
  - apply maintains_bind; [apply kept_drawFrame | intros _].
    apply maintains_bind; [apply kept_updateOverlay | intros _].
    now apply maintains_when, kept_updateYearIndicator.
  - apply maintains_bind; [|intros _; apply kept_updateOverlay].
    now apply maintains_when, kept_frameChanged.
Qed.

Lemma kept_onResize : maintains P (onResize c).
Proof.
  unfold onResize. apply maintains_bind; [apply kept_setupCanvas | intros _].
  apply maintains_bind; [apply maintains_get | intros st0; apply kept_drawFrame].
Qed.

Lemma kept_initResume : maintains P (initResume c).
Proof.
  unfold initResume.
  apply maintains_bind; [apply kept_setupCanvas | intros _].
  apply maintains_bind; [apply kept_drawFrame | intros _].
  apply maintains_bind; [intros st H; now apply P_initialized | intros _].
  apply maintains_bind; [apply kept_preloadBuffer | intros _].
  now apply maintains_when, kept_updateYearIndicator.
Qed.

Lemma kept_init : maintains P (init c).
Proof.
  unfold init. apply maintains_bind; [apply kept_loadFrame | intros p].
  destruct p; [apply kept_initResume | apply maintains_skip].
Qed.

Hypothesis P_blank : P (blank c).
Hypothesis P_settled : forall ok f l1 l2 st,
  reachable c st -> P st -> pending st = (l1 ++ f :: l2)%list ->
  P (exec (onSettled ok f) (set_pending (fun _ => (l1 ++ l2)%list) st)).

Lemma kept_reachable (st : State) : reachable c st -> P st.
Proof.
  induction 1 as [st Hc|st st' Hreach IH Hstep].
  - apply construct_Some in Hc as [_ ->]. apply kept_init, P_blank.
  - destruct Hstep as [g st _|st _|ok f l1 l2 st Hp].
    + now apply kept_onScroll.
    + now apply kept_onResize.
    + pose proof (P_settled ok f l1 l2 st Hreach IH Hp) as H1.
      unfold settle. rewrite exec_bind.
      set (st0 := set_pending (fun _ => (l1 ++ l2)%list) st) in *.
      destruct (f_await f); cbn [resume].
      * exact H1.
      * apply kept_drawResume; [|exact H1]. intros img Hv.
        exists (f_index f). destruct ok.
        -- rewrite (eval_of _ _ _ _ (onLoad_run f st0)) in Hv. injection Hv as <-.
           rewrite (exec_of _ _ _ _ (onLoad_run f st0)). cbn. apply lookup_insert_eq.
        -- rewrite (eval_of _ _ _ _ (onError_run f st0)) in Hv. discriminate.
      * now apply kept_initResume.
Qed.
End Invariant.

(** ** The cache and the canvas hold this sequence only *)

Lemma cache_inv_same (c : Config) (st st' : State) :
  images st' = images st -> pending st' = pending st -> canvas st' = canvas st ->
  cache_inv c st -> cache_inv c st'.
Proof. intros Hi Hp Hc [H1 H2 H3]. split; rewrite ?Hi, ?Hp, ?Hc; assumption. Qed.

Lemma cache_inv_started (c : Config) (k : Awaiter) (i : jsint) (st : State) :
  cache_inv c st -> cache_inv c (started c k [i] st).
Proof.
  intros [H1 H2 H3]. split; cbn; [|assumption..].
  intros f Hf. apply elem_of_app in Hf as [Hf|Hf]; [now apply H1|].
  apply list_elem_of_singleton in Hf as ->. reflexivity.
Qed.

Lemma cache_inv_paint (c : Config) (j : jsint) (img : Image) (st : State) :
  images st !! j = Some img -> cache_inv c st ->
  cache_inv c (set_canvas (cons (Painted img)) st).
Proof.
  intros Hj [H1 H2 H3]. split; cbn; [assumption..|].
  intros img' Hin. apply elem_of_cons in Hin as [[= ->]|Hin]; [now exists j | now apply H3].
Qed.

Lemma cache_inv_resized (c : Config) (st : State) :
  cache_inv c st -> cache_inv c (set_canvas (cons Resized) st).
Proof.
  intros [H1 H2 H3]. split; cbn; [assumption..|].
  intros img Hin. apply elem_of_cons in Hin as [[=]|Hin]. now apply H3.
Qed.

Lemma cache_inv_settled (c : Config) (ok : bool) (f : Fetch) (l1 l2 : list Fetch)
    (st : State) :
  reachable c st -> cache_inv c st -> pending st = (l1 ++ f :: l2)%list ->
  cache_inv c (exec (onSettled ok f) (set_pending (fun _ => (l1 ++ l2)%list) st)).
Proof.
  intros Hreach [H1 H2 H3] Hp.
  pose proof (net_inv_reachable c st Hreach) as Hnet.
  pose proof (range_inv_reachable c st Hreach) as Hrange.
  assert (f ∈ pending st) as Hf by (rewrite Hp; apply elem_of_app; right; now left).
  assert (forall f', f' ∈ (l1 ++ l2)%list -> f' ∈ pending st) as Hsub.
  { intros f' Hf'. rewrite Hp. apply elem_of_app in Hf' as [?|?]; apply elem_of_app;
      [now left | right; now right]. }
  destruct (inv_marked st Hnet f Hf) as [_ Hempty].
  destruct ok.
  - rewrite (exec_of _ _ _ _ (onLoad_run f _)). split; cbn.
    + intros f' Hf'. now apply H1, Hsub.
    + intros i img Hi. destruct (decide (f_index f = i)) as [<-|Hne].
      * rewrite lookup_insert_eq in Hi. injection Hi as <-.
        split; [now rewrite (H1 f Hf) | now apply Hrange].
      * rewrite lookup_insert_ne in Hi by assumption. now apply H2.
    + intros img Hin. destruct (H3 img Hin) as [j Hj]. exists j.
      rewrite lookup_insert_ne; [assumption | congruence].
  - rewrite (exec_of _ _ _ _ (onError_run f _)). split; cbn; [|assumption..].
    intros f' Hf'. now apply H1, Hsub.
Qed.

Lemma cache_inv_reachable (c : Config) (st : State) : reachable c st -> cache_inv c st.
Proof.
  apply (kept_reachable c (cache_inv c) (fun _ => True) (fun _ => True)); try done.
  - intros b s. now apply cache_inv_same.
  - intros b s. now apply cache_inv_same.
  - intros y s _. now apply cache_inv_same.
  - intros y s _. now apply cache_inv_same.
  - intros fi s _. now apply cache_inv_same.
  - intros s. now apply cache_inv_same.
  - intros k i s _ _. apply cache_inv_started.
  - apply cache_inv_paint.
  - apply cache_inv_resized.
  - split; cbn; [intros f Hf; now apply elem_of_nil in Hf | intros i img Hi; now rewrite lookup_empty in Hi
                | intros img Hin; now apply elem_of_nil in Hin].
  - intros ok f l1 l2 s. apply cache_inv_settled.
Qed.

Lemma in_range_valid (c : Config) (i : jsint) :
  out_of_range c i = false <-> valid_frame c i.
Proof.
  unfold valid_frame. destruct i as [z|]; cbn [out_of_range].
  - rewrite orb_false_iff, Z.ltb_ge, Z.leb_gt. split.
    + intros [H1 H2]. right. exists z. split; [reflexivity | lia].
    + intros [[=]|(z' & [= <-] & Hz)]. lia.
  - split; [now left | reflexivity].
Qed.

(** X8.  In every state a player goes through, a slot of the frame cache
    that holds an image holds the image loaded from the address of its own
    frame, and only slots that pass the range test of [loadFrame] are ever
    filled: those of the indices [0 .. totalFrames - 1], and the slot
    [NaN], which that test lets through. *)
Theorem cache_holds_own_frames (c : Config) (st : State) (i : jsint) (img : Image) :
  reachable c st -> images st !! i = Some img ->
  img_src img = getFrameSrc c i
  /\ (i = NaN \/ exists z : Z, i = Val z /\ 0 <= z <= totalFrames c - 1).
Proof.
  intros Hreach Hi. destruct (inv_slot c st (cache_inv_reachable c st Hreach) i img Hi)
    as [-> Hr]. split; [reflexivity | now apply in_range_valid].
Qed.

Lemma cache_holds_own_frames_witness :
  img_src {| img_src := getFrameSrc cfg0 (Val 479) |} = getFrameSrc cfg0 (Val 479)
  /\ (Val 479 = NaN \/ exists z : Z, Val 479 = Val z /\ 0 <= z <= totalFrames cfg0 - 1).
Proof.
  apply (cache_holds_own_frames cfg0 st_last (Val 479));
    [apply reachable_st_last | vm_compute; reflexivity].
Defined.

(** The slot [NaN] does get filled: a scroll event with position and range
    both zero maps to [NaN], which [loadFrame] takes for a frame and loads
    from the address that [getFrameSrc] renders for it. *)
Example cache_slot_NaN_filled :
  reachable cfg0 st_nan_loaded
  /\ currentFrame st_nan_loaded = NaN
  /\ images st_nan_loaded !! NaN = Some {| img_src := "assets/seq1/renderNaN.png" |}.
Proof.
  split; [|split; vm_compute; reflexivity].
  apply (reach_step cfg0 st_nan).
  - apply (reach_step cfg0 st_ready); [apply reachable_st_ready | now apply step_scroll].
  - apply (step_settle cfg0 true (mkFetch cfg0 AwaitDraw NaN) (take 15 (pending st_nan)) []).
    vm_compute. reflexivity.
Qed.

(** X9.  In every state a player goes through, every image that was
    painted on the canvas is in the frame cache: the canvas only ever shows
    frames of the sequence, loaded from their own addresses. *)
Theorem canvas_shows_cached_frames (c : Config) (st : State) (img : Image) :
  reachable c st -> Painted img ∈ canvas st ->
  exists i : jsint,
    images st !! i = Some img /\ img_src img = getFrameSrc c i
    /\ out_of_range c i = false.
Proof.
  intros Hreach Hin. pose proof (cache_inv_reachable c st Hreach) as Hinv.
  destruct (inv_painted c st Hinv img Hin) as [i Hi]. exists i.
  destruct (inv_slot c st Hinv i img Hi) as [-> Hr]. auto.
Qed.

Lemma canvas_shows_cached_frames_witness :
  exists i : jsint,
    images st_last !! i = Some {| img_src := getFrameSrc cfg0 (Val 479) |}
    /\ img_src {| img_src := getFrameSrc cfg0 (Val 479) |} = getFrameSrc cfg0 i
    /\ out_of_range cfg0 i = false.
Proof.
  apply (canvas_shows_cached_frames cfg0 st_last);
    [apply reachable_st_last | vm_compute; left].
Defined.

(** ** What the player remembers and shows stays in range *)

Lemma clampYear_valid (c : Config) (y : jsint) : valid_year c (clampYear y).
Proof.
  destruct y as [z|]; [|now left]. right. right.
  exists (Z.min 2016 (Z.max 2000 z)). split; [reflexivity | lia].
Qed.

Lemma shown_inv_same (c : Config) (st st' : State) :
  currentFrame st' = currentFrame st -> currentYear st' = currentYear st ->
  yearText st' = yearText st -> shown_inv c st -> shown_inv c st'.
Proof. intros Hf Hy Ht [H1 H2 H3]. split; rewrite ?Hf, ?Hy, ?Ht; assumption. Qed.

Lemma shown_inv_reachable (c : Config) (st : State) :
  1 <= totalFrames c -> reachable c st -> shown_inv c st.
Proof.
  intros Hn Hreach. pose proof (reachable_constructible c st Hreach) as Hb.
  revert Hreach.
  apply (kept_reachable c (shown_inv c) (valid_frame c) (valid_year c)).
  - intros b s. now apply shown_inv_same.
  - intros b s. now apply shown_inv_same.
  - intros y s Hy [H1 H2 H3]. split; cbn; [assumption..|]. now intros y' [= <-].
  - intros y s Hy [H1 H2 H3]. now split.
  - intros fi s Hf [H1 H2 H3]. now split.
  - intros s. now apply shown_inv_same.
  - intros k i s _ _. now apply shown_inv_same.
  - intros j img s _. now apply shown_inv_same.
  - intros s. now apply shown_inv_same.
  - intros s r. apply frameIndexOf_cases. lia.
  - intros fi. apply clampYear_valid.
  - right. right. exists 2016. split; [reflexivity | lia].
  - right. now left.
  - split; cbn; [right; exists 0; split; [reflexivity | lia] | right; now left | discriminate].
  - intros ok f l1 l2 s _ H _. destruct ok; revert H; now apply shown_inv_same.
Qed.

(** X10.  For a sequence of at least one frame, in every state the player
    goes through [currentFrame] is an index of [0 .. totalFrames - 1] or
    [NaN], and [currentYear] and the year on the indicator are the first
    year, a year of 2000..2016, or [NaN]. *)
Theorem player_stays_in_range (c : Config) (st : State) :
  1 <= totalFrames c -> reachable c st ->
  valid_frame c (currentFrame st)
  /\ valid_year c (currentYear st)
  /\ (forall y : jsint, yearText st = Some y -> valid_year c y).
Proof.
  intros Hn Hreach. destruct (shown_inv_reachable c st Hn Hreach) as [H1 H2 H3]. auto.
Qed.

Lemma player_stays_in_range_witness : valid_frame cfg0 (currentFrame st_last).
Proof.
  apply (player_stays_in_range cfg0 st_last); [now vm_compute | apply reachable_st_last].
Defined.

(** ** The cache only grows *)

Lemma grown_same (m : gmap jsint Image) (l : gset jsint) (p : list Fetch)
    (st st' : State) :
  images st' = images st -> loadingFrames st' = loadingFrames st ->
  pending st' = pending st -> grown m l p st -> grown m l p st'.
Proof. unfold grown. intros -> -> ->. trivial. Qed.

Lemma grown_started (c : Config) (m : gmap jsint Image) (l : gset jsint)
    (p : list Fetch) (k : Awaiter) (i : jsint) (st : State) :
  grown m l p st -> grown m l p (started c k [i] st).
Proof.
  intros (Hm & Hl & Hp). repeat split; cbn; [assumption | set_solver |].
  now apply prefix_app_r.
Qed.

Section Grown.
Variable c : Config.
Variable m : gmap jsint Image.
Variable l : gset jsint.
Variable p : list Fetch.

Lemma grown_onScroll (g : Layout) : maintains (grown m l p) (onScroll c g).
Proof.
  apply (kept_onScroll c (grown m l p) (fun _ => True) (fun _ => True)); try done;
    try (intros; eapply grown_same; [| | |eassumption]; reflexivity).
  intros k i s _ _. apply grown_started.
Qed.

Lemma grown_onResize : maintains (grown m l p) (onResize c).
Proof.
  apply (kept_onResize c (grown m l p)); try done;
    try (intros; eapply grown_same; [| | |eassumption]; reflexivity).
  intros k i s _ _. apply grown_started.
Qed.

Lemma grown_initResume : maintains (grown m l p) (initResume c).
Proof.
  apply (kept_initResume c (grown m l p) (fun _ => True)); try done;
    try (intros; eapply grown_same; [| | |eassumption]; reflexivity).
  intros k i s _ _. apply grown_started.
Qed.
End Grown.

Lemma grown_refl (st : State) : grown (images st) (loadingFrames st) (pending st) st.
Proof. repeat split; reflexivity. Qed.

(** X11.  The scroll handler and the resize handler never write to the
    frame cache, never clear an in-flight mark and never drop a download:
    they leave [images] as it is and can only add marks and downloads. *)
Theorem handlers_only_add_downloads (c : Config) (st : State) :
  (forall g : Layout,
     let st' := exec (onScroll c g) st in
     images st' = images st /\ loadingFrames st ⊆ loadingFrames st'
     /\ pending st `prefix_of` pending st')
  /\ (let st' := exec (onResize c) st in
      images st' = images st /\ loadingFrames st ⊆ loadingFrames st'
      /\ pending st `prefix_of` pending st').
Proof.
  split.
  - intros g. apply (grown_onScroll c _ _ _ g st), grown_refl.
  - apply (grown_onResize c _ _ _ st), grown_refl.
Qed.

Lemma resume_images (c : Config) (k : Awaiter) (v : option Image) (st : State) :
  images (exec (resume c k v) st) = images st.
Proof.
  destruct k; cbn [resume].
  - reflexivity.
  - rewrite (exec_of _ _ _ _ (drawResume_run v st)).
    destruct v; [reflexivity|]. now destruct (images st !! Val 0).
  - now destruct (grown_initResume c _ _ _ st (grown_refl st)) as [H _].
Qed.

Lemma step_images (c : Config) (st st' : State) :
  reachable c st -> step c st st' -> images st ⊆ images st'.
Proof.
  intros Hreach Hstep. destruct Hstep as [g st _|st _|ok f l1 l2 st Hp].
  - destruct (grown_onScroll c _ _ _ g st (grown_refl st)) as [-> _]. reflexivity.
  - destruct (grown_onResize c _ _ _ st (grown_refl st)) as [-> _]. reflexivity.
  - unfold settle. rewrite exec_bind, resume_images.
    destruct ok; [|reflexivity].
    rewrite (exec_of _ _ _ _ (onLoad_run f _)). cbn.
    apply insert_subseteq.
    assert (f ∈ pending st) as Hf by (rewrite Hp; apply elem_of_app; right; now left).
    now destruct (inv_marked st (net_inv_reachable c st Hreach) f Hf).
Qed.

(** X12.  No task of the event loop evicts or replaces a cached frame:
    across every step from a state the player goes through, a slot that
    holds an image keeps that image. *)
Theorem cache_never_evicts (c : Config) (st st' : State) (i : jsint) (img : Image) :
  reachable c st -> step c st st' ->
  images st !! i = Some img -> images st' !! i = Some img.
Proof.
  intros Hreach Hstep Hi. eapply lookup_weaken; [exact Hi|].
  now apply (step_images c).
Qed.

Lemma cache_never_evicts_witness :
  images st_at_end !! Val 0 = Some {| img_src := getFrameSrc cfg0 (Val 0) |}.
Proof.
  apply (cache_never_evicts cfg0 st_ready st_at_end (Val 0));
    [apply reachable_st_ready | now apply step_scroll | vm_compute; reflexivity].
Defined.

(** ** A new frame brings its window *)

Lemma preloadBuffer_covered (c : Config) (center : Z) (st : State) :
  window_covered c center (exec (preloadBuffer c (Val center)) st).
Proof.
  rewrite (exec_of _ _ _ _ (preloadBuffer_run c (Val center) st)).
  intros z Hz. destruct (decide (idle st (Val z))) as [Hidle|Hbusy].
  - right. apply started_marks. right. apply prefetchTargets_elem. split; assumption.
  - unfold idle in Hbusy.
    destruct (images st !! Val z) as [img|] eqn:Hc; [left; cbn; rewrite Hc; eauto|].
    right. apply started_marks. left.
    destruct (decide (Val z ∈ loadingFrames st)); [assumption | tauto].
Qed.

Lemma covered_same (c : Config) (center : Z) (st st' : State) :
  images st' = images st -> loadingFrames st' = loadingFrames st ->
  window_covered c center st -> window_covered c center st'.
Proof. unfold window_covered. intros -> ->. trivial. Qed.

Lemma covered_updateYearIndicator (c : Config) (center : Z) (year : jsint) :
  maintains (window_covered c center) (updateYearIndicator c year).
Proof.
  intros st H. rewrite (exec_of _ _ _ _ (updateYearIndicator_run c year st)).
  destruct (yearEls c); [|exact H]. revert H. now apply covered_same.
Qed.

Lemma covered_updateOverlay (c : Config) (center : Z) (show : bool) :
  maintains (window_covered c center) (updateOverlay c show).
Proof.
  intros st H. rewrite (exec_of _ _ _ _ (updateOverlay_run c show st)).
  destruct (overlay c); [|exact H]. revert H. now apply covered_same.
Qed.

Lemma frameChanged_covered (c : Config) (z : Z) (st : State) :
  window_covered c z (exec (frameChanged c (Val z)) st).
Proof.
  unfold frameChanged. rewrite !exec_bind. cbn beta.
  match goal with |- window_covered _ _ (exec ?m ?s) =>
    assert (maintains (window_covered c z) m) as Hm; [|apply Hm] end.
  - apply maintains_when. cbv zeta.
    apply maintains_bind; [apply maintains_get | intros st0].
    apply maintains_when, maintains_bind.
    + intros s H. revert H. now apply covered_same.
    + intros _. apply covered_updateYearIndicator.
  - apply preloadBuffer_covered.
Qed.

(** X13.  When the handler maps the scroll position to a frame other than
    [currentFrame], it returns with every frame within 15 of the new frame
    (and in range) cached or in flight, the new frame included. *)
Theorem onScroll_new_frame_prefetched (c : Config) (g : Layout) (st : State) (z : Z) :
  initialized st = true ->
  (0 <= scrollStart g)%Q -> (scrollStart g <= scrollRange g)%Q ->
  frameIndexOf c (progressOf (scrollStart g) (scrollRange g)) = Val z ->
  strict_neq (Val z) (currentFrame st) = true ->
  window_covered c z (exec (onScroll c g) st).
Proof.
  intros Hi Hs Hr Hz Hneq. unfold exec. rewrite onScroll_within by assumption.
  rewrite Hz, Hneq. cbn [when]. rewrite bind_run. cbn [snd].
  apply covered_updateOverlay, frameChanged_covered.
Qed.

Lemma onScroll_new_frame_prefetched_witness :
  window_covered cfg0 239 (exec (onScroll cfg0 layout_mid) st_ready).
Proof.
  apply (onScroll_new_frame_prefetched cfg0 layout_mid st_ready 239);
    [reflexivity | now vm_compute | now vm_compute | reflexivity | reflexivity].
Defined.

(** ** Construction and [init] *)

Lemma setupCanvas_run (st : State) :
  setupCanvas st
  = (tt, match images st !! Val 0 with
         | Some _ => set_canvas (cons Resized) st
         | None => st
         end).
Proof.
  unfold setupCanvas. rewrite bind_run. cbn [get fst snd].
  now destruct (images st !! Val 0).
Qed.

(** [initResume] step by step. *)
Lemma initResume_run (c : Config) (st : State) :
  let sa := match images st !! Val 0 with
            | Some _ => set_canvas (cons Resized) st
            | None => st
            end in
  let sb := exec (drawFrame c (Val 0)) sa in
  let sc := set_initialized true sb in
  let sd := started c Dropped (prefetchTargets c (Val 0) sc) sc in
  exec (initResume c) st
  = if hasYearIndicator c && yearEls c
    then set_yearText (Some (Val (startYear c))) sd else sd.
Proof.
  intros sa sb sc sd. unfold initResume. rewrite !exec_bind. cbn beta.
  rewrite (exec_of _ _ _ _ (setupCanvas_run st)). fold sa sb.
  change (exec (modify (set_initialized true)) sb) with sc.
  rewrite (exec_of _ _ _ _ (preloadBuffer_run c (Val 0) sc)). fold sd.
  destruct (hasYearIndicator c); cbn [when andb]; [|reflexivity].
  now rewrite (exec_of _ _ _ _ (updateYearIndicator_run c _ sd)).
Qed.

Lemma initResume_covered (c : Config) (st : State) :
  window_covered c 0 (exec (initResume c) st).
Proof.
  rewrite initResume_run.
  match goal with |- window_covered _ _ (if _ then set_yearText _ ?s else ?s) =>
    assert (window_covered c 0 s) as H end.
  { rewrite <- (exec_of _ _ _ _ (preloadBuffer_run c (Val 0) _)).
    apply preloadBuffer_covered. }
  destruct (hasYearIndicator c && yearEls c); [|exact H].
  revert H. now apply covered_same.
Qed.

Lemma construct_loading (c : Config) :
  1 <= totalFrames c <= 4294967295 ->
  construct c = Some (started c AwaitInit [Val 0] (blank c)).
Proof.
  intros Hn. rewrite construct_ok by lia. f_equal.
  unfold init. rewrite exec_bind.
  assert (loadFrame c AwaitInit (Val 0) (blank c)
          = (Waiting, started c AwaitInit [Val 0] (blank c))) as Hload.
  { apply loadFrame_idle; [apply in_range_Val; lia|].
    split; [apply lookup_empty | apply not_elem_of_empty]. }
  now rewrite (eval_of _ _ _ _ Hload), (exec_of _ _ _ _ Hload).
Qed.

(** X14.  For a sequence of at least one frame and at most [2^32 - 1]
    frames the constructor leaves an
    uninitialised player with exactly one download, frame 0 awaited by
    [init].  Whether that download arrives or fails, the player is then
    initialised, the frames 0..15 (in range) are cached or in flight, and
    the indicator, if enabled and present, shows the first year.  If
    frame 0 arrived it is cached, the canvas was sized and, given a 2D
    context, frame 0 painted; if it failed the cache and the canvas stay
    empty and frame 0 is requested again. *)
Theorem init_outcome (c : Config) (ok : bool) :
  1 <= totalFrames c <= 4294967295 ->
  let f0 := mkFetch c AwaitInit (Val 0) in
  let img0 := {| img_src := getFrameSrc c (Val 0) |} in
  exists st0 : State,
    construct c = Some st0
    /\ initialized st0 = false /\ pending st0 = [f0] /\ canvas st0 = []
    /\ let st1 := exec (settle c ok f0) (set_pending (fun _ => []) st0) in
       initialized st1 = true
       /\ window_covered c 0 st1
       /\ yearText st1
          = (if hasYearIndicator c && yearEls c then Some (Val (startYear c)) else None)
       /\ (ok = true ->
           images st1 = {[ Val 0 := img0 ]}
           /\ canvas st1 = (if ctx c then [Painted img0; Resized] else [Resized]))
       /\ (ok = false ->
           images st1 = ∅ /\ canvas st1 = [] /\ Val 0 ∈ loadingFrames st1
           /\ (ctx c = true -> head (pending st1) = Some (mkFetch c AwaitDraw (Val 0)))).
Proof.
  intros Hn f0 img0. exists (started c AwaitInit [Val 0] (blank c)).
  split; [now apply construct_loading|].
  split; [reflexivity|]. split; [reflexivity|]. split; [reflexivity|].
  intros st1.
  assert (out_of_range c (Val 0) = false) as Hr0 by (apply in_range_Val; lia).
  set (st0' := set_pending (fun _ => []) (started c AwaitInit [Val 0] (blank c))) in *.
  assert (st1 = exec (initResume c) (exec (onSettled ok f0) st0')) as Hst1
    by (unfold st1, settle; now rewrite exec_bind).
  split; [|split; [rewrite Hst1; apply initResume_covered|]].
  - rewrite Hst1, initResume_run. now destruct (hasYearIndicator c && yearEls c).
  - destruct ok.
    + (* the first frame arrived *)
      assert (images (exec (onSettled true f0) st0') !! Val 0 = Some img0) as Hc0
        by (rewrite (exec_of _ _ _ _ (onLoad_run f0 st0')); cbn; apply lookup_insert_eq).
      rewrite Hst1, initResume_run. cbv zeta. rewrite Hc0.
      set (s1 := exec (onSettled true f0) st0') in *.
      assert (exec (drawFrame c (Val 0)) (set_canvas (cons Resized) s1)
              = if ctx c then set_canvas (cons (Painted img0)) (set_canvas (cons Resized) s1)
                else set_canvas (cons Resized) s1) as ->.
      { destruct (ctx c) eqn:Hctx.
        - now rewrite (exec_of _ _ _ _
                       (drawFrame_cached c (Val 0) img0 (set_canvas (cons Resized) s1) Hctx Hc0)).
        - now rewrite (exec_of _ _ _ _ (drawFrame_no_ctx c (Val 0) _ Hctx)). }
      split; [now destruct (hasYearIndicator c && yearEls c), (ctx c)|].
      split; [|intros [=]]. intros _.
      destruct (hasYearIndicator c && yearEls c), (ctx c); split; reflexivity.
    + (* the first frame failed *)
      set (s1 := exec (onSettled false f0) st0') in *.
      assert (images s1 = ∅) as Him by reflexivity.
      assert (loadingFrames s1 = (∅ ∪ {[Val 0]}) ∖ {[Val 0]}) as Hlf by reflexivity.
      assert (idle s1 (Val 0)) as Hidle.
      { split; [rewrite Him; apply lookup_empty | rewrite Hlf; set_solver]. }
      rewrite Hst1, initResume_run. cbv zeta. rewrite Him, lookup_empty.
      destruct (ctx c) eqn:Hctx.
      * rewrite (drawFrame_idle c (Val 0) s1 Hctx Hr0 Hidle).
        split; [now destruct (hasYearIndicator c && yearEls c)|].
        split; [intros [=]|]. intros _.
        split; [now destruct (hasYearIndicator c && yearEls c)|].
        split; [now destruct (hasYearIndicator c && yearEls c)|].
        split.
        -- destruct (hasYearIndicator c && yearEls c); cbn; set_solver.
        -- intros _. now destruct (hasYearIndicator c && yearEls c).
      * rewrite (exec_of _ _ _ _ (drawFrame_no_ctx c (Val 0) s1 Hctx)).
        split; [now destruct (hasYearIndicator c && yearEls c)|].
        split; [intros [=]|]. intros _.
        split; [now destruct (hasYearIndicator c && yearEls c)|].
        split; [now destruct (hasYearIndicator c && yearEls c)|].
        split; [|intros [=]].
        assert (Val 0 ∈ prefetchTargets c (Val 0) (set_initialized true s1)) as Hin.
        { apply prefetchTargets_elem. split; [lia | exact Hidle]. }
        destruct (hasYearIndicator c && yearEls c); apply started_marks; now right.
Qed.

Lemma init_outcome_witness :
  exists st0 : State, construct cfg0 = Some st0 /\ pending st0 = [mkFetch cfg0 AwaitInit (Val 0)].
Proof.
  destruct (init_outcome cfg0 true) as (st0 & H1 & _ & H3 & _); [now vm_compute|].
  now exists st0.
Defined.

(** X15.  A sequence whose last frame number is more than one below the
    first cannot be constructed ([new Array] of a negative length throws);
    an empty sequence is initialised in the task that constructs it, with
    nothing cached, painted or downloading. *)
Theorem construct_degenerate (c : Config) :
  (totalFrames c < 0 -> construct c = None)
  /\ (totalFrames c = 0 ->
      exists st : State,
        construct c = Some st
        /\ initialized st = true /\ images st = ∅ /\ pending st = []
        /\ loadingFrames st = ∅ /\ canvas st = []
        /\ currentFrame st = Val 0).
Proof.
  split.
  - intros Hn. unfold construct. now rewrite (proj2 (Z.ltb_lt _ _) Hn).
  - intros Hn. eexists. split.
    + unfold construct. rewrite Hn. cbn [Z.ltb Z.compare]. reflexivity.
    + assert (out_of_range c (Val 0) = true) as Hr by (unfold out_of_range; now rewrite Hn).
      assert (forall k, loadFrame c k (Val 0) (blank c) = (Settled None, blank c)) as Hload
        by (intros k; unfold loadFrame; now rewrite Hr).
      unfold init. rewrite exec_bind, (eval_of _ _ _ _ (Hload _)), (exec_of _ _ _ _ (Hload _)).
      rewrite initResume_run. cbv zeta. cbn [images blank]. rewrite lookup_empty.
      assert (exec (drawFrame c (Val 0)) (blank c) = blank c) as ->.
      { unfold drawFrame. destruct (ctx c); [|reflexivity]. cbn [negb].
        rewrite exec_bind. change (eval get (blank c)) with (blank c).
        change (exec get (blank c)) with (blank c). cbn [images blank]. rewrite lookup_empty.
        rewrite exec_bind, (eval_of _ _ _ _ (Hload _)), (exec_of _ _ _ _ (Hload _)).
        rewrite (exec_of _ _ _ _ (drawResume_run None _)). cbn [images blank].
        now rewrite lookup_empty. }
      assert (prefetchTargets c (Val 0) (set_initialized true (blank c)) = []) as ->.
      { unfold prefetchTargets, window. rewrite Hn. reflexivity. }
      rewrite started_nil.
      destruct (hasYearIndicator c && yearEls c); repeat split.
Qed.

Lemma construct_degenerate_witness :
  construct
    {| sequenceName := "seq"; startFrame := 5; endFrame := 3; pattern := "f{frame}.png";
       padding := 3; framesPerYear := 0; startYear := 2000;
       ctx := true; overlay := true; yearEls := true |} = None.
Proof. apply construct_degenerate. reflexivity. Defined.

(** ** The rectangle of [setupCanvas] *)

(** The relative error of a rounding in the normal range. *)
Lemma b64_rel_err (x : Q) :
  (pow2 (-1022) <= x)%Q -> (x < pow2 1023)%Q ->
  exists p : Q, b64 x = Fin p
    /\ (x * (1 - pow2 (-53)) <= p)%Q /\ (p <= x * (1 + pow2 (-53)))%Q.
Proof.
  intros Hlo Hhi. pose proof (pow2_pos (-1022)) as P0.
  assert (0 < x)%Q as Hx by lra.
  destruct (Qlog2_spec x Hx) as [L1 L2]. set (L := Qlog2 x) in *.
  assert (-1022 <= L) as HL.
  { assert (-1022 < L + 1); [|lia]. apply pow2_lt_inv. lra. }
  assert (ulp_exp x = L - 52) as He by (unfold ulp_exp; fold L; lia).
  destruct (round_pos_err x Hx) as [E1 E2]. rewrite He in E1, E2.
  assert (pow2 (L - 52 - 1) == pow2 L * pow2 (-53))%Q as Ep
    by (rewrite <- pow2_add; now replace (L + -53) with (L - 52 - 1) by lia).
  pose proof (pow2_pos (-53)) as P53. pose proof (pow2_pos L) as PL.
  assert (pow2 (-53) <= 1)%Q as P53' by (change 1%Q with (pow2 0); apply pow2_le; lia).
  assert (pow2 1024 == 2 * pow2 1023)%Q as E1024
    by (change 1024 with (1 + 1023); now rewrite pow2_add).
  destruct (b64_pos_cases x Hx) as [[_ O]|[-> F]].
  - exfalso. rewrite Ep in E2. nra.
  - eexists. split; [reflexivity|]. rewrite Qred_correct, Ep in *. split; nra.
Qed.

Lemma dim_bounds (n : N) :
  (0 < n)%N -> (n < 4294967296)%N -> (1 <= dim n)%Q /\ (dim n <= 4294967295)%Q.
Proof.
  intros H0 H1. unfold dim. change 1%Q with (inject_Z 1).
  change 4294967295%Q with (inject_Z 4294967295). rewrite <- !Zle_Qle. lia.
Qed.

Lemma b64_dim (n : N) : (n < 4294967296)%N -> b64 (dim n) = Fin (dim n).
Proof. intros H. unfold dim. apply b64_int. lia. Qed.

(** A quotient or product of pixel counts and aspect ratios, rounded. *)
Lemma b64_pixels (x : Q) :
  (1 # 100000000000000000000 <= x)%Q -> (x <= 100000000000000000000)%Q ->
  exists p : Q, b64 x = Fin p
    /\ (x * (1 - (1 # 9007199254740992)) <= p)%Q
    /\ (p <= x * (1 + (1 # 9007199254740992)))%Q.
Proof.
  intros Hlo Hhi. apply b64_rel_err.
  - eapply Qle_trans; [|exact Hlo]. apply Qlt_le_weak.
    apply Qlt_le_trans with (pow2 (-70)); [apply pow2_lt; lia | now vm_compute].
  - eapply Qle_lt_trans; [exact Hhi|].
    apply Qle_lt_trans with (pow2 70); [now vm_compute | apply pow2_lt; lia].
Qed.

(** A difference of such numbers, and its half. *)
Lemma b64_finite (x : Q) :
  (- pow2 100 <= x)%Q -> (x <= pow2 100)%Q ->
  exists p : Q, b64 x = Fin p /\ (- pow2 100 <= p)%Q /\ (p <= pow2 100)%Q.
Proof.
  intros H1 H2.
  assert (b64 (pow2 100) = Fin (pow2 100)) as Bp by (vm_compute; reflexivity).
  assert (b64 (- pow2 100) = Fin (- pow2 100)) as Bn by (vm_compute; reflexivity).
  apply xle_Fin_bounds; [rewrite <- Bn | rewrite <- Bp]; now apply b64_mono.
Qed.

Lemma x_half_sub (a q : Q) :
  (0 <= a)%Q -> (a <= 4294967295)%Q -> (0 <= q)%Q -> (q <= 100000000000000000000)%Q ->
  exists p : Q,
    x_half (x_sub a (Fin q)) = Fin p
    /\ ((a <= q)%Q -> (p <= 0)%Q)
    /\ ((a - q <= 1 # 1048576)%Q -> (p <= 1 # 2097152)%Q).
Proof.
  intros A0 A1 Q0 Q1. cbn [x_sub].
  assert (pow2 100 == 1267650600228229401496703205376)%Q as E100 by reflexivity.
  destruct (b64_finite (a - q)) as (d & Hd & D1 & D2); [rewrite E100; lra..|].
  rewrite Hd. cbn [x_half]. rewrite E100 in D1, D2.
  assert (d / 2 == d * (1 # 2))%Q as E2 by now field.
  destruct (b64_finite (d / 2)) as (p & Hp & P1 & P2); [rewrite E2, E100; lra..|].
  exists p. split; [exact Hp|]. split.
  - intros Hle. assert (a - q <= 0)%Q as H by lra.
    pose proof (b64_mono _ _ H) as M. rewrite Hd, b64_0 in M. cbn [xle] in M.
    assert (d / 2 <= 0)%Q as H' by (rewrite E2; lra).
    pose proof (b64_mono _ _ H') as M'. rewrite Hp, b64_0 in M'. exact M'.
  - intros Hle. pose proof (b64_mono _ _ Hle) as M.
    assert (b64 (1 # 1048576) = Fin (1 # 1048576)) as B20 by (vm_compute; reflexivity).
    assert (b64 (1 # 2097152) = Fin (1 # 2097152)) as B21 by (vm_compute; reflexivity).
    rewrite Hd, B20 in M. cbn [xle] in M.
    assert (d / 2 <= 1 # 2097152)%Q as H' by (rewrite E2; lra).
    pose proof (b64_mono _ _ H') as M'. rewrite Hp, B21 in M'. exact M'.
Qed.

Lemma x_half_sub_same (a : Q) : x_half (x_sub a (Fin a)) = Fin 0.
Proof.
  cbn [x_sub]. rewrite (b64_comp (a - a) 0) by ring. rewrite b64_0. cbn [x_half].
  now rewrite (b64_comp (0 / 2) 0) by reflexivity.
Qed.

Lemma truthy_pos (q : Q) : (0 < q)%Q -> truthy (Fin q) = true.
Proof.
  intros Hq. cbn [truthy]. apply negb_true_iff, not_true_iff_false.
  intros E. apply Qeq_bool_iff in E. rewrite E in Hq. now apply Qlt_irrefl in Hq.
Qed.

(** X16.  For a first image and a viewport whose widths and heights are
    positive and below 2^32, [setupCanvas] leaves a finite rectangle that
    [drawFrame] uses as it is.  The two aspect ratios are compared as
    rounded.  Either the rectangle is exactly as wide as the viewport, starts
    at its left edge, is at least as high and starts at or above its top
    edge; or it is exactly as high, starts at its top edge, is at least
    (1 - 2^-52) times as wide and starts at most 2^-21 of a pixel inside
    it.  Its aspect ratio is that of the image up to a relative error of
    2^-51, and both offsets are the rounded half of the rounded difference
    between the viewport and the rectangle. *)
Theorem setupCanvas_covers (iw ih vw vh : N) (old : Rect) :
  (0 < iw < 4294967296)%N -> (0 < ih < 4294967296)%N ->
  (0 < vw < 4294967296)%N -> (0 < vh < 4294967296)%N ->
  let r := setupCanvas_rect (Some (iw, ih)) vw vh old in
  exists x y w h : Q,
    r = {| drawX := Fin x; drawY := Fin y; drawWidth := Fin w; drawHeight := Fin h |}
    /\ drawImage_rect r vw vh = r
    /\ ((w = dim vw /\ x = 0%Q /\ (dim vh <= h)%Q /\ (y <= 0)%Q)
        \/ (h = dim vh /\ y = 0%Q
            /\ ((1 - (1 # 4503599627370496)) * dim vw <= w)%Q /\ (x <= 1 # 2097152)%Q))
    /\ ((1 - (1 # 2251799813685248)) * (h * dim iw) <= w * dim ih)%Q
    /\ (w * dim ih <= (1 + (1 # 2251799813685248)) * (h * dim iw))%Q
    /\ drawX r = x_half (x_sub (dim vw) (drawWidth r))
    /\ drawY r = x_half (x_sub (dim vh) (drawHeight r)).
Proof.
  intros [Hiw0 Hiw1] [Hih0 Hih1] [Hvw0 Hvw1] [Hvh0 Hvh1] r.
  destruct (dim_bounds iw Hiw0 Hiw1) as [IW1 IW2].
  destruct (dim_bounds ih Hih0 Hih1) as [IH1 IH2].
  destruct (dim_bounds vw Hvw0 Hvw1) as [VW1 VW2].
  destruct (dim_bounds vh Hvh0 Hvh1) as [VH1 VH2].
  set (A := (dim iw / dim ih)%Q). set (V := (dim vw / dim vh)%Q).
  assert (A * dim ih == dim iw)%Q as EA by (unfold A; field; lra).
  assert (V * dim vh == dim vw)%Q as EV by (unfold V; field; lra).
  assert (0 < A)%Q as A0 by (apply Qlt_shift_div_l; lra).
  assert (0 < V)%Q as V0 by (apply Qlt_shift_div_l; lra).
  destruct (b64_pixels A) as (a & Ha & A1 & A2); [nra | nra |].
  destruct (b64_pixels V) as (v & Hv & V1 & V2); [nra | nra |].
  assert (0 < a)%Q as a0 by nra.
  subst r. unfold setupCanvas_rect.
  rewrite (js_div_pos (dim iw) (dim ih)), (js_div_pos (dim vw) (dim vh)) by lra.
  fold A V. rewrite Ha, Hv. cbn [x_gt].
  destruct (Qltb a v) eqn:Hcmp.
  - (* the viewport is relatively wider than the image: full width *)
    apply Qltb_lt in Hcmp. cbn [x_div]. rewrite (js_div_pos _ _ a0).
    set (H' := (dim vw / a)%Q).
    assert (H' * a == dim vw)%Q as EH by (unfold H'; field; lra).
    assert (0 < H')%Q as H0 by (apply Qlt_shift_div_l; lra).
    assert (a < V)%Q as HaV.
    { apply Qnot_le_lt. intros C. pose proof (b64_mono _ _ C) as M.
      rewrite Hv, (b64_idem _ _ Ha) in M. cbn [xle] in M. lra. }
    assert (dim vh <= H')%Q as Hcover by nra.
    destruct (b64_pixels H') as (h & Hh & H1 & H2); [nra | nra |].
    rewrite Hh.
    assert (dim vh <= h)%Q as Hcov.
    { pose proof (b64_mono _ _ Hcover) as M. rewrite (b64_dim vh Hvh1), Hh in M. exact M. }
    destruct (x_half_sub (dim vh) h) as (y & Hy & Y1 & _); [lra | lra | nra | nra |].
    rewrite Hy. exists 0%Q, y, (dim vw), h.
    split; [reflexivity|].
    split.
    { unfold drawImage_rect. cbn [drawWidth drawHeight].
      rewrite !truthy_pos by lra. reflexivity. }
    split; [left; repeat split; [exact Hcov | now apply Y1]|].
    set (K := (H' * dim ih)%Q). assert (0 < K)%Q as K0 by (unfold K; nra).
    set (T := (K * A)%Q).
    assert (dim vw * dim ih == K * a)%Q as EW by (unfold K; rewrite <- EH; ring).
    assert (H' * dim iw == T)%Q as ET by (unfold T, K; rewrite <- EA; ring).
    assert (T * (1 - (1 # 9007199254740992)) <= dim vw * dim ih)%Q as W1
      by (rewrite EW; unfold T; nra).
    assert (dim vw * dim ih <= T * (1 + (1 # 9007199254740992)))%Q as W2
      by (rewrite EW; unfold T; nra).
    assert (0 < T)%Q as T0 by (unfold T; nra).
    assert (T * (1 - (1 # 9007199254740992)) <= h * dim iw)%Q as HI1
      by (rewrite <- ET; nra).
    assert (h * dim iw <= T * (1 + (1 # 9007199254740992)))%Q as HI2
      by (rewrite <- ET; nra).
    split; [lra|]. split; [lra|].
    cbn [drawX drawY drawWidth drawHeight].
    split; [now rewrite x_half_sub_same | now rewrite Hy].
  - (* the viewport is relatively higher, or as wide: full height *)
    apply Qltb_ge in Hcmp. cbn [x_mul].
    set (W' := (dim vh * a)%Q).
    assert (0 < W')%Q as W0 by (unfold W'; nra).
    destruct (b64_pixels W') as (w & Hw & W1 & W2); [unfold W'; nra | unfold W'; nra |].
    rewrite Hw.
    assert (dim vw * (1 - (1 # 9007199254740992)) <= W')%Q as Hc1
      by (unfold W'; rewrite <- EV; nra).
    assert ((1 - (1 # 4503599627370496)) * dim vw <= w)%Q as Hcov by nra.
    destruct (x_half_sub (dim vw) w) as (x & Hx & _ & X2);
      [lra | lra | nra | unfold W' in *; nra |].
    assert ((1 - (1 # 2251799813685248)) * (dim vh * dim iw) <= w * dim ih
            /\ w * dim ih <= (1 + (1 # 2251799813685248)) * (dim vh * dim iw))%Q
      as [As1 As2].
    { set (K := (dim vh * dim ih)%Q). assert (0 < K)%Q as K0 by (unfold K; nra).
      set (T := (K * A)%Q).
      assert (0 < T)%Q as T0 by (unfold T; nra).
      assert (dim vh * dim iw == T)%Q as ET by (unfold T, K; rewrite <- EA; ring).
      assert (W' * dim ih == K * a)%Q as EW by (unfold W', K; ring).
      assert (W' * dim ih <= T * (1 + (1 # 9007199254740992)))%Q as WI2
        by (rewrite EW; unfold T; nra).
      assert (T * (1 - (1 # 9007199254740992)) <= W' * dim ih)%Q as WI1
        by (rewrite EW; unfold T; nra).
      assert (0 < W' * dim ih)%Q as WI0 by nra.
      assert (w * dim ih <= (W' * dim ih) * (1 + (1 # 9007199254740992)))%Q as U2 by nra.
      assert ((W' * dim ih) * (1 - (1 # 9007199254740992)) <= w * dim ih)%Q as U1 by nra.
      rewrite ET. set (P := (W' * dim ih)%Q) in *. set (R := (w * dim ih)%Q) in *.
      clearbody P R T. clear - T0 WI1 WI2 WI0 U1 U2. split; nra. }
    rewrite Hx. exists x, 0%Q, w, (dim vh).
    split; [reflexivity|].
    split.
    { unfold drawImage_rect. cbn [drawWidth drawHeight].
      rewrite !truthy_pos by nra. reflexivity. }
    split; [right; repeat split; [exact Hcov | apply X2; nra]|].
    split; [exact As1|]. split; [exact As2|].
    cbn [drawX drawY drawWidth drawHeight].
    split; [now rewrite Hx | now rewrite x_half_sub_same].
Qed.

Lemma setupCanvas_covers_witness :
  exists x y w h : Q,
    setupCanvas_rect (Some (1920, 1080)%N) 1000%N 1000%N rect0
    = {| drawX := Fin x; drawY := Fin y; drawWidth := Fin w; drawHeight := Fin h |}
    /\ h = dim 1000 /\ ((1 - (1 # 4503599627370496)) * dim 1000 <= w)%Q.
Proof.
  destruct (setupCanvas_covers 1920 1080 1000 1000 rect0)
    as (x & y & w & h & Hr & _ & Hc & _); [split; reflexivity..|].
  exists x, y, w, h. split; [exact Hr|].
  destruct Hc as [(Hw & _ & _ & _) | (Hh & _ & Hw & _)].
  - exfalso. apply (f_equal drawWidth) in Hr. cbn [drawWidth] in Hr. subst w.
    vm_compute in Hr. discriminate Hr.
  - now split.
Defined.

(** The rounded rectangle can be narrower than the viewport: an image of
    1 by 49 in a viewport of 1 by 49 is drawn 49 * (1 / 49) wide, which
    rounds to 1 - 2^-53, and starts 2^-54 of a pixel inside the viewport. *)
Example setupCanvas_narrower_by_rounding :
  setupCanvas_rect (Some (1, 49)%N) 1%N 49%N rect0
  = {| drawX := Fin (1 # 18014398509481984); drawY := Fin 0;
       drawWidth := Fin (9007199254740991 # 9007199254740992);
       drawHeight := Fin 49 |}.
Proof. vm_compute. reflexivity. Qed.

(** ** The listeners of [bindScroll] *)

Lemma onScroll_uninitialized (c : Config) (g : Layout) (st : State) :
  initialized st = false -> exec (onScroll c g) st = st.
Proof.
  intros H. unfold onScroll. rewrite exec_bind.
  change (eval get st) with st. change (exec get st) with st.
  now rewrite H.
Qed.

Lemma scrollEvent_iter (n : nat) (p : Page) :
  ticking p = false ->
  Nat.iter (S n) scrollEvent p
  = {| player := player p; ticking := true; frameCallbacks := S (frameCallbacks p) |}.
Proof.
  intros H. induction n as [|n IH].
  - cbn. unfold scrollEvent. now rewrite H.
  - change (Nat.iter (S (S n)) scrollEvent p)
      with (scrollEvent (Nat.iter (S n) scrollEvent p)).
    now rewrite IH.
Qed.

(** What the flag [ticking] stands for, and what the page does to the
    player. *)
Lemma page_inv (c : Config) (p : Page) :
  page_reachable c p ->
  frameCallbacks p = (if ticking p then 1 else 0)%nat /\ reachable c (player p).
Proof.
  induction 1 as [st Hst|p p' _ [IHt IHr] Hstep].
  - split; [reflexivity | now apply reach_construct].
  - destruct Hstep as [p Hi|g p|p Hi|ok f l1 l2 p Hp].
    + unfold scrollEvent. destruct (ticking p) eqn:Ht.
      * rewrite Ht. now split.
      * cbn. rewrite IHt. now split.
    + unfold animationFrame. rewrite IHt. destruct (ticking p); cbn.
      * split; [reflexivity|].
        destruct (initialized (player p)) eqn:Hi.
        -- eapply reach_step; [exact IHr | now apply step_scroll].
        -- now rewrite onScroll_uninitialized.
      * now split.
    + cbn. split; [exact IHt|]. eapply reach_step; [exact IHr | now apply step_resize].
    + cbn. split; [exact IHt|].
      eapply reach_step; [exact IHr | now apply step_settle].
Qed.

(** Conversely the page delivers every task of the player: a scroll task is
    a [scroll] event and the frame after it. *)
Lemma page_of_reachable (c : Config) (st : State) :
  reachable c st -> page_reachable c (quiet st).
Proof.
  induction 1 as [st Hst|st st' Hr IH Hstep].
  - now apply page_construct.
  - destruct Hstep as [g st Hi|st Hi|ok f l1 l2 st Hpend].
    + change (quiet (exec (onScroll c g) st))
        with (animationFrame c g (scrollEvent (quiet st))).
      eapply page_next; [eapply page_next; [exact IH | now apply page_scroll]|].
      apply page_frame.
    + change (quiet (exec (onResize c) st)) with (resizeEvent c (quiet st)).
      eapply page_next; [exact IH | now apply page_resize].
    + change (quiet (exec (settle c ok f) (set_pending (fun _ => (l1 ++ l2)%list) st)))
        with (settleEvent c ok f l1 l2 (quiet st)).
      eapply page_next; [exact IH | now apply page_settle].
Qed.

(** X17.  On every page the player goes through, at most one callback
    waits for the next animation frame, and one waits exactly when
    [ticking] is set.  Any number of [scroll] events (at least one) before
    a frame makes that frame call [onScroll] once, with the layout of the
    frame; a frame that no [scroll] event precedes calls nothing. *)
Theorem scroll_events_coalesced (c : Config) (g : Layout) (p : Page) (n : nat) :
  page_reachable c p ->
  frameCallbacks p = (if ticking p then 1 else 0)%nat
  /\ animationFrame c g (Nat.iter (S n) scrollEvent p)
     = quiet (exec (onScroll c g) (player p))
  /\ animationFrame c g (animationFrame c g (Nat.iter (S n) scrollEvent p))
     = animationFrame c g (Nat.iter (S n) scrollEvent p).
Proof.
  intros Hp. destruct (page_inv c p Hp) as [Ht _]. split; [exact Ht|].
  assert (animationFrame c g (Nat.iter (S n) scrollEvent p)
          = quiet (exec (onScroll c g) (player p))) as Hrun.
  { destruct (ticking p) eqn:Htick.
    - assert (Nat.iter (S n) scrollEvent p = p) as ->.
      { induction n as [|n IH].
        - cbn. unfold scrollEvent. now rewrite Htick.
        - change (Nat.iter (S (S n)) scrollEvent p)
            with (scrollEvent (Nat.iter (S n) scrollEvent p)).
          rewrite IH. unfold scrollEvent. now rewrite Htick. }
      unfold animationFrame. now rewrite Ht.
    - rewrite (scrollEvent_iter n p Htick). unfold animationFrame.
      cbn [frameCallbacks]. now rewrite Ht. }
  split; [exact Hrun|]. now rewrite Hrun.
Qed.

Lemma scroll_events_coalesced_witness :
  animationFrame cfg0 layout_50 (Nat.iter 3 scrollEvent (quiet st_ready))
  = quiet (exec (onScroll cfg0 layout_50) st_ready).
Proof.
  apply (scroll_events_coalesced cfg0 layout_50 (quiet st_ready) 2).
  apply page_of_reachable, reachable_st_ready.
Defined.

(** X18.  The throttle changes nothing in what the player can become: the
    players of the pages are exactly the states of [reachable], so that
    every invariant of the player holds on every page. *)
Theorem page_player_reachable (c : Config) (st : State) :
  (exists p : Page, page_reachable c p /\ player p = st) <-> reachable c st.
Proof.
  split.
  - intros (p & Hp & <-). now destruct (page_inv c p Hp).
  - intros H. exists (quiet st). split; [now apply page_of_reachable | reflexivity].
Qed.

Lemma onResize_cached (c : Config) (img0 img : Image) (st : State) :
  ctx c = true -> images st !! Val 0 = Some img0 ->
  images st !! currentFrame st = Some img ->
  exec (onResize c) st
  = set_canvas (cons (Painted img)) (set_canvas (cons Resized) st).
Proof.
  intros Hctx H0 Hi. unfold onResize. rewrite exec_bind.
  rewrite (exec_of _ _ _ _ (setupCanvas_run st)), H0.
  rewrite exec_bind.
  change (eval get (set_canvas (cons Resized) st)) with (set_canvas (cons Resized) st).
  change (exec get (set_canvas (cons Resized) st)) with (set_canvas (cons Resized) st).
  cbn [currentFrame set_canvas].
  now rewrite (exec_of _ _ _ _
    (drawFrame_cached c (currentFrame st) img (set_canvas (cons Resized) st) Hctx Hi)).
Qed.

(** X19.  The [resize] listener is not throttled: with a 2D context, the
    first frame and the current frame cached, each of [n] [resize] events
    in a row sizes the canvas and paints the current frame, [n] times in
    all, and nothing else changes. *)
Theorem resize_events_each_repaint (c : Config) (p : Page) (img0 img : Image) (n : nat) :
  ctx c = true ->
  images (player p) !! Val 0 = Some img0 ->
  images (player p) !! currentFrame (player p) = Some img ->
  Nat.iter n (resizeEvent c) p
  = {| player :=
         set_canvas (fun l => (concat (replicate n [Painted img; Resized]) ++ l)%list)
           (player p);
       ticking := ticking p; frameCallbacks := frameCallbacks p |}.
Proof.
  intros Hctx H0 Hi. induction n as [|n IH].
  - cbn. now destruct p as [[] ? ?].
  - change (Nat.iter (S n) (resizeEvent c) p)
      with (resizeEvent c (Nat.iter n (resizeEvent c) p)).
    rewrite IH. unfold resizeEvent. cbn [player ticking frameCallbacks].
    now rewrite (onResize_cached c img0 img
      (set_canvas (fun l => (concat (replicate n [Painted img; Resized]) ++ l)%list) (player p))
      Hctx H0 Hi).
Qed.

Lemma resize_events_each_repaint_witness :
  canvas (player (Nat.iter 3 (resizeEvent cfg0) (quiet st_ready)))
  = (concat (replicate 3 [Painted {| img_src := getFrameSrc cfg0 (Val 0) |}; Resized])
       ++ canvas st_ready)%list.
Proof.
  rewrite (resize_events_each_repaint cfg0 (quiet st_ready)
             {| img_src := getFrameSrc cfg0 (Val 0) |}
             {| img_src := getFrameSrc cfg0 (Val 0) |} 3);
    [reflexivity | reflexivity | now vm_compute | now vm_compute].
Defined.

(** ** The list of countries beside the year *)

Lemma countriesOf_table (z : Z) :
  2000 <= z <= 2016 -> length (countriesOf (Val z)) = 5%nat.
Proof.
  intros Hz.
  assert (exists k : nat, (k <= 16)%nat /\ z = 2000 + Z.of_nat k) as (k & Hk & ->)
    by (exists (Z.to_nat (z - 2000)); lia).
  do 17 (destruct k as [|k]; [reflexivity|]). lia.
Qed.

Lemma countriesOf_outside (z : Z) :
  ~ 2000 <= z <= 2016 -> countriesOf (Val z) = [].
Proof.
  intros Hz. unfold countriesOf.
  destruct (list_find _ _) as [[i [y l]]|] eqn:E; [|reflexivity].
  apply list_find_Some in E as (Hin & Hy & _). cbn in Hy. subst y.
  apply list_elem_of_lookup_2, (list_elem_of_fmap_2 fst) in Hin. cbn in Hin.
  repeat (apply elem_of_cons in Hin as [->|Hin]; [lia|]).
  now apply elem_of_nil in Hin.
Qed.

(** X20.  The years that the handlers can put on display are the years of
    the table: whenever a reachable player of at least one frame has
    written the indicator, the list beside the year has the five entries
    of that year if the year is a number from 2000 to 2016, and is empty
    only for [NaN] or for a [startYear] outside the table. *)
Theorem countries_match_year (c : Config) (st : State) (l : list (string * string)) :
  1 <= totalFrames c -> reachable c st -> countriesShown st = Some l ->
  exists y : jsint,
    yearText st = Some y /\ l = countriesOf y
    /\ ((exists z : Z, y = Val z /\ 2000 <= z <= 2016 /\ length l = 5%nat)
        \/ (l = [] /\ (y = NaN \/ (y = Val (startYear c)
                                   /\ ~ 2000 <= startYear c <= 2016)))).
Proof.
  intros Hn Hr Hl. unfold countriesShown in Hl.
  destruct (yearText st) as [y|] eqn:Hy; [|discriminate].
  injection Hl as <-. exists y. split; [reflexivity|]. split; [reflexivity|].
  destruct (inv_text c st (shown_inv_reachable c st Hn Hr) y Hy)
    as [->|[->|(z & -> & Hz)]].
  - right. split; [reflexivity | now left].
  - destruct (decide (2000 <= startYear c <= 2016)) as [Hs|Hs].
    + left. exists (startYear c). now rewrite countriesOf_table.
    + right. split; [now apply countriesOf_outside | now right].
  - left. exists z. now rewrite countriesOf_table.
Qed.

Lemma countries_match_year_witness :
  exists y : jsint, yearText st_at_50 = Some y
    /\ countriesOf (Val 2001) = countriesOf y.
Proof.
  destruct (countries_match_year cfg0 st_at_50 (countriesOf (Val 2001)))
    as (y & Hy & Hl & _);
    [now vm_compute | apply reachable_st_at_50 | now vm_compute |].
  exists y. split; [exact Hy | exact Hl].
Defined.

(** ** Reading the descriptor *)

Lemma num_or_nonzero (n : jsint) (d : Z) : d <> 0 -> num_or n d <> 0.
Proof. intros Hd. destruct n as [[| |]|]; cbn; (assumption || discriminate). Qed.

(** X21.  Whatever the attributes of the section hold, the descriptor has
    no [startFrame], [endFrame], [padding] or [startYear] equal to 0 and no
    empty pattern: these values are replaced by 1, 100, 3, 2000 and
    [render{frame}.png].  The year indicator is enabled exactly when
    [data-frames-per-year] reads as a positive number.  A section without
    attributes plays the 100 frames 1..100. *)
Theorem readDataset_defaults (d : Dataset) (has_ctx has_overlay has_yearEls : bool) :
  let c := readDataset d has_ctx has_overlay has_yearEls in
  startFrame c <> 0 /\ endFrame c <> 0 /\ padding c <> 0 /\ startYear c <> 0
  /\ pattern c <> EmptyString
  /\ (hasYearIndicator c = true
      <-> exists z : Z, data_framesPerYear d = Val z /\ 0 < z)
  /\ (let c0 := readDataset no_data has_ctx has_overlay has_yearEls in
      totalFrames c0 = 100 /\ hasYearIndicator c0 = false
      /\ getFrameSrc c0 (Val 0) = "undefined/render001.png").
Proof.
  intros c. subst c. cbn [readDataset startFrame endFrame padding startYear pattern].
  split; [now apply num_or_nonzero|]. split; [now apply num_or_nonzero|].
  split; [now apply num_or_nonzero|]. split; [now apply num_or_nonzero|].
  split; [destruct (data_pattern d) as [[|? ?]|]; discriminate|].
  split; [|now vm_compute].
  unfold hasYearIndicator. cbn [framesPerYear readDataset]. rewrite Z.ltb_lt.
  destruct (data_framesPerYear d) as [z|]; cbn [num_or].
  - split.
    + intros H. exists z. split; [reflexivity|]. destruct z; lia.
    + intros (z' & [= <-] & Hz). destruct z; lia.
  - split; [lia | now intros (z & [=] & _)].
Qed.

(** X22.  Frames cannot be numbered from 0: [data-start] of 0 reads as 1,
    so a sequence given as 0..n (n not 0) is played as the [n] frames
    1..n, and frame index [i] is fetched from file number [i + 1] (as a
    number: with all its digits up to [2^53]). *)
Theorem readDataset_zero_based (d : Dataset) (has_ctx has_overlay has_yearEls : bool)
    (n : Z) :
  data_start d = Val 0 -> data_end d = Val n -> n <> 0 ->
  let c := readDataset d has_ctx has_overlay has_yearEls in
  startFrame c = 1 /\ totalFrames c = n
  /\ forall i : Z,
       frameNum c (Val i) = padStart (padding c) "0" (toString (of_Z (1 + i)))
       /\ (0 <= 1 + i <= 2 ^ 53 ->
           frameNum c (Val i) = padStart (padding c) "0" (decimal (1 + i))).
Proof.
  intros Hs He Hn c. subst c.
  assert (num_or (Val n) 100 = n) as Hor by (destruct n; [contradiction | reflexivity..]).
  unfold totalFrames, frameNum. cbn [readDataset startFrame endFrame padding js_add].
  rewrite Hs, He, Hor. cbn [num_or]. split; [reflexivity|]. split; [lia|].
  intros i. split; [reflexivity|]. intros Hi.
  now rewrite of_Z_safe, toString_safe by lia.
Qed.

Lemma readDataset_zero_based_witness :
  totalFrames
    (readDataset
       {| data_sequence := Some "assets/seq"; data_start := Val 0; data_end := Val 99;
          data_pattern := None; data_padding := NaN;
          data_framesPerYear := NaN; data_startYear := NaN |} true true true) = 99.
Proof.
  apply (readDataset_zero_based
           {| data_sequence := Some "assets/seq"; data_start := Val 0; data_end := Val 99;
              data_pattern := None; data_padding := NaN;
              data_framesPerYear := NaN; data_startYear := NaN |} true true true 99);
    [reflexivity | reflexivity | discriminate].
Defined.

(** ** Downloads that arrive late or in another order *)

(** X23.  When a download that [drawFrame] awaits arrives, its frame is
    painted over whatever the canvas shows, and [currentFrame] is not
    looked at: a frame requested before the player scrolled on is painted
    when it arrives, over a newer frame. *)
Theorem late_frame_is_painted (c : Config) (st : State) (f : Fetch) (l1 l2 : list Fetch) :
  reachable c st -> pending st = (l1 ++ f :: l2)%list -> f_await f = AwaitDraw ->
  let st' := exec (settle c true f) (set_pending (fun _ => (l1 ++ l2)%list) st) in
  canvas st' = Painted {| img_src := getFrameSrc c (f_index f) |} :: canvas st
  /\ images st' !! f_index f = Some {| img_src := getFrameSrc c (f_index f) |}
  /\ currentFrame st' = currentFrame st.
Proof.
  intros Hr Hp Hk st'.
  assert (f_src f = getFrameSrc c (f_index f)) as Hsrc.
  { apply (inv_src c st (cache_inv_reachable c st Hr)).
    rewrite Hp. apply elem_of_app. right. apply elem_of_cons. now left. }
  subst st'. split; [|split].
  - now rewrite (settle_draw_canvas c true f _ Hk), Hsrc.
  - unfold settle. rewrite exec_bind, Hk. cbn [resume].
    rewrite (eval_of _ _ _ _ (onLoad_run f _)), (exec_of _ _ _ _ (onLoad_run f _)).
    rewrite (exec_of _ _ _ _ (drawResume_run _ _)), Hsrc. cbn.
    apply lookup_insert_eq.
  - unfold settle. rewrite exec_bind, Hk. cbn [resume].
    rewrite (eval_of _ _ _ _ (onLoad_run f _)), (exec_of _ _ _ _ (onLoad_run f _)).
    now rewrite (exec_of _ _ _ _ (drawResume_run _ _)).
Qed.

Lemma reachable_st_moved_on : reachable cfg0 st_moved_on.
Proof.
  apply (reach_step cfg0 st_at_50); [apply reachable_st_at_50|]. now apply step_scroll.
Qed.

Lemma late_frame_is_painted_witness :
  let st' := exec (settle cfg0 true (mkFetch cfg0 AwaitDraw (Val 50)))
               (set_pending (fun _ => (take 15 (pending st_moved_on)
                                       ++ drop 16 (pending st_moved_on))%list)
                  st_moved_on) in
  head (canvas st') = Some (Painted {| img_src := getFrameSrc cfg0 (Val 50) |})
  /\ currentFrame st' = Val 239.
Proof.
  intros st'.
  destruct (late_frame_is_painted cfg0 st_moved_on (mkFetch cfg0 AwaitDraw (Val 50))
              (take 15 (pending st_moved_on)) (drop 16 (pending st_moved_on)))
    as (Hc & _ & Hf); [apply reachable_st_moved_on | now vm_compute | reflexivity |].
  fold st' in Hc, Hf. rewrite Hc, Hf. split; [reflexivity | now vm_compute].
Defined.

(** X24.  Downloads that nobody awaits (those of [preloadBuffer]) may
    arrive or fail in any order: for two of different frames the player
    ends in the same state whichever settles first. *)
Theorem prefetched_arrivals_commute (c : Config) (ok1 ok2 : bool) (f1 f2 : Fetch)
    (st : State) :
  f_await f1 = Dropped -> f_await f2 = Dropped -> f_index f1 <> f_index f2 ->
  exec (settle c ok2 f2) (exec (settle c ok1 f1) st)
  = exec (settle c ok1 f1) (exec (settle c ok2 f2) st).
Proof.
  intros H1 H2 Hne.
  assert (forall ok f s, f_await f = Dropped ->
            exec (settle c ok f) s = exec (onSettled ok f) s) as Hrun.
  { intros ok f s Hk. unfold settle. rewrite exec_bind, Hk. reflexivity. }
  rewrite !Hrun by assumption.
  destruct st as [m l cf cy ini iv ov yt cv pd].
  destruct ok1, ok2;
    rewrite ?(exec_of _ _ _ _ (onLoad_run _ _)), ?(exec_of _ _ _ _ (onError_run _ _));
    rewrite ?(exec_of _ _ _ _ (onLoad_run _ _)), ?(exec_of _ _ _ _ (onError_run _ _));
    unfold set_loadingFrames, set_images; cbn; f_equal;
    first [ now apply insert_insert_ne | set_solver ].
Qed.

Lemma prefetched_arrivals_commute_witness :
  exec (settle cfg0 false (mkFetch cfg0 Dropped (Val 2)))
    (exec (settle cfg0 true (mkFetch cfg0 Dropped (Val 1))) st_ready)
  = exec (settle cfg0 true (mkFetch cfg0 Dropped (Val 1)))
      (exec (settle cfg0 false (mkFetch cfg0 Dropped (Val 2))) st_ready).
Proof.
  apply prefetched_arrivals_commute; [reflexivity | reflexivity | discriminate].
Defined.

(** ** The class [in-view] of the section *)

Lemma inView_onScroll_rest (c : Config) (g : Layout) (st0 : State) (b : bool) :
  maintains (fun st => inView st = b)
    (if Qltb (scrollStart g) 0 then updateOverlay c false
     else if Qltb (scrollRange g) (scrollStart g) then
       drawFrame c (Val (totalFrames c - 1));;
       updateOverlay c false;;
       when (hasYearIndicator c) (updateYearIndicator c (Val 2016))
     else
       when (strict_neq (frameIndexOf c (progressOf (scrollStart g) (scrollRange g)))
               (currentFrame st0))
         (frameChanged c (frameIndexOf c (progressOf (scrollStart g) (scrollRange g))));;
       updateOverlay c (overlayShown (progressOf (scrollStart g) (scrollRange g)))).
Proof.
  set (P := fun st : State => inView st = b).
  assert (forall show, maintains P (updateOverlay c show)) as Hov
    by (intros show; apply kept_updateOverlay; intros; assumption).
  assert (forall i, maintains P (drawFrame c i)) as Hdraw
    by (intros i; apply kept_drawFrame; intros; assumption).
  destruct (Qltb (scrollStart g) 0); [apply Hov|].
  destruct (Qltb (scrollRange g) (scrollStart g)).
  - apply maintains_bind; [apply Hdraw | intros _].
    apply maintains_bind; [apply Hov | intros _].
    apply maintains_when.
    apply (kept_updateYearIndicator c P (fun _ => True)); [intros; assumption | exact I].
  - apply maintains_bind; [|intros _; apply Hov].
    apply maintains_when.
    apply (kept_frameChanged c P (fun _ => True) (fun _ => True));
      first [ intros; assumption | exact I | intros; exact I ].
Qed.

(** X25.  Every call of [onScroll] on an initialised player, whichever way
    it returns, leaves the section marked [in-view] exactly when its top is
    above the bottom of the viewport and its bottom below the top; the
    [resize] listener and the arrival or failure of a download leave the
    mark as it is. *)
Theorem inView_follows_scroll (c : Config) (g : Layout) (st : State) :
  initialized st = true ->
  (inView (exec (onScroll c g) st) = true
   <-> (rect_top g < inject_Z (innerHeight g))%Q /\ (0 < rect_bottom g)%Q)
  /\ inView (exec (onResize c) st) = inView st
  /\ forall (ok : bool) (f : Fetch), inView (exec (settle c ok f) st) = inView st.
Proof.
  intros Hi. split; [|split].
  - assert (inView (exec (onScroll c g) st) = isInView g) as ->.
    { unfold onScroll. rewrite exec_bind.
      change (eval get st) with st. change (exec get st) with st.
      rewrite Hi. cbn [negb]. rewrite exec_bind.
      now apply inView_onScroll_rest. }
    unfold isInView. now rewrite andb_true_iff, !Qltb_lt.
  - apply (kept_onResize c (fun s => inView s = inView st)); intros; (assumption || reflexivity).
  - intros ok f. unfold settle. rewrite exec_bind.
    assert (inView (exec (onSettled ok f) st) = inView st) as H0 by now destruct ok.
    set (s1 := exec (onSettled ok f) st) in *.
    destruct (f_await f); cbn [resume].
    + exact H0.
    + destruct ok.
      * now rewrite (exec_of _ _ _ _ (drawResume_run _ _)).
      * rewrite (exec_of _ _ _ _ (drawResume_run _ _)).
        unfold eval. cbn [fst onSettled]. now destruct (images s1 !! Val 0).
    + apply (kept_initResume c (fun s => inView s = inView st) (fun _ => True));
        first [ intros; assumption | exact I ].
Qed.

Lemma inView_follows_scroll_witness : inView (exec (onScroll cfg0 layout_50) st_ready) = true.
Proof.
  destruct (inView_follows_scroll cfg0 layout_50 st_ready) as [H _]; [reflexivity|].
  apply H. split; reflexivity.
Defined.
